(** * Core Timer Services (MdeModulePkg/Core/Dxe/Event/timer.c)

    A shallow embedding of the DXE core timer services: the system clock
    [mEfiSystemTime], the sorted timer list [mEfiTimerList], the expiry
    routine [CoreCheckTimers], the tick entry point [CoreTimerTick] and the
    arm/cancel entry point [CoreSetTimer].

    - UINT64 values are integers in [Z]; every 64-bit addition of the source
      is written with its wrap-around ([wrap64]).
    - An EFI_EVENT is a pointer: an address in [N], with [NULL] = 0.  Memory
      is a total map from addresses to the IEVENT fields the file reads.
    - The intrusive doubly linked list anchored at [mEfiTimerList] is the
      list of the events linked on it, head first.  Of an event's
      [u.Timer.Link.ForwardLink] only its being NULL or not is kept.
    - [CoreSignalEvent], [CoreAcquireLock] and [CoreReleaseLock] belong to
      other files of the core; calls to them are recorded in two logs. *)

From stdpp Require Import prelude functions sorting.

Local Open Scope Z_scope.

Set Warnings "-clear-no-such-hyp".

(** ** Machine integers and header constants *)

Definition wrap64 (x : Z) : Z := x mod 2 ^ 64.

Definition u64 (x : Z) : Prop := 0 <= x < 2 ^ 64.

(** Modelled from the spec: the header constant TPL_HIGH_LEVEL is declared
    outside this file; the spec calls it the highest priority level.  The
    value is the one the UEFI headers give it. *)
Definition TPL_HIGH_LEVEL : Z := 31.

(** Modelled from the spec: EVT_TIMER is the header's capability flag of
    events that may be armed as timers (one bit of the 32-bit event type). *)
Definition EVT_TIMER : Z := 0x80000000.

(** Modelled from the spec: EVENT_SIGNATURE is the header's marker of a valid
    event structure, the four characters e, v, n, t packed in 32 bits. *)
Definition EVENT_SIGNATURE : Z := 0x746e7665.

(** Modelled from the spec: the enumeration EFI_TIMER_DELAY of the header has
    the three kinds Cancel, Periodic and Relative, in this order. *)
Definition TimerCancel : Z := 0.
Definition TimerPeriodic : Z := 1.
Definition TimerRelative : Z := 2.

Inductive EFI_STATUS : Set :=
| EFI_SUCCESS
| EFI_INVALID_PARAMETER.

(** ** Events and memory *)

Definition EFI_EVENT : Set := N.

Definition NULL : EFI_EVENT := 0%N.

Record IEVENT : Set := mkIEVENT {
  Signature : Z;
  Type_ : Z;
  TriggerTime : Z;          (* u.Timer.TriggerTime *)
  Period : Z;               (* u.Timer.Period *)
  Link_ForwardLink : bool   (* u.Timer.Link.ForwardLink != NULL *)
}.

Definition with_TriggerTime (v : Z) (e : IEVENT) : IEVENT :=
  mkIEVENT (Signature e) (Type_ e) v (Period e) (Link_ForwardLink e).

Definition with_Period (v : Z) (e : IEVENT) : IEVENT :=
  mkIEVENT (Signature e) (Type_ e) (TriggerTime e) v (Link_ForwardLink e).

Definition with_ForwardLink (v : bool) (e : IEVENT) : IEVENT :=
  mkIEVENT (Signature e) (Type_ e) (TriggerTime e) (Period e) v.

(** ** Locks and the two logs *)

Inductive EFI_LOCK : Set :=
| mEfiTimerLock
| mEfiSystemTimeLock.

(** The priority level each lock is initialised with
    (EFI_INITIALIZE_LOCK_VARIABLE). *)
Definition LockTpl (l : EFI_LOCK) : Z :=
  match l with
  | mEfiTimerLock => TPL_HIGH_LEVEL - 1
  | mEfiSystemTimeLock => TPL_HIGH_LEVEL
  end.

Inductive lock_op : Set :=
| Acquire (l : EFI_LOCK)
| Release (l : EFI_LOCK).

(** One call of CoreSignalEvent: on a timer event (with the deadline the
    event carries at the call), or on the file's private
    [mEfiCheckTimerEvent], which asks for a run of [CoreCheckTimers]. *)
Inductive signal : Set :=
| SigTimer (Event : EFI_EVENT) (Deadline : Z)
| SigCheckTimers.

Record state : Type := mkState {
  Memory : EFI_EVENT -> IEVENT;
  mEfiTimerList : list EFI_EVENT;
  mEfiSystemTime : Z;
  Signalled : list signal;      (* most recent call first *)
  LockTrace : list lock_op      (* most recent call first *)
}.

Definition alter_event (f : IEVENT -> IEVENT) (Event : EFI_EVENT) (st : state) : state :=
  mkState (<[Event := f (Memory st Event)]> (Memory st)) (mEfiTimerList st)
          (mEfiSystemTime st) (Signalled st) (LockTrace st).

Definition set_list (q : list EFI_EVENT) (st : state) : state :=
  mkState (Memory st) q (mEfiSystemTime st) (Signalled st) (LockTrace st).

Definition set_time (t : Z) (st : state) : state :=
  mkState (Memory st) (mEfiTimerList st) t (Signalled st) (LockTrace st).

Definition log_signal (s : signal) (st : state) : state :=
  mkState (Memory st) (mEfiTimerList st) (mEfiSystemTime st) (s :: Signalled st)
          (LockTrace st).

Definition log_lock (o : lock_op) (st : state) : state :=
  mkState (Memory st) (mEfiTimerList st) (mEfiSystemTime st) (Signalled st)
          (o :: LockTrace st).

Definition CoreAcquireLock (l : EFI_LOCK) : state -> state := log_lock (Acquire l).
Definition CoreReleaseLock (l : EFI_LOCK) : state -> state := log_lock (Release l).

(** CoreSignalEvent (Event) on a timer event. *)
Definition CoreSignalEvent (Event : EFI_EVENT) (st : state) : state :=
  log_signal (SigTimer Event (TriggerTime (Memory st Event))) st.

(** CoreSignalEvent (mEfiCheckTimerEvent). *)
Definition CoreSignalEvent_mEfiCheckTimerEvent : state -> state :=
  log_signal SigCheckTimers.

(** ** List primitives *)

(** RemoveEntryList: unlink one node. *)
Fixpoint unlink (Entry : EFI_EVENT) (q : list EFI_EVENT) : list EFI_EVENT :=
  match q with
  | [] => []
  | h :: t => if (h =? Entry)%N then t else h :: unlink Entry t
  end.

Definition RemoveEntryList (Entry : EFI_EVENT) (st : state) : state :=
  set_list (unlink Entry (mEfiTimerList st)) st.

(** The scan of CoreInsertEventTimer followed by InsertTailList (Link, ...):
    the entry goes in front of the first node whose deadline is greater, or
    at the tail when the scan reaches the list head again. *)
Fixpoint insert_scan (mem : EFI_EVENT -> IEVENT) (TriggerTime0 : Z)
    (Event : EFI_EVENT) (q : list EFI_EVENT) : list EFI_EVENT :=
  match q with
  | [] => [Event]
  | Event2 :: rest =>
      if TriggerTime (mem Event2) >? TriggerTime0 then Event :: Event2 :: rest
      else Event2 :: insert_scan mem TriggerTime0 Event rest
  end.

(** ** The functions of timer.c *)

Definition CoreCurrentSystemTime (st : state) : Z * state :=
  let st := CoreAcquireLock mEfiSystemTimeLock st in
  let SystemTime := mEfiSystemTime st in
  let st := CoreReleaseLock mEfiSystemTimeLock st in
  (SystemTime, st).

Definition CoreTimerTick (Duration : Z) (st : state) : state :=
  let st := CoreAcquireLock mEfiSystemTimeLock st in
  let st := set_time (wrap64 (mEfiSystemTime st + Duration)) st in
  let st :=
    match mEfiTimerList st with
    | [] => st
    | Event :: _ =>
        if TriggerTime (Memory st Event) <=? mEfiSystemTime st
        then CoreSignalEvent_mEfiCheckTimerEvent st
        else st
    end in
  CoreReleaseLock mEfiSystemTimeLock st.

(** The scan and the insertion.  ASSERT_LOCKED (&mEfiTimerLock) is a debug
    check with no effect on the state; both callers call this function
    between taking and releasing mEfiTimerLock. *)
Definition CoreInsertEventTimer (Event : EFI_EVENT) (st : state) : state :=
  let TriggerTime0 := TriggerTime (Memory st Event) in
  let st := set_list (insert_scan (Memory st) TriggerTime0 Event (mEfiTimerList st)) st in
  alter_event (with_ForwardLink true) Event st.

(** One iteration of the while loop of CoreCheckTimers; [None] when the loop
    is left (empty list, or the break). *)
Definition CoreCheckTimers_body (SystemTime : Z) (st : state) : option state :=
  match mEfiTimerList st with
  | [] => None
  | Event :: _ =>
      if TriggerTime (Memory st Event) >? SystemTime then None
      else
        let st := RemoveEntryList Event st in
        let st := alter_event (with_ForwardLink false) Event st in
        let st := CoreSignalEvent Event st in
        if negb (Period (Memory st Event) =? 0) then
          let st :=
            alter_event
              (with_TriggerTime
                 (wrap64 (TriggerTime (Memory st Event) + Period (Memory st Event))))
              Event st in
          let st :=
            if TriggerTime (Memory st Event) <=? SystemTime then
              CoreSignalEvent_mEfiCheckTimerEvent
                (alter_event (with_TriggerTime SystemTime) Event st)
            else st in
          Some (CoreInsertEventTimer Event st)
        else Some st
  end.

(** The while loop; [None] when [fuel] iterations were not enough. *)
Fixpoint CoreCheckTimers_loop (fuel : nat) (SystemTime : Z) (st : state) : option state :=
  match fuel with
  | O => None
  | S fuel' =>
      match CoreCheckTimers_body SystemTime st with
      | None => Some st
      | Some st' => CoreCheckTimers_loop fuel' SystemTime st'
      end
  end.

Definition CoreCheckTimers (fuel : nat) (st : state) : option state :=
  let st := CoreAcquireLock mEfiTimerLock st in
  let '(SystemTime, st) := CoreCurrentSystemTime st in
  match CoreCheckTimers_loop fuel SystemTime st with
  | Some st => Some (CoreReleaseLock mEfiTimerLock st)
  | None => None
  end.

(** The state after at most [n] iterations of the loop, whether or not the
    loop has been left by then. *)
Fixpoint check_iter (n : nat) (SystemTime : Z) (st : state) : state :=
  match n with
  | O => st
  | S n' =>
      match CoreCheckTimers_body SystemTime st with
      | None => st
      | Some st' => check_iter n' SystemTime st'
      end
  end.

Definition CoreSetTimer (UserEvent : EFI_EVENT) (Type0 : Z) (TriggerTime0 : Z)
    (st : state) : EFI_STATUS * state :=
  let Event := UserEvent in
  if (Event =? NULL)%N then (EFI_INVALID_PARAMETER, st)
  else if negb (Signature (Memory st Event) =? EVENT_SIGNATURE) then
    (EFI_INVALID_PARAMETER, st)
  else if (Type0 <? 0) || (Type0 >? TimerRelative)
          || (Z.land (Type_ (Memory st Event)) EVT_TIMER =? 0) then
    (EFI_INVALID_PARAMETER, st)
  else
    let st := CoreAcquireLock mEfiTimerLock st in
    let st :=
      if Link_ForwardLink (Memory st Event) then
        alter_event (with_ForwardLink false) Event (RemoveEntryList Event st)
      else st in
    let st := alter_event (with_TriggerTime 0) Event st in
    let st := alter_event (with_Period 0) Event st in
    let st :=
      if negb (Type0 =? TimerCancel) then
        let st :=
          if Type0 =? TimerPeriodic
          then alter_event (with_Period TriggerTime0) Event st
          else st in
        let '(SystemTime, st) := CoreCurrentSystemTime st in
        let st := alter_event (with_TriggerTime (wrap64 (SystemTime + TriggerTime0))) Event st in
        let st := CoreInsertEventTimer Event st in
        if TriggerTime0 =? 0 then CoreSignalEvent_mEfiCheckTimerEvent st else st
      else st in
    let st := CoreReleaseLock mEfiTimerLock st in
    (EFI_SUCCESS, st).

(** ** Observations *)

(** The deadline a periodic entry is linked again with (the re-arming lines
    of CoreCheckTimers): the old deadline plus the period in 64 bits, or the
    snapshot of the clock when that sum is not after the snapshot. *)
Definition rearm_deadline (SystemTime T P : Z) : Z :=
  if wrap64 (T + P) <=? SystemTime then SystemTime else wrap64 (T + P).

Definition trig (st : state) (h : EFI_EVENT) : Z := TriggerTime (Memory st h).
Definition per (st : state) (h : EFI_EVENT) : Z := Period (Memory st h).

(** The deadlines of the queue, head to tail. *)
Definition queue_deadlines (st : state) : list Z := trig st <$> mEfiTimerList st.

(** A fresh event of the given type, as CoreCreateEvent leaves it. *)
Definition fresh_event (ty : Z) : IEVENT := mkIEVENT EVENT_SIGNATURE ty 0 0 false.

(** Boot state over a memory in which addresses 1, 2, 3 hold timer events,
    address 4 holds an event without the timer capability and address 5
    holds something that is not an event. *)
Definition boot_memory : EFI_EVENT -> IEVENT :=
  fun h =>
    if (h =? 4)%N then fresh_event 0x200
    else if (h =? 5)%N then mkIEVENT 0 EVT_TIMER 0 0 false
    else fresh_event EVT_TIMER.

Definition boot : state := mkState boot_memory [] 0 [] [].

(** ** Invariants of the timer list *)

Definition by_deadline (mem : EFI_EVENT -> IEVENT) : relation EFI_EVENT :=
  fun a b => TriggerTime (mem a) <= TriggerTime (mem b).

(** No node is linked twice, every linked node has a non-NULL forward link,
    and deadlines never decrease from head to tail. *)
Definition qinv (mem : EFI_EVENT -> IEVENT) (q : list EFI_EVENT) : Prop :=
  NoDup q /\
  Forall (fun h => Link_ForwardLink (mem h) = true) q /\
  StronglySorted (by_deadline mem) q.

Definition queue_inv (st : state) : Prop := qinv (Memory st) (mEfiTimerList st).

(** The UINT64 fields hold UINT64 values. *)
Definition ranged (st : state) : Prop :=
  Forall (fun h => u64 (trig st h) /\ u64 (per st h)) (mEfiTimerList st) /\
  u64 (mEfiSystemTime st).

Definition WF (st : state) : Prop := queue_inv st /\ ranged st.

(** The static initialisers: an empty list and a clock at zero. *)
Definition initial (st : state) : Prop :=
  mEfiTimerList st = [] /\ mEfiSystemTime st = 0.

(** A handle CoreSetTimer accepts. *)
Definition timer_event (st : state) (e : EFI_EVENT) : Prop :=
  e <> NULL /\ Signature (Memory st e) = EVENT_SIGNATURE /\
  Z.land (Type_ (Memory st e)) EVT_TIMER <> 0.

Definition valid_kind (Type0 : Z) : Prop :=
  Type0 = TimerCancel \/ Type0 = TimerPeriodic \/ Type0 = TimerRelative.

(** No periodic entry of the list wraps around when re-armed at [now]. *)
Definition no_wrap (now : Z) (st : state) : Prop :=
  Forall (fun h => now + per st h < 2 ^ 64) (mEfiTimerList st).

(** ** Calls of the public entry points *)

Inductive call : Set :=
| SetTimer (UserEvent : EFI_EVENT) (Type0 : Z) (TriggerTime0 : Z)
| TimerTick (Duration : Z)
| CheckTimers (fuel : nat).

Definition exec (c : call) (st : state) : option state :=
  match c with
  | SetTimer e ty t => Some (snd (CoreSetTimer e ty t st))
  | TimerTick d => Some (CoreTimerTick d st)
  | CheckTimers fuel => CoreCheckTimers fuel st
  end.

Fixpoint run (cs : list call) (st : state) : option state :=
  match cs with
  | [] => Some st
  | c :: cs' =>
      match exec c st with
      | Some st' => run cs' st'
      | None => None
      end
  end.

Definition is_set_timer (c : call) : Prop :=
  match c with SetTimer _ _ _ => True | _ => False end.

(** Calls whose UINT64 argument is a UINT64. *)
Definition arg_ok (c : call) : Prop :=
  match c with
  | SetTimer _ _ t => u64 t
  | TimerTick d => u64 d
  | CheckTimers _ => True
  end.

(** Calls that leave the schedule of [e] alone. *)
Definition spares (e : EFI_EVENT) (c : call) : Prop :=
  match c with SetTimer e' _ _ => e' <> e | _ => True end.

Definition ticks (ds : list Z) (st : state) : state :=
  foldl (fun st d => CoreTimerTick d st) st ds.

Definition current_time (st : state) : Z := fst (CoreCurrentSystemTime st).

Definition sumZ (ds : list Z) : Z := foldr Z.add 0 ds.

(** The number of nodes of the timer list that are the event's. *)
Definition queue_entries (e : EFI_EVENT) (st : state) : nat :=
  count_occ N.eq_dec (mEfiTimerList st) e.

(** The state in which the loop of CoreCheckTimers starts: the list lock is
    held and the clock has been read. *)
Definition locked (st : state) : state :=
  snd (CoreCurrentSystemTime (CoreAcquireLock mEfiTimerLock st)).

(** How far behind the snapshot a deadline is: 2 when before it, 1 when
    equal to it, 0 when after it; and the total over the timer list, which
    bounds the iterations the loop of CoreCheckTimers still has to make. *)
Definition due_weight (now T : Z) : nat :=
  if T <? now then 2%nat else if T =? now then 1%nat else 0%nat.

Definition backlog (now : Z) (st : state) : nat :=
  sum_list_with (fun h => due_weight now (trig st h)) (mEfiTimerList st).

(** ** Reading the logs *)

#[global] Instance EFI_LOCK_eq_dec : EqDecision EFI_LOCK.
Proof. solve_decision. Defined.

#[global] Instance lock_op_eq_dec : EqDecision lock_op.
Proof. solve_decision. Defined.

#[global] Instance signal_eq_dec : EqDecision signal.
Proof. solve_decision. Defined.

Definition fire_of (s : signal) : option (EFI_EVENT * Z) :=
  match s with
  | SigTimer h d => Some (h, d)
  | SigCheckTimers => None
  end.

(** The timer signals of a log, each with its deadline. *)
Definition fires (log : list signal) : list (EFI_EVENT * Z) := omap fire_of log.

Definition fires_of (e : EFI_EVENT) (log : list signal) : list (EFI_EVENT * Z) :=
  filter (fun p => p.1 = e) (fires log).

Definition times_signalled (e : EFI_EVENT) (st : state) : nat :=
  length (fires_of e (Signalled st)).

(** The two states of a one-shot timer armed for the deadline [D], [past]
    being its signals before it was armed: still on the list and not
    signalled since, or off the list and signalled once since, for [D]. *)
Definition one_shot_state (e : EFI_EVENT) (D : Z) (past : list (EFI_EVENT * Z))
    (st : state) : Prop :=
  ((e ∈ mEfiTimerList st) /\ per st e = 0 /\ trig st e = D /\
   fires_of e (Signalled st) = past) \/
  ((e ∉ mEfiTimerList st) /\ fires_of e (Signalled st) = (e, D) :: past).

(** Replays lock operations, oldest first, against the stack of locks held:
    the timer-list lock may only be taken when nothing is held, the clock
    lock when it is not held itself, and a release must give back the lock
    taken last.  At the end nothing is held. *)
Fixpoint queue_first (held : list EFI_LOCK) (ops : list lock_op) : bool :=
  match ops with
  | [] => match held with [] => true | _ => false end
  | Acquire mEfiTimerLock :: ops' =>
      match held with
      | [] => queue_first [mEfiTimerLock] ops'
      | _ => false
      end
  | Acquire mEfiSystemTimeLock :: ops' =>
      if bool_decide (mEfiSystemTimeLock ∈ held) then false
      else queue_first (mEfiSystemTimeLock :: held) ops'
  | Release l :: ops' =>
      match held with
      | l' :: held' => if bool_decide (l = l') then queue_first held' ops' else false
      | [] => false
      end
  end.

(** The core's rule for raising the priority level: a lock may be taken
    only at a level not below the level of every lock already held. *)
Fixpoint tpl_raises (held : list EFI_LOCK) (ops : list lock_op) : bool :=
  match ops with
  | [] => true
  | Acquire l :: ops' =>
      forallb (fun l' => LockTpl l' <=? LockTpl l) held && tpl_raises (l :: held) ops'
  | Release l :: ops' =>
      match held with
      | _ :: held' => tpl_raises held' ops'
      | [] => false
      end
  end.

(** The scenario of two one-shot timers: A (address 1) armed for 100 units,
    then B (address 2) armed for 50. *)
Definition demo_calls : list call :=
  [SetTimer 1%N TimerRelative 100; SetTimer 2%N TimerRelative 50].

Definition demo_state : state :=
  snd (CoreSetTimer 2%N TimerRelative 50 (snd (CoreSetTimer 1%N TimerRelative 100 boot))).

(** A periodic timer (address 1, period 5) armed at time 0 and found 20
    units later. *)
Definition late_state : state :=
  CoreTimerTick 20 (snd (CoreSetTimer 1%N TimerPeriodic 5 boot)).

(** A periodic timer (address 1) armed at time 10 with the largest period a
    UINT64 holds. *)
Definition overdue_state : state :=
  snd (CoreSetTimer 1%N TimerPeriodic (2 ^ 64 - 1) (CoreTimerTick 10 boot)).

(** Every node of the timer list is an event CoreSetTimer accepts. *)
Definition linked_timers (st : state) : Prop :=
  Forall (timer_event st) (mEfiTimerList st).

(** What a call adds to the clock, and the time that has passed over a
    sequence of calls: the durations of its ticks, added up exactly. *)
Definition duration (c : call) : Z :=
  match c with TimerTick d => d | _ => 0 end.

Definition elapsed (cs : list call) : Z := sumZ (duration <$> cs).

(** A one-shot timer (address 1) armed at time 10 with the largest delay a
    UINT64 holds. *)
Definition early_state : state :=
  snd (CoreSetTimer 1%N TimerRelative (2 ^ 64 - 1) (CoreTimerTick 10 boot)).

(** A one-shot timer (address 1) armed at time 0 for 100 units, and the two
    ticks after which the clock has gone round once. *)
Definition armed_state : state := snd (CoreSetTimer 1%N TimerRelative 100 boot).

Definition round_ticks : list call := [TimerTick (2 ^ 64 - 1); TimerTick 1].

Definition round_state : state :=
  CoreTimerTick 1 (CoreTimerTick (2 ^ 64 - 1) armed_state).

(** * Properties *)

Arguments wrap64 : simpl never.

Ltac prims_cbn :=
  cbn [Memory mEfiTimerList mEfiSystemTime Signalled LockTrace
       Signature Type_ TriggerTime Period Link_ForwardLink fst snd negb
       CoreInsertEventTimer CoreSignalEvent CoreSignalEvent_mEfiCheckTimerEvent
       RemoveEntryList CoreCurrentSystemTime CoreAcquireLock CoreReleaseLock
       alter_event set_list set_time log_signal log_lock
       with_TriggerTime with_Period with_ForwardLink].

Ltac prims :=
  unfold trig, per in *;
  repeat (prims_cbn; progress rewrite fn_lookup_insert);
  prims_cbn.

Example scenario_order :
  let st := snd (CoreSetTimer 1%N TimerRelative 100 boot) in
  let st := snd (CoreSetTimer 2%N TimerRelative 50 st) in
  mEfiTimerList st = [2; 1]%N /\ queue_deadlines st = [50; 100].
Proof. split; reflexivity. Qed.

(** After 60 units B is signalled and A stays with its deadline; after 41
    more A is signalled and the list is empty. *)
Example scenario_fires :
  exists st1 st2,
    CoreCheckTimers 5 (CoreTimerTick 60 demo_state) = Some st1 /\
    fires (Signalled st1) = [(2%N, 50)] /\
    mEfiTimerList st1 = [1%N] /\ queue_deadlines st1 = [100] /\
    CoreCheckTimers 5 (CoreTimerTick 41 st1) = Some st2 /\
    fires (Signalled st2) = [(1%N, 100); (2%N, 50)] /\
    mEfiTimerList st2 = [].
Proof.
  eexists _, _. split; [vm_compute; reflexivity|]. split; [vm_compute; reflexivity|].
  split; [vm_compute; reflexivity|]. split; [vm_compute; reflexivity|].
  split; [vm_compute; reflexivity|]. split; vm_compute; reflexivity.
Qed.

(** A periodic entry found late is signalled twice in one pass, for its old
    deadline and for the snapshot, and is then due one period after the
    snapshot. *)
Example late_pass :
  exists st1,
    CoreCheckTimers 5 late_state = Some st1 /\
    fires (Signalled st1) = [(1%N, 20); (1%N, 5)] /\
    queue_deadlines st1 = [25].
Proof.
  eexists. split; [vm_compute; reflexivity|]. split; vm_compute; reflexivity.
Qed.

(** ** The list primitives *)

Section ListPrimitives.
Implicit Types (q : list EFI_EVENT) (e x : EFI_EVENT) (mem : EFI_EVENT -> IEVENT).

Lemma unlink_elem_of e x q : x ∈ unlink e q -> x ∈ q.
Proof.
  induction q as [|h t IH]; simpl; [done|].
  destruct (N.eqb_spec h e); set_solver.
Qed.

Lemma unlink_other e x q : x <> e -> x ∈ q -> x ∈ unlink e q.
Proof.
  intros Hne. induction q as [|h t IH]; simpl; [done|].
  destruct (N.eqb_spec h e); set_solver.
Qed.

Lemma unlink_NoDup e q : NoDup q -> NoDup (unlink e q).
Proof.
  induction 1 as [|h t Hh Ht IH]; simpl; [constructor|].
  destruct (N.eqb_spec h e); [done|].
  constructor; [|done]. intros Hin. by apply Hh, (unlink_elem_of e).
Qed.

Lemma unlink_gone e q : NoDup q -> e ∉ unlink e q.
Proof.
  induction 1 as [|h t Hh Ht IH]; simpl; [set_solver|].
  destruct (N.eqb_spec h e); [by subst|]. set_solver.
Qed.

Lemma unlink_absent e q : e ∉ q -> unlink e q = q.
Proof.
  induction q as [|h t IH]; simpl; [done|]. intros Hin.
  destruct (N.eqb_spec h e); [set_solver|]. f_equal. apply IH. set_solver.
Qed.

Lemma unlink_Forall (P : EFI_EVENT -> Prop) e q : Forall P q -> Forall P (unlink e q).
Proof.
  intros H. apply Forall_forall. intros x Hx%unlink_elem_of.
  by eapply Forall_forall in H.
Qed.

Lemma unlink_sorted (R : relation EFI_EVENT) e q :
  StronglySorted R q -> StronglySorted R (unlink e q).
Proof.
  induction 1 as [|h t Ht IH Hh]; simpl; [constructor|].
  destruct (N.eqb_spec h e); [done|]. constructor; [done|].
  by apply unlink_Forall.
Qed.

Lemma insert_scan_elem_of mem T e x q :
  x ∈ insert_scan mem T e q <-> x = e \/ x ∈ q.
Proof.
  induction q as [|h t IH]; simpl; [set_solver|].
  destruct (TriggerTime (mem h) >? T); set_solver.
Qed.

Lemma insert_scan_NoDup mem T e q :
  e ∉ q -> NoDup q -> NoDup (insert_scan mem T e q).
Proof.
  intros He Hq. induction Hq as [|h t Hh Ht IH]; simpl.
  - apply NoDup_singleton.
  - destruct (TriggerTime (mem h) >? T).
    + constructor; [done|]. by constructor.
    + constructor; [|apply IH; set_solver].
      rewrite insert_scan_elem_of. set_solver.
Qed.

(** The scan only reads the deadlines of the nodes already linked. *)
Lemma insert_scan_ext mem mem' T e q :
  (forall x, x ∈ q -> TriggerTime (mem' x) = TriggerTime (mem x)) ->
  insert_scan mem' T e q = insert_scan mem T e q.
Proof.
  induction q as [|h t IH]; simpl; [done|]. intros Hagree.
  rewrite (Hagree h) by set_solver.
  destruct (TriggerTime (mem h) >? T); [done|]. f_equal. apply IH.
  intros x Hx. apply Hagree. set_solver.
Qed.

(** Where the scan puts the entry: behind a prefix of deadlines not after
    its own, in front of a node with a later deadline (or at the tail). *)
Lemma insert_scan_split mem T e q :
  exists l1 l2,
    q = l1 ++ l2 /\ insert_scan mem T e q = l1 ++ e :: l2 /\
    Forall (fun h => TriggerTime (mem h) <= T) l1 /\
    match l2 with [] => True | h :: _ => T < TriggerTime (mem h) end.
Proof.
  induction q as [|h t IH]; simpl.
  - by exists [], [].
  - destruct (Z.gtb_spec (TriggerTime (mem h)) T) as [Hgt|Hle].
    + exists [], (h :: t). repeat split; [constructor|lia].
    + destruct IH as (l1 & l2 & -> & -> & Hl1 & Hl2).
      exists (h :: l1), l2. repeat split; [by constructor|done].
Qed.

Lemma insert_scan_prefix mem T e l1 l2 :
  Forall (fun h => TriggerTime (mem h) <= T) l1 ->
  insert_scan mem T e (l1 ++ l2) = l1 ++ insert_scan mem T e l2.
Proof.
  induction 1 as [|h t Hh Ht IH]; simpl; [done|].
  destruct (Z.gtb_spec (TriggerTime (mem h)) T); [lia|]. by rewrite IH.
Qed.

Lemma insert_scan_sorted mem e q :
  StronglySorted (by_deadline mem) q ->
  StronglySorted (by_deadline mem) (insert_scan mem (TriggerTime (mem e)) e q).
Proof.
  induction 1 as [|h t Ht IH Hh]; simpl.
  - repeat constructor.
  - destruct (Z.gtb_spec (TriggerTime (mem h)) (TriggerTime (mem e))) as [Hgt|Hle].
    + constructor; [by constructor|]. constructor; [unfold by_deadline; lia|].
      eapply Forall_impl; [exact Hh|]. unfold by_deadline. intros; simpl in *; lia.
    + constructor; [done|]. apply Forall_forall. intros x Hx.
      apply insert_scan_elem_of in Hx as [->|Hx]; [done|].
      by eapply Forall_forall in Hh.
Qed.

Lemma qinv_ext mem mem' q :
  (forall x, x ∈ q -> mem' x = mem x) -> qinv mem q -> qinv mem' q.
Proof.
  intros Hagree (Hnd & Hl & Hs). split; [done|]. split.
  - apply Forall_forall. intros x Hx. rewrite Hagree by done.
    by eapply Forall_forall in Hl.
  - clear Hnd Hl. induction Hs as [|h t Ht IH Hh]; [constructor|].
    constructor; [apply IH; intros; apply Hagree; set_solver|].
    apply Forall_forall. intros x Hx. unfold by_deadline.
    rewrite !Hagree by set_solver. by eapply Forall_forall in Hh.
Qed.

Lemma qinv_unlink mem q e : qinv mem q -> qinv mem (unlink e q).
Proof.
  intros (Hnd & Hl & Hs). split; [by apply unlink_NoDup|]. split.
  - by apply unlink_Forall.
  - by apply unlink_sorted.
Qed.

(** The entry linked by InsertTailList has a non-NULL forward link. *)
Lemma qinv_insert mem q e :
  e ∉ q -> Link_ForwardLink (mem e) = true -> qinv mem q ->
  qinv mem (insert_scan mem (TriggerTime (mem e)) e q).
Proof.
  intros He Hl (Hnd & Hq & Hs).
  split; [by apply insert_scan_NoDup|]. split; [|by apply insert_scan_sorted].
  apply Forall_forall. intros x [->|Hx]%insert_scan_elem_of; [done|].
  by eapply Forall_forall in Hq.
Qed.

End ListPrimitives.

(** ** One iteration of the loop of CoreCheckTimers *)

Lemma body_idle now st :
  CoreCheckTimers_body now st = None <->
  mEfiTimerList st = [] \/
  exists h t, mEfiTimerList st = h :: t /\ now < trig st h.
Proof.
  unfold CoreCheckTimers_body, trig. destruct (mEfiTimerList st) as [|h t].
  - split; [by left|done].
  - destruct (Z.gtb_spec (TriggerTime (Memory st h)) now) as [Hgt|Hle].
    + split; [right; exists h, t; split; [done|lia]|done].
    + split; [by destruct (negb _)|].
      intros [?|(h' & t' & [= <- <-] & ?)]; [done|lia].
  Qed.

(** What one iteration does to an expired head. *)
Lemma body_expired now st h t :
  mEfiTimerList st = h :: t -> trig st h <= now ->
  exists st',
    CoreCheckTimers_body now st = Some st' /\
    mEfiSystemTime st' = mEfiSystemTime st /\
    LockTrace st' = LockTrace st /\
    (forall x, x <> h -> Memory st' x = Memory st x) /\
    Signature (Memory st' h) = Signature (Memory st h) /\
    Type_ (Memory st' h) = Type_ (Memory st h) /\
    per st' h = per st h /\
    (if per st h =? 0 then
       trig st' h = trig st h /\
       Link_ForwardLink (Memory st' h) = false /\
       mEfiTimerList st' = t /\
       Signalled st' = SigTimer h (trig st h) :: Signalled st
     else
       trig st' h = rearm_deadline now (trig st h) (per st h) /\
       Link_ForwardLink (Memory st' h) = true /\
       mEfiTimerList st' = insert_scan (Memory st') (trig st' h) h t /\
       Signalled st' =
         (if wrap64 (trig st h + per st h) <=? now then [SigCheckTimers] else [])
         ++ SigTimer h (trig st h) :: Signalled st).
Proof.
  intros Hq Hle. unfold CoreCheckTimers_body, rearm_deadline. rewrite Hq.
  unfold trig in Hle.
  destruct (Z.gtb_spec (TriggerTime (Memory st h)) now); [lia|].
  prims.
  destruct (Z.eqb_spec (Period (Memory st h)) 0); cbn [negb].
  - eexists. split; [done|]. prims. rewrite Hq. cbn [unlink]. rewrite N.eqb_refl.
    repeat split; try done. intros x Hx. by rewrite fn_lookup_insert_ne.
  - destruct (Z.leb_spec (wrap64 (TriggerTime (Memory st h) + Period (Memory st h))) now);
      (eexists; split; [done|]); prims; rewrite Hq; cbn [unlink]; rewrite N.eqb_refl;
      (repeat split; try done;
       [ by intros x Hx; rewrite !fn_lookup_insert_ne
       | apply insert_scan_ext; intros x Hx;
         destruct (decide (x = h)) as [->|Hne];
         [by rewrite !fn_lookup_insert | by rewrite !(fn_lookup_insert_ne _ h x)] ]).
Qed.

(** ** CoreSetTimer *)

(** The three guards, and what the function does past them. *)
Lemma CoreSetTimer_cases e ty t st s st' :
  CoreSetTimer e ty t st = (s, st') ->
  (s = EFI_INVALID_PARAMETER /\ st' = st /\
   (e = NULL \/ Signature (Memory st e) <> EVENT_SIGNATURE \/
    ~ valid_kind ty \/ Z.land (Type_ (Memory st e)) EVT_TIMER = 0))
  \/
  (s = EFI_SUCCESS /\
   timer_event st e /\ valid_kind ty /\
   mEfiSystemTime st' = mEfiSystemTime st /\
   (forall x, x <> e -> Memory st' x = Memory st x) /\
   Signature (Memory st' e) = Signature (Memory st e) /\
   Type_ (Memory st' e) = Type_ (Memory st e) /\
   let q0 := if Link_ForwardLink (Memory st e)
             then unlink e (mEfiTimerList st) else mEfiTimerList st in
   if ty =? TimerCancel then
     trig st' e = 0 /\ per st' e = 0 /\
     Link_ForwardLink (Memory st' e) = false /\
     mEfiTimerList st' = q0 /\
     Signalled st' = Signalled st /\
     LockTrace st' =
       [Release mEfiTimerLock; Acquire mEfiTimerLock] ++ LockTrace st
   else
     trig st' e = wrap64 (mEfiSystemTime st + t) /\
     per st' e = (if ty =? TimerPeriodic then t else 0) /\
     Link_ForwardLink (Memory st' e) = true /\
     mEfiTimerList st' = insert_scan (Memory st') (trig st' e) e q0 /\
     Signalled st' = (if t =? 0 then [SigCheckTimers] else []) ++ Signalled st /\
     LockTrace st' =
       [Release mEfiTimerLock; Release mEfiSystemTimeLock;
        Acquire mEfiSystemTimeLock; Acquire mEfiTimerLock] ++ LockTrace st).
Proof.
  unfold CoreSetTimer, timer_event, valid_kind, TimerCancel, TimerPeriodic,
    TimerRelative.
  destruct (N.eqb_spec e NULL) as [->|Hnull].
  { intros [= <- <-]. left. naive_solver. }
  destruct (Z.eqb_spec (Signature (Memory st e)) EVENT_SIGNATURE) as [Hsig|Hsig];
    cbn [negb]; [|intros [= <- <-]; left; naive_solver].
  destruct (Z.ltb_spec ty 0); cbn [orb].
  { intros [= <- <-]. left. do 2 (split; [done|]). right. right. left. lia. }
  destruct (Z.gtb_spec ty 2); cbn [orb].
  { intros [= <- <-]. left. do 2 (split; [done|]). right. right. left. lia. }
  destruct (Z.eqb_spec (Z.land (Type_ (Memory st e)) EVT_TIMER) 0) as [Hty|Hty].
  { intros [= <- <-]. left. naive_solver. }
  intros Heq. right. split; [congruence|].
  split; [done|]. split; [lia|].
  assert (Hext : forall (m m' : EFI_EVENT -> IEVENT) T q,
    (forall x, TriggerTime (m' x) = TriggerTime (m x)) ->
    insert_scan m T e q = insert_scan m' T e q).
  { intros m m' T q Hm. symmetry. by apply insert_scan_ext. }
  revert Heq.
  destruct (Z.eqb_spec ty 0) as [->|Hc]; cbn [negb Z.eqb].
  - destruct (Link_ForwardLink (Memory st e)) eqn:Hl; prims; rewrite ?Hl;
      intros [= _ <-]; prims;
      (repeat split; try done; by intros x Hx; rewrite !fn_lookup_insert_ne).
  - destruct (Z.eqb_spec ty 1) as [->|Hp];
      destruct (Link_ForwardLink (Memory st e)) eqn:Hl;
      destruct (Z.eqb_spec t 0) as [->|Ht]; prims; rewrite ?Hl;
      intros [= _ <-]; prims;
      (repeat split; try done;
       [ by intros x Hx; rewrite !fn_lookup_insert_ne
       | apply Hext; intros x; destruct (decide (x = e)) as [->|Hne];
         [by rewrite !fn_lookup_insert | by rewrite !(fn_lookup_insert_ne _ e x)] ]).
Qed.

(** ** The invariants are kept *)

Lemma wrap64_u64 x : u64 (wrap64 x).
Proof. unfold u64, wrap64. apply Z.mod_pos_bound. lia. Qed.

Lemma wrap64_small x : u64 x -> wrap64 x = x.
Proof. unfold u64, wrap64. intros. by apply Z.mod_small. Qed.

Lemma rearm_deadline_u64 now T P : u64 now -> u64 (rearm_deadline now T P).
Proof.
  intros. unfold rearm_deadline. destruct (_ <=? _); [done|apply wrap64_u64].
Qed.

(** A re-armed entry is never due before the snapshot. *)
Lemma rearm_deadline_ge now T P : now <= rearm_deadline now T P.
Proof. unfold rearm_deadline. destruct (Z.leb_spec (wrap64 (T + P)) now); lia. Qed.

Lemma body_Some now st st' :
  CoreCheckTimers_body now st = Some st' ->
  exists h t, mEfiTimerList st = h :: t /\ trig st h <= now.
Proof.
  intros Hb. destruct (mEfiTimerList st) as [|h t] eqn:Hq.
  - assert (CoreCheckTimers_body now st = None) by (apply body_idle; by left).
    congruence.
  - exists h, t. split; [done|]. destruct (Z.le_gt_cases (trig st h) now); [done|].
    assert (CoreCheckTimers_body now st = None)
      by (apply body_idle; right; by exists h, t).
    congruence.
Qed.

Lemma qinv_tail mem h t : qinv mem (h :: t) -> (h ∉ t) /\ qinv mem t.
Proof.
  intros (Hnd & Hl & Hs). apply NoDup_cons in Hnd as [? ?].
  apply Forall_cons in Hl as [? ?]. apply StronglySorted_inv in Hs as [? ?].
  by repeat split.
Qed.

Lemma body_queue_inv now st st' :
  queue_inv st -> CoreCheckTimers_body now st = Some st' -> queue_inv st'.
Proof.
  intros Hinv Hb. destruct (body_Some _ _ _ Hb) as (h & t & Hq & Hle).
  destruct (body_expired now st h t Hq Hle)
    as (st2 & Hb2 & _ & _ & Hmem & _ & _ & _ & Hcase).
  assert (st2 = st') as -> by congruence.
  unfold queue_inv in *. rewrite Hq in Hinv.
  apply qinv_tail in Hinv as [Hh Ht].
  assert (Ht' : qinv (Memory st') t).
  { eapply qinv_ext; [|exact Ht]. intros x Hx. apply Hmem. set_solver. }
  destruct (per st h =? 0).
  - destruct Hcase as (_ & _ & -> & _). done.
  - destruct Hcase as (_ & Hl & -> & _). by apply qinv_insert.
Qed.

Lemma body_ranged now st st' :
  u64 now -> ranged st -> CoreCheckTimers_body now st = Some st' -> ranged st'.
Proof.
  intros Hnow [Hr Htime] Hb. destruct (body_Some _ _ _ Hb) as (h & t & Hq & Hle).
  destruct (body_expired now st h t Hq Hle)
    as (st2 & Hb2 & Hti & _ & Hmem & _ & _ & Hper & Hcase).
  assert (st2 = st') as -> by congruence.
  split; [|by rewrite Hti]. rewrite Hq in Hr. apply Forall_cons in Hr as [[Hth Hph] Hr].
  assert (Hold : forall x, x ∈ t -> u64 (trig st' x) /\ u64 (per st' x)).
  { intros x Hx. destruct (decide (x = h)) as [->|Hne].
    - rewrite Hper. split; [|done]. destruct (per st h =? 0).
      + destruct Hcase as (-> & _). done.
      + destruct Hcase as (-> & _). by apply rearm_deadline_u64.
    - unfold trig, per. rewrite Hmem by done. by eapply Forall_forall in Hr. }
  apply Forall_forall. intros x Hx. destruct (Z.eqb_spec (per st h) 0) as [Hz|Hnz].
  - destruct Hcase as (_ & _ & Hq' & _). rewrite Hq' in Hx. by apply Hold.
  - destruct Hcase as (Ht' & _ & Hq' & _). rewrite Hq' in Hx.
    apply insert_scan_elem_of in Hx as [->|Hx]; [|by apply Hold].
    rewrite Hper, Ht'. split; [by apply rearm_deadline_u64|done].
Qed.

Lemma body_WF now st st' :
  u64 now -> WF st -> CoreCheckTimers_body now st = Some st' -> WF st'.
Proof. intros ? [? ?] ?. split; eauto using body_queue_inv, body_ranged. Qed.

Lemma check_iter_WF n now st : u64 now -> WF st -> WF (check_iter n now st).
Proof.
  intros Hnow. revert st. induction n as [|n IH]; intros st Hst; simpl; [done|].
  destruct (CoreCheckTimers_body now st) as [st'|] eqn:Hb; [|done].
  eapply IH, body_WF; eauto.
Qed.

Lemma check_iter_queue_inv n now st : queue_inv st -> queue_inv (check_iter n now st).
Proof.
  revert st. induction n as [|n IH]; intros st Hst; simpl; [done|].
  destruct (CoreCheckTimers_body now st) as [st'|] eqn:Hb; [|done].
  eapply IH, body_queue_inv; eauto.
Qed.

(** The list the entry is linked into by CoreSetTimer does not hold it. *)
Lemma disarmed_queue mem q e :
  qinv mem q ->
  let q0 := if Link_ForwardLink (mem e) then unlink e q else q in
  (e ∉ q0) /\ qinv mem q0.
Proof.
  intros Hq. destruct (Link_ForwardLink (mem e)) eqn:Hl; simpl.
  - split; [apply unlink_gone, Hq|by apply qinv_unlink].
  - split; [|done]. intros Hin. destruct Hq as (_ & Hf & _).
    eapply Forall_forall in Hf; [|done]. congruence.
Qed.

Lemma CoreSetTimer_queue_inv e ty t st :
  queue_inv st -> queue_inv (snd (CoreSetTimer e ty t st)).
Proof.
  intros Hinv. destruct (CoreSetTimer e ty t st) as [s st'] eqn:Heq.
  apply CoreSetTimer_cases in Heq
    as [(_ & -> & _)|(_ & _ & _ & _ & Hmem & _ & _ & Hcase)]; [done|].
  simpl. unfold queue_inv in *.
  destruct (disarmed_queue _ _ e Hinv) as [He Hq0]. cbn zeta in *.
  set (q0 := if Link_ForwardLink (Memory st e) then _ else _) in *.
  assert (Hq0' : qinv (Memory st') q0).
  { eapply qinv_ext; [|exact Hq0]. intros x Hx. apply Hmem. set_solver. }
  destruct (ty =? TimerCancel).
  - destruct Hcase as (_ & _ & _ & -> & _). done.
  - destruct Hcase as (_ & _ & Hl & -> & _). by apply qinv_insert.
Qed.

Lemma CoreSetTimer_ranged e ty t st :
  u64 t -> WF st -> ranged (snd (CoreSetTimer e ty t st)).
Proof.
  intros Ht [Hinv [Hr Htime]]. destruct (CoreSetTimer e ty t st) as [s st'] eqn:Heq.
  apply CoreSetTimer_cases in Heq
    as [(_ & -> & _)|(_ & _ & _ & Hti & Hmem & _ & _ & Hcase)]; [done|].
  simpl. split; [|by rewrite Hti].
  destruct (disarmed_queue _ _ e Hinv) as [He Hq0]. cbn zeta in *.
  set (q0 := if Link_ForwardLink (Memory st e) then _ else _) in *.
  assert (Hold : forall x, x ∈ q0 -> u64 (trig st' x) /\ u64 (per st' x)).
  { intros x Hx. unfold trig, per. rewrite Hmem by set_solver.
    eapply Forall_forall in Hr; [exact Hr|].
    unfold q0 in Hx. destruct (Link_ForwardLink _); [by eapply unlink_elem_of|done]. }
  apply Forall_forall. intros x Hx. destruct (ty =? TimerCancel).
  - destruct Hcase as (_ & _ & _ & Hq' & _). rewrite Hq' in Hx. by apply Hold.
  - destruct Hcase as (Htr & Hpe & _ & Hq' & _). rewrite Hq' in Hx.
    apply insert_scan_elem_of in Hx as [->|Hx]; [|by apply Hold].
    rewrite Htr, Hpe. split; [apply wrap64_u64|].
    destruct (ty =? TimerPeriodic); [done|]. unfold u64; lia.
Qed.

Lemma CoreSetTimer_WF e ty t st : u64 t -> WF st -> WF (snd (CoreSetTimer e ty t st)).
Proof.
  intros ? Hst. split; [apply CoreSetTimer_queue_inv, Hst|by apply CoreSetTimer_ranged].
Qed.

Lemma CoreTimerTick_fields d st :
  Memory (CoreTimerTick d st) = Memory st /\
  mEfiTimerList (CoreTimerTick d st) = mEfiTimerList st /\
  mEfiSystemTime (CoreTimerTick d st) = wrap64 (mEfiSystemTime st + d) /\
  fires (Signalled (CoreTimerTick d st)) = fires (Signalled st) /\
  LockTrace (CoreTimerTick d st) =
    [Release mEfiSystemTimeLock; Acquire mEfiSystemTimeLock] ++ LockTrace st.
Proof.
  unfold CoreTimerTick. prims.
  destruct (mEfiTimerList st) as [|h t] eqn:Hq; [|destruct (_ <=? _)];
    prims; rewrite ?Hq; done.
Qed.

Lemma CoreTimerTick_WF d st : WF st -> WF (CoreTimerTick d st).
Proof.
  destruct (CoreTimerTick_fields d st) as (Hm & Hq & Ht & _).
  unfold WF, queue_inv, ranged, trig, per. rewrite Hm, Hq, Ht.
  intros [? [? ?]]. split; [done|]. split; [done|apply wrap64_u64].
Qed.

Lemma CoreTimerTick_queue_inv d st : queue_inv st -> queue_inv (CoreTimerTick d st).
Proof.
  destruct (CoreTimerTick_fields d st) as (Hm & Hq & _).
  unfold queue_inv. by rewrite Hm, Hq.
Qed.

(** ** The loop and the whole of CoreCheckTimers *)

Lemma loop_iter fuel now st st' :
  CoreCheckTimers_loop fuel now st = Some st' ->
  st' = check_iter fuel now st /\ CoreCheckTimers_body now st' = None.
Proof.
  revert st. induction fuel as [|fuel IH]; intros st; simpl; [done|].
  destruct (CoreCheckTimers_body now st) as [st1|] eqn:Hb; [by apply IH|].
  by intros [= <-].
Qed.

Lemma check_iter_add a b now st :
  check_iter (a + b) now st = check_iter b now (check_iter a now st).
Proof.
  revert st. induction a as [|a IH]; intros st; simpl; [done|].
  destruct (CoreCheckTimers_body now st) as [st1|] eqn:Hb; [by apply IH|].
  destruct b; simpl; [done|]. by rewrite Hb.
Qed.

Lemma check_iter_idle n now st :
  CoreCheckTimers_body now st = None -> check_iter n now st = st.
Proof. intros Hb. destruct n; simpl; [done|]. by rewrite Hb. Qed.

Lemma check_iter_time n now st :
  mEfiSystemTime (check_iter n now st) = mEfiSystemTime st /\
  LockTrace (check_iter n now st) = LockTrace st.
Proof.
  revert st. induction n as [|n IH]; intros st; simpl; [done|].
  destruct (CoreCheckTimers_body now st) as [st1|] eqn:Hb; [|done].
  destruct (body_Some _ _ _ Hb) as (h & t & Hq & Hle).
  destruct (body_expired now st h t Hq Hle) as (st2 & Hb2 & Hti & Hlk & _).
  assert (st2 = st1) as -> by congruence.
  destruct (IH st1) as [-> ->]. done.
Qed.

Lemma locked_WF st : WF st <-> WF (locked st).
Proof. done. Qed.

Lemma locked_queue_inv st : queue_inv st <-> queue_inv (locked st).
Proof. done. Qed.

(** A run of CoreCheckTimers that returns: the loop ran on the single
    snapshot of the clock, was left, and the list lock was released. *)
Lemma CoreCheckTimers_Some fuel st st' :
  CoreCheckTimers fuel st = Some st' ->
  let st2 := check_iter fuel (mEfiSystemTime st) (locked st) in
  CoreCheckTimers_body (mEfiSystemTime st) st2 = None /\
  st' = CoreReleaseLock mEfiTimerLock st2.
Proof.
  unfold CoreCheckTimers. change (CoreCurrentSystemTime _) with (mEfiSystemTime st, locked st).
  cbn iota beta.
  destruct (CoreCheckTimers_loop fuel _ _) as [st2|] eqn:Hl; [|done].
  intros [= <-]. apply loop_iter in Hl as [-> ?]. done.
Qed.

Lemma CoreCheckTimers_WF fuel st st' :
  WF st -> CoreCheckTimers fuel st = Some st' -> WF st'.
Proof.
  intros Hst [_ ->]%CoreCheckTimers_Some.
  change (WF (check_iter fuel (mEfiSystemTime st) (locked st))).
  apply check_iter_WF; [apply Hst|by apply locked_WF].
Qed.

Lemma CoreCheckTimers_queue_inv fuel st st' :
  queue_inv st -> CoreCheckTimers fuel st = Some st' -> queue_inv st'.
Proof.
  intros Hst [_ ->]%CoreCheckTimers_Some.
  change (queue_inv (check_iter fuel (mEfiSystemTime st) (locked st))).
  by apply check_iter_queue_inv, locked_queue_inv.
Qed.

Lemma exec_queue_inv c st st' : queue_inv st -> exec c st = Some st' -> queue_inv st'.
Proof.
  intros Hst. destruct c as [e ty t|d|fuel]; simpl.
  - intros [= <-]. by apply CoreSetTimer_queue_inv.
  - intros [= <-]. by apply CoreTimerTick_queue_inv.
  - by apply CoreCheckTimers_queue_inv.
Qed.

Lemma run_queue_inv cs st st' : queue_inv st -> run cs st = Some st' -> queue_inv st'.
Proof.
  revert st. induction cs as [|c cs IH]; intros st Hst; simpl.
  - by intros [= <-].
  - destruct (exec c st) as [st1|] eqn:He; [|done].
    eapply IH, exec_queue_inv; eauto.
Qed.

Lemma exec_WF c st st' : arg_ok c -> WF st -> exec c st = Some st' -> WF st'.
Proof.
  intros Hc Hst. destruct c as [e ty t|d|fuel]; simpl in *.
  - intros [= <-]. by apply CoreSetTimer_WF.
  - intros [= <-]. by apply CoreTimerTick_WF.
  - by apply CoreCheckTimers_WF.
Qed.

(** [WF] holds of every state the entry points return to. *)
Lemma run_WF cs st st' : Forall arg_ok cs -> WF st -> run cs st = Some st' -> WF st'.
Proof.
  intros Hcs. revert st. induction Hcs as [|c cs Hc Hcs IH]; intros st Hst; simpl.
  - by intros [= <-].
  - destruct (exec c st) as [st1|] eqn:He; [|done].
    eapply IH, exec_WF; eauto.
Qed.

Lemma initial_WF st : initial st -> WF st.
Proof.
  intros [Hq Ht]. unfold WF, queue_inv, qinv, ranged, u64. rewrite Hq, Ht.
  repeat split; try constructor; lia.
Qed.

Lemma run_set_timers cs st : Forall is_set_timer cs -> is_Some (run cs st).
Proof.
  intros Hcs. revert st. induction Hcs as [|c cs Hc Hcs IH]; intros st; simpl; [done|].
  destruct c; try done. simpl. apply IH.
Qed.

Lemma queue_inv_sorted st : queue_inv st -> Sorted Z.le (queue_deadlines st).
Proof.
  intros (_ & _ & Hs). apply StronglySorted_Sorted.
  unfold queue_deadlines. eapply StronglySorted_fmap; [|exact Hs]. done.
Qed.

Lemma insert_scan_split_sorted mem T e q :
  StronglySorted (by_deadline mem) q ->
  exists l1 l2,
    q = l1 ++ l2 /\ insert_scan mem T e q = l1 ++ e :: l2 /\
    Forall (fun h => TriggerTime (mem h) <= T) l1 /\
    Forall (fun h => T < TriggerTime (mem h)) l2.
Proof.
  intros Hs. destruct (insert_scan_split mem T e q) as (l1 & l2 & -> & Hi & Hl1 & Hl2).
  exists l1, l2. repeat split; try done.
  apply StronglySorted_app_1_r in Hs. destruct l2 as [|h l2]; [constructor|].
  apply StronglySorted_inv in Hs as [_ Hh]. constructor; [done|].
  eapply Forall_impl; [exact Hh|]. unfold by_deadline. intros; simpl in *; lia.
Qed.

Lemma queue_entries_le st : queue_inv st -> forall x, (queue_entries x st <= 1)%nat.
Proof. intros (Hnd & _). by apply (NoDup_count_occ N.eq_dec), NoDup_ListNoDup. Qed.

Lemma queue_entries_one st e :
  queue_inv st -> e ∈ mEfiTimerList st -> queue_entries e st = 1%nat.
Proof.
  intros (Hnd & _) Hin. apply NoDup_ListNoDup in Hnd.
  apply (NoDup_count_occ' N.eq_dec); [done|by apply list_elem_of_In].
Qed.

Lemma queue_entries_zero st e : e ∉ mEfiTimerList st -> queue_entries e st = 0%nat.
Proof. intros Hin. apply count_occ_not_In. by rewrite <- list_elem_of_In. Qed.

(** The list CoreSetTimer links the entry into: the old list without it. *)
Lemma disarmed_unlink st e :
  queue_inv st ->
  (if Link_ForwardLink (Memory st e) then unlink e (mEfiTimerList st)
   else mEfiTimerList st) = unlink e (mEfiTimerList st).
Proof.
  intros Hinv. pose proof (disarmed_queue _ _ e Hinv) as [He _]. cbn zeta in He.
  destruct (Link_ForwardLink (Memory st e)); [done|]. by rewrite unlink_absent.
Qed.

(** What a successful CoreSetTimer does to a list that satisfies the
    invariant. *)
Lemma CoreSetTimer_queue e ty t st st' :
  queue_inv st -> CoreSetTimer e ty t st = (EFI_SUCCESS, st') ->
  (e ∉ unlink e (mEfiTimerList st)) /\
  mEfiTimerList st' =
    (if ty =? TimerCancel then unlink e (mEfiTimerList st)
     else insert_scan (Memory st') (trig st' e) e (unlink e (mEfiTimerList st))).
Proof.
  intros Hinv Heq. split; [apply unlink_gone, Hinv|].
  apply CoreSetTimer_cases in Heq
    as [(? & _)|(_ & _ & _ & _ & _ & _ & _ & Hcase)]; [done|].
  cbn zeta in Hcase. rewrite disarmed_unlink in Hcase by done.
  destruct (ty =? TimerCancel); by destruct Hcase as (_ & _ & _ & -> & _).
Qed.

(** ** The claims on the order and the membership of the queue *)

(** C3.  Started from the static initialisers, after any sequence of calls of
    the entry points that return (any sequence of CoreSetTimer calls does)
    the deadlines of the timer list, head to tail, never decrease; and a
    further call that arms an event links it behind every entry already
    there whose deadline is not after its own, and in front of all others. *)
Theorem C3_sorted_stable_insertion (st0 : state) (cs : list call) :
  initial st0 ->
  (Forall is_set_timer cs -> is_Some (run cs st0)) /\
  forall st, run cs st0 = Some st ->
    Sorted Z.le (queue_deadlines st) /\
    forall e ty t st',
      CoreSetTimer e ty t st = (EFI_SUCCESS, st') -> ty <> TimerCancel ->
      Sorted Z.le (queue_deadlines st') /\
      exists l1 l2,
        unlink e (mEfiTimerList st) = l1 ++ l2 /\
        mEfiTimerList st' = l1 ++ e :: l2 /\
        Forall (fun h => trig st' h = trig st h) (l1 ++ l2) /\
        Forall (fun h => trig st h <= trig st' e) l1 /\
        Forall (fun h => trig st' e < trig st h) l2.
Proof.
  intros Hinit. split; [apply run_set_timers|]. intros st Hrun.
  assert (Hinv : queue_inv st).
  { eapply run_queue_inv; [|exact Hrun]. apply initial_WF, Hinit. }
  split; [by apply queue_inv_sorted|]. intros e ty t st' Heq Hty.
  assert (Hinv' : queue_inv st').
  { change st' with (snd (EFI_SUCCESS, st')). rewrite <- Heq.
    by apply CoreSetTimer_queue_inv. }
  split; [by apply queue_inv_sorted|].
  destruct (CoreSetTimer_queue _ _ _ _ _ Hinv Heq) as [He Hq].
  apply CoreSetTimer_cases in Heq
    as [(? & _)|(_ & _ & _ & _ & Hmem & _)]; [done|].
  destruct (Z.eqb_spec ty TimerCancel); [done|].
  assert (Hsame : forall x, x ∈ unlink e (mEfiTimerList st) -> trig st' x = trig st x).
  { intros x Hx. unfold trig. rewrite Hmem; [done|]. set_solver. }
  assert (Hs : StronglySorted (by_deadline (Memory st')) (unlink e (mEfiTimerList st))).
  { eapply (qinv_ext (Memory st)); [|apply qinv_unlink, Hinv].
    intros x Hx. apply Hmem. set_solver. }
  destruct (insert_scan_split_sorted _ (trig st' e) e _ Hs)
    as (l1 & l2 & Hsplit & Hins & Hl1 & Hl2).
  exists l1, l2. rewrite Hsplit in Hsame. split; [done|]. split; [congruence|].
  split; [by apply Forall_forall|]. split.
  - apply Forall_forall. intros x Hx. rewrite <- Hsame by set_solver.
    by eapply Forall_forall in Hl1.
  - apply Forall_forall. intros x Hx. rewrite <- Hsame by set_solver.
    by eapply Forall_forall in Hl2.
Qed.

(** C7.  Started from the static initialisers, at every state the entry
    points return to, and at every iteration of a run of CoreCheckTimers
    from there, no event has more than one node on the timer list.  A
    successful CoreSetTimer works on the list from which the event's old
    node has been unlinked; after it the event has exactly one node when it
    was armed and none when it was cancelled. *)
Theorem C7_single_membership (st0 : state) (cs : list call) (st : state) :
  initial st0 -> run cs st0 = Some st ->
  (forall x, (queue_entries x st <= 1)%nat) /\
  (forall n x,
     (queue_entries x (check_iter n (mEfiSystemTime st) (locked st)) <= 1)%nat) /\
  forall e ty t st',
    CoreSetTimer e ty t st = (EFI_SUCCESS, st') ->
    (e ∉ unlink e (mEfiTimerList st)) /\
    mEfiTimerList st' =
      (if ty =? TimerCancel then unlink e (mEfiTimerList st)
       else insert_scan (Memory st') (trig st' e) e (unlink e (mEfiTimerList st))) /\
    queue_entries e st' = (if ty =? TimerCancel then 0%nat else 1%nat) /\
    forall x, (queue_entries x st' <= 1)%nat.
Proof.
  intros Hinit Hrun.
  assert (Hinv : queue_inv st).
  { eapply run_queue_inv; [|exact Hrun]. apply initial_WF, Hinit. }
  split; [by apply queue_entries_le|]. split.
  { intros n x. by apply queue_entries_le, check_iter_queue_inv, locked_queue_inv. }
  intros e ty t st' Heq.
  assert (Hinv' : queue_inv st').
  { change st' with (snd (EFI_SUCCESS, st')). rewrite <- Heq.
    by apply CoreSetTimer_queue_inv. }
  destruct (CoreSetTimer_queue _ _ _ _ _ Hinv Heq) as [He Hq].
  repeat split; try done; [|by apply queue_entries_le].
  destruct (ty =? TimerCancel).
  - apply queue_entries_zero. by rewrite Hq.
  - apply queue_entries_one; [done|]. rewrite Hq. apply insert_scan_elem_of. by left.
Qed.

Lemma C3_witness :
  initial boot /\
  (Forall is_set_timer demo_calls -> is_Some (run demo_calls boot)) /\
  forall st, run demo_calls boot = Some st ->
    Sorted Z.le (queue_deadlines st) /\
    forall e ty t st',
      CoreSetTimer e ty t st = (EFI_SUCCESS, st') -> ty <> TimerCancel ->
      Sorted Z.le (queue_deadlines st') /\
      exists l1 l2,
        unlink e (mEfiTimerList st) = l1 ++ l2 /\
        mEfiTimerList st' = l1 ++ e :: l2 /\
        Forall (fun h => trig st' h = trig st h) (l1 ++ l2) /\
        Forall (fun h => trig st h <= trig st' e) l1 /\
        Forall (fun h => trig st' e < trig st h) l2.
Proof.
  split; [split; reflexivity|].
  apply (C3_sorted_stable_insertion boot demo_calls). split; reflexivity.
Defined.

Lemma C7_witness :
  initial boot /\ run demo_calls boot = Some demo_state /\
  forall x, (queue_entries x demo_state <= 1)%nat.
Proof.
  assert (Hi : initial boot) by (split; reflexivity).
  assert (Hr : run demo_calls boot = Some demo_state) by (vm_compute; reflexivity).
  split; [exact Hi|]. split; [exact Hr|].
  exact (proj1 (C7_single_membership boot demo_calls demo_state Hi Hr)).
Defined.

(** ** Cancelling *)

(** C8.  On a handle CoreSetTimer accepts, whatever the event's state (armed,
    never armed, already cancelled), a Cancel returns EFI_SUCCESS and leaves
    the event off the timer list, with a NULL forward link and with deadline
    and period zero; the other entries keep their order.  A second Cancel
    returns EFI_SUCCESS again and changes neither the list, nor the clock,
    nor the signals sent, nor any event. *)
Theorem C8_cancel_idempotent (st : state) (e : EFI_EVENT) (t1 t2 : Z) :
  queue_inv st -> timer_event st e ->
  exists st1 st2,
    CoreSetTimer e TimerCancel t1 st = (EFI_SUCCESS, st1) /\
    CoreSetTimer e TimerCancel t2 st1 = (EFI_SUCCESS, st2) /\
    (e ∉ mEfiTimerList st1) /\
    mEfiTimerList st1 = unlink e (mEfiTimerList st) /\
    Link_ForwardLink (Memory st1 e) = false /\
    trig st1 e = 0 /\ per st1 e = 0 /\
    mEfiTimerList st2 = mEfiTimerList st1 /\
    (forall x, Memory st2 x = Memory st1 x) /\
    mEfiSystemTime st2 = mEfiSystemTime st1 /\
    Signalled st2 = Signalled st1 /\
    Signalled st1 = Signalled st.
Proof.
  intros Hinv Hev.
  assert (Hok : forall s t, queue_inv s -> timer_event s e ->
    exists s', CoreSetTimer e TimerCancel t s = (EFI_SUCCESS, s') /\
      timer_event s' e /\ queue_inv s' /\
      (e ∉ mEfiTimerList s') /\ mEfiTimerList s' = unlink e (mEfiTimerList s) /\
      Link_ForwardLink (Memory s' e) = false /\ trig s' e = 0 /\ per s' e = 0 /\
      (forall x, x <> e -> Memory s' x = Memory s x) /\
      Signature (Memory s' e) = Signature (Memory s e) /\
      Type_ (Memory s' e) = Type_ (Memory s e) /\
      mEfiSystemTime s' = mEfiSystemTime s /\ Signalled s' = Signalled s).
  { intros s t Hs (Hn & Hsig & Hty).
    destruct (CoreSetTimer e TimerCancel t s) as [r s'] eqn:Heq.
    pose proof (CoreSetTimer_queue_inv e TimerCancel t s Hs) as Hs'. rewrite Heq in Hs'.
    destruct (CoreSetTimer_cases _ _ _ _ _ _ Heq)
      as [(_ & _ & Hbad)|(-> & _ & _ & Hti & Hmem & Hsg & Htp & Hcase)].
    { unfold valid_kind in Hbad. naive_solver. }
    destruct (CoreSetTimer_queue _ _ _ _ _ Hs Heq) as [He Hq]. simpl in Hq.
    cbn in Hcase. destruct Hcase as (? & ? & ? & _ & ? & _).
    exists s'. repeat split; try done; try congruence; apply Hs'. }
  destruct (Hok st t1 Hinv Hev)
    as (st1 & H1 & Hev1 & Hinv1 & He1 & Hq1 & Hl1 & Ht1 & Hp1 & _ & _ & _ & _ & Hs1).
  destruct (Hok st1 t2 Hinv1 Hev1)
    as (st2 & H2 & _ & _ & _ & Hq2 & Hl2 & Ht2 & Hp2 & Hm2 & Hsg2 & Hty2 & Hti2 & Hs2).
  exists st1, st2. repeat split; try done.
  - rewrite Hq2. by apply unlink_absent.
  - intros x. destruct (decide (x = e)) as [->|Hne]; [|by apply Hm2].
    unfold trig, per in *.
    destruct (Memory st2 e), (Memory st1 e); simpl in *. congruence.
Qed.

Lemma C8_witness :
  queue_inv demo_state /\ timer_event demo_state 1%N /\
  exists st1 st2,
    CoreSetTimer 1%N TimerCancel 7 demo_state = (EFI_SUCCESS, st1) /\
    CoreSetTimer 1%N TimerCancel 9 st1 = (EFI_SUCCESS, st2) /\
    (1%N ∉ mEfiTimerList st1) /\ mEfiTimerList st2 = mEfiTimerList st1.
Proof.
  assert (Hinv : queue_inv demo_state).
  { apply (run_queue_inv demo_calls boot); [|vm_compute; reflexivity].
    apply initial_WF. split; reflexivity. }
  assert (Hev : timer_event demo_state 1%N) by (repeat split; done).
  split; [exact Hinv|]. split; [exact Hev|].
  destruct (C8_cancel_idempotent demo_state 1%N 7 9 Hinv Hev)
    as (st1 & st2 & H1 & H2 & H3 & _ & _ & _ & _ & H4 & _).
  by exists st1, st2.
Defined.

(** ** Errors *)

(** C4 as stated fails: a non-NULL handle whose signature is not
    EVENT_SIGNATURE is refused although its type word carries EVT_TIMER and
    the kind is Relative. *)
Lemma C4_counterexample :
  fst (CoreSetTimer 5%N TimerRelative 7 boot) = EFI_INVALID_PARAMETER /\
  ~ (5%N = NULL \/ Z.land (Type_ (Memory boot 5%N)) EVT_TIMER = 0 \/
     ~ valid_kind TimerRelative).
Proof.
  split; [reflexivity|]. intros [H|[H|H]]; [done|done|].
  apply H. right. by right.
Qed.

(** C4, amended.  CoreSetTimer returns EFI_INVALID_PARAMETER exactly when the
    handle is NULL, or does not carry EVENT_SIGNATURE, or lacks EVT_TIMER, or
    the kind is none of Cancel, Periodic, Relative; it then leaves the state
    as it was.  In every other case it returns EFI_SUCCESS. *)
Theorem C4_invalid_parameter (e : EFI_EVENT) (ty t : Z) (st : state) :
  (fst (CoreSetTimer e ty t st) = EFI_INVALID_PARAMETER <->
   e = NULL \/ Signature (Memory st e) <> EVENT_SIGNATURE \/
   Z.land (Type_ (Memory st e)) EVT_TIMER = 0 \/ ~ valid_kind ty) /\
  (fst (CoreSetTimer e ty t st) = EFI_INVALID_PARAMETER ->
   snd (CoreSetTimer e ty t st) = st) /\
  (fst (CoreSetTimer e ty t st) <> EFI_INVALID_PARAMETER ->
   fst (CoreSetTimer e ty t st) = EFI_SUCCESS).
Proof.
  destruct (CoreSetTimer e ty t st) as [s st'] eqn:Heq. simpl.
  destruct (CoreSetTimer_cases _ _ _ _ _ _ Heq)
    as [(-> & -> & Hbad)|(-> & (Hn & Hsig & Hty) & Hk & _)].
  - repeat split; try done. intros _. naive_solver.
  - repeat split; try done. naive_solver.
Qed.

(** ** The clock *)

Lemma current_time_eq st : current_time st = mEfiSystemTime st.
Proof. done. Qed.

Lemma ticks_cons d ds st : ticks (d :: ds) st = ticks ds (CoreTimerTick d st).
Proof. done. Qed.

Lemma sumZ_app ds1 ds2 : sumZ (ds1 ++ ds2) = sumZ ds1 + sumZ ds2.
Proof. induction ds1 as [|d ds1 IH]; simpl; [done|]. rewrite IH. lia. Qed.

Lemma sumZ_nonneg ds : Forall (fun d => 0 <= d) ds -> 0 <= sumZ ds.
Proof. induction 1; simpl; lia. Qed.

(** The clock after a sequence of ticks, in 64 bits. *)
Lemma ticks_time ds st :
  wrap64 (mEfiSystemTime (ticks ds st)) = wrap64 (mEfiSystemTime st + sumZ ds) /\
  (u64 (mEfiSystemTime st) -> u64 (mEfiSystemTime (ticks ds st))).
Proof.
  revert st. induction ds as [|d ds IH]; intros st.
  - simpl. split; [f_equal; lia|done].
  - rewrite ticks_cons. destruct (IH (CoreTimerTick d st)) as [IH1 IH2].
    destruct (CoreTimerTick_fields d st) as (_ & _ & Ht & _).
    split.
    + rewrite IH1, Ht. unfold wrap64. simpl sumZ.
      rewrite Zplus_mod_idemp_l. f_equal. lia.
    + intros _. apply IH2. rewrite Ht. apply wrap64_u64.
Qed.

Lemma ticks_fields ds st :
  Memory (ticks ds st) = Memory st /\
  mEfiTimerList (ticks ds st) = mEfiTimerList st /\
  fires (Signalled (ticks ds st)) = fires (Signalled st).
Proof.
  revert st. induction ds as [|d ds IH]; intros st; [done|].
  rewrite ticks_cons. destruct (IH (CoreTimerTick d st)) as (-> & -> & ->).
  destruct (CoreTimerTick_fields d st) as (-> & -> & _ & -> & _). done.
Qed.

Lemma ticks_WF ds st : WF st -> WF (ticks ds st).
Proof.
  revert st. induction ds as [|d ds IH]; intros st Hst; [done|].
  rewrite ticks_cons. by apply IH, CoreTimerTick_WF.
Qed.

(** C6 as stated fails: the clock is a UINT64 and wraps around.  After the
    ticks 2^64 - 1 and 1 it reads 0, which is neither the sum of the two
    durations nor at least what it read after the first tick. *)
Lemma C6_counterexample :
  let ds := [2 ^ 64 - 1; 1] in
  Forall (fun d => 0 <= d) ds /\
  current_time (ticks ds boot) <> sumZ ds /\
  current_time (ticks ds boot) < current_time (ticks [2 ^ 64 - 1] boot).
Proof.
  split; [repeat constructor; lia|]. split; [by vm_compute|by vm_compute].
Qed.

(** C6, amended.  From a clock at zero, after ticks of durations [ds], all
    non-negative, the clock reads the sum of the durations modulo 2^64.  As
    long as the sum stays below 2^64 the clock reads exactly the sum, and it
    read no more after any shorter prefix of the ticks. *)
Theorem C6_monotonic_clock (st0 : state) (ds : list Z) :
  initial st0 -> Forall (fun d => 0 <= d) ds ->
  current_time (ticks ds st0) = wrap64 (sumZ ds) /\
  (sumZ ds < 2 ^ 64 ->
   current_time (ticks ds st0) = sumZ ds /\
   forall ds1 ds2, ds = ds1 ++ ds2 ->
     current_time (ticks ds1 st0) = sumZ ds1 /\
     current_time (ticks ds1 st0) <= current_time (ticks ds st0)).
Proof.
  intros [_ Hz] Hds. rewrite !current_time_eq.
  assert (Hgen : forall l, Forall (fun d => 0 <= d) l ->
    mEfiSystemTime (ticks l st0) = wrap64 (sumZ l)).
  { intros l Hl. destruct (ticks_time l st0) as [H1 H2].
    rewrite Hz in H1, H2. rewrite Z.add_0_l in H1. rewrite <- H1.
    symmetry. apply wrap64_small, H2. unfold u64. lia. }
  split; [by apply Hgen|]. intros Hlt.
  pose proof (sumZ_nonneg _ Hds) as Hnn.
  split; [rewrite Hgen by done; apply wrap64_small; by split|].
  intros ds1 ds2 ->. rewrite !current_time_eq.
  apply Forall_app in Hds as [Hd1 Hd2].
  pose proof (sumZ_nonneg _ Hd1). pose proof (sumZ_nonneg _ Hd2).
  rewrite sumZ_app in Hlt, Hnn.
  rewrite (Hgen ds1) by done. rewrite (Hgen (ds1 ++ ds2)) by by apply Forall_app.
  rewrite sumZ_app, !wrap64_small by (unfold u64; lia). lia.
Qed.

Lemma C6_witness :
  initial boot /\ Forall (fun d => 0 <= d) [60; 41] /\
  current_time (ticks [60; 41] boot) = wrap64 (sumZ [60; 41]) /\
  (sumZ [60; 41] < 2 ^ 64 ->
   current_time (ticks [60; 41] boot) = sumZ [60; 41] /\
   forall ds1 ds2, [60; 41] = ds1 ++ ds2 ->
     current_time (ticks ds1 boot) = sumZ ds1 /\
     current_time (ticks ds1 boot) <= current_time (ticks [60; 41] boot)).
Proof.
  assert (Hi : initial boot) by (split; reflexivity).
  assert (Hd : Forall (fun d => 0 <= d) [60; 41]) by (repeat constructor; lia).
  split; [exact Hi|]. split; [exact Hd|].
  exact (C6_monotonic_clock boot [60; 41] Hi Hd).
Defined.

(** ** The two locks *)

(** C2 as stated fails: the level of the timer-list lock is not above the
    level of the clock lock. *)
Lemma C2_counterexample : ~ (LockTpl mEfiSystemTimeLock < LockTpl mEfiTimerLock).
Proof. unfold LockTpl. lia. Qed.

(** C2, amended.  The timer-list lock is initialised one level below the
    clock lock.  Every call of an entry point that returns takes and
    releases the locks in a nested way in which the timer-list lock is only
    taken when no lock is held, so that the clock lock is only ever taken
    inside it or alone, and no lock is taken at a level below one already
    held; a call that takes both locks takes the timer-list lock, takes and
    releases the clock lock inside it, and then releases the timer-list
    lock. *)
Theorem C2_lock_order (c : call) (st st' : state) :
  exec c st = Some st' ->
  LockTpl mEfiTimerLock < LockTpl mEfiSystemTimeLock /\
  exists ops,
    LockTrace st' = rev ops ++ LockTrace st /\
    queue_first [] ops = true /\
    tpl_raises [] ops = true /\
    (Acquire mEfiTimerLock ∈ ops -> Acquire mEfiSystemTimeLock ∈ ops ->
     ops = [Acquire mEfiTimerLock; Acquire mEfiSystemTimeLock;
            Release mEfiSystemTimeLock; Release mEfiTimerLock]).
Proof.
  intros Hex. split; [unfold LockTpl; lia|].
  assert (Hcases : exists ops, LockTrace st' = rev ops ++ LockTrace st /\
    (ops = [] \/ ops = [Acquire mEfiTimerLock; Release mEfiTimerLock] \/
     ops = [Acquire mEfiSystemTimeLock; Release mEfiSystemTimeLock] \/
     ops = [Acquire mEfiTimerLock; Acquire mEfiSystemTimeLock;
            Release mEfiSystemTimeLock; Release mEfiTimerLock])).
  { destruct c as [e ty t|d|fuel]; simpl in Hex.
    - destruct (CoreSetTimer e ty t st) as [s st1] eqn:Heq. simpl in Hex.
      assert (st1 = st') as -> by congruence. clear Hex.
      apply CoreSetTimer_cases in Heq
        as [(_ & -> & _)|(_ & _ & _ & _ & _ & _ & _ & Hcase)].
      + exists []. by split; [|left].
      + cbn zeta in Hcase. destruct (ty =? TimerCancel).
        * destruct Hcase as (_ & _ & _ & _ & _ & ->). eexists. split; [|right; left; done]. done.
        * destruct Hcase as (_ & _ & _ & _ & _ & ->). eexists. split; [|do 3 right; done]. done.
    - assert (st' = CoreTimerTick d st) as -> by congruence.
      destruct (CoreTimerTick_fields d st) as (_ & _ & _ & _ & ->).
      eexists. split; [|right; right; left; done]. done.
    - apply CoreCheckTimers_Some in Hex as [_ ->].
      change (LockTrace (CoreReleaseLock mEfiTimerLock ?s))
        with (Release mEfiTimerLock :: LockTrace s).
      destruct (check_iter_time fuel (mEfiSystemTime st) (locked st)) as [_ ->].
      eexists. split; [|do 3 right; done]. done. }
  destruct Hcases as (ops & Htr & Hops). exists ops. split; [done|].
  destruct Hops as [-> | [-> | [-> | ->]]]; (split; [done|]); (split; [done|]);
    intros H1 H2; try done; exfalso; set_solver.
Qed.

Lemma C2_witness :
  exec (SetTimer 1%N TimerRelative 100) boot
    = Some (snd (CoreSetTimer 1%N TimerRelative 100 boot)) /\
  LockTpl mEfiTimerLock < LockTpl mEfiSystemTimeLock.
Proof.
  assert (He : exec (SetTimer 1%N TimerRelative 100) boot
    = Some (snd (CoreSetTimer 1%N TimerRelative 100 boot))) by reflexivity.
  split; [exact He|]. exact (proj1 (C2_lock_order _ _ _ He)).
Defined.

(** ** What the loop does to the signals *)

Lemma fires_of_cons e h d l :
  filter (fun p : EFI_EVENT * Z => p.1 = e) ((h, d) :: l) =
  if decide (h = e) then (h, d) :: filter (fun p => p.1 = e) l
  else filter (fun p => p.1 = e) l.
Proof. rewrite filter_cons. simpl. by destruct (decide (h = e)). Qed.

(** One iteration, seen from the state it returns. *)
Lemma body_step now st st' :
  CoreCheckTimers_body now st = Some st' ->
  exists h t,
    mEfiTimerList st = h :: t /\ trig st h <= now /\
    mEfiSystemTime st' = mEfiSystemTime st /\
    (forall x, x <> h -> Memory st' x = Memory st x) /\
    per st' h = per st h /\
    fires (Signalled st') = (h, trig st h) :: fires (Signalled st) /\
    (per st h = 0 ->
     mEfiTimerList st' = t /\ trig st' h = trig st h /\
     Link_ForwardLink (Memory st' h) = false) /\
    (per st h <> 0 ->
     mEfiTimerList st' = insert_scan (Memory st') (trig st' h) h t /\
     trig st' h = rearm_deadline now (trig st h) (per st h) /\
     Link_ForwardLink (Memory st' h) = true).
Proof.
  intros Hb. destruct (body_Some _ _ _ Hb) as (h & t & Hq & Hle).
  destruct (body_expired now st h t Hq Hle)
    as (st2 & Hb2 & Hti & _ & Hmem & _ & _ & Hper & Hcase).
  assert (st2 = st') as -> by congruence.
  exists h, t. do 5 (split; [done|]).
  destruct (Z.eqb_spec (per st h) 0) as [Hz|Hnz].
  - destruct Hcase as (? & ? & ? & Hsig). rewrite Hsig. done.
  - destruct Hcase as (? & ? & ? & Hsig). rewrite Hsig.
    split; [by destruct (_ <=? _)|]. done.
Qed.

(** An event that is off the list is left alone by the loop. *)
Lemma body_absent now st st' e :
  CoreCheckTimers_body now st = Some st' -> e ∉ mEfiTimerList st ->
  (e ∉ mEfiTimerList st') /\ Memory st' e = Memory st e /\
  fires_of e (Signalled st') = fires_of e (Signalled st).
Proof.
  intros (h & t & Hq & _ & _ & Hmem & _ & Hf & Hz & Hnz)%body_step He.
  rewrite Hq in He. assert (h <> e) by set_solver.
  split; [|split; [by apply Hmem|]].
  - destruct (Z.eq_dec (per st h) 0) as [Hp0|Hp0].
    + destruct (Hz Hp0) as (-> & _). set_solver.
    + destruct (Hnz Hp0) as (-> & _). rewrite insert_scan_elem_of. set_solver.
  - unfold fires_of. rewrite Hf, fires_of_cons. by destruct (decide (h = e)).
Qed.

Lemma check_iter_absent n now st e :
  e ∉ mEfiTimerList st ->
  (e ∉ mEfiTimerList (check_iter n now st)) /\
  Memory (check_iter n now st) e = Memory st e /\
  fires_of e (Signalled (check_iter n now st)) = fires_of e (Signalled st).
Proof.
  revert st. induction n as [|n IH]; intros st He; simpl; [done|].
  destruct (CoreCheckTimers_body now st) as [st1|] eqn:Hb; [|done].
  destruct (body_absent _ _ _ _ Hb He) as (He1 & Hm1 & Hf1).
  destruct (IH st1 He1) as (? & ? & ?). split; [done|]. split; congruence.
Qed.

(** An entry that is not due yet is left alone by the loop. *)
Lemma body_pending now st st' e :
  CoreCheckTimers_body now st = Some st' ->
  e ∈ mEfiTimerList st -> now < trig st e ->
  (e ∈ mEfiTimerList st') /\ Memory st' e = Memory st e /\
  fires_of e (Signalled st') = fires_of e (Signalled st).
Proof.
  intros (h & t & Hq & Hle & _ & Hmem & _ & Hf & Hz & Hnz)%body_step He Hlt.
  rewrite Hq in He. assert (h <> e) by (intros ->; lia).
  assert (e ∈ t) by set_solver.
  split; [|split; [by apply Hmem|]].
  - destruct (Z.eq_dec (per st h) 0) as [Hp0|Hp0].
    + by destruct (Hz Hp0) as (-> & _).
    + destruct (Hnz Hp0) as (-> & _). rewrite insert_scan_elem_of. by right.
  - unfold fires_of. rewrite Hf, fires_of_cons. by destruct (decide (h = e)).
Qed.

Lemma check_iter_pending n now st e :
  e ∈ mEfiTimerList st -> now < trig st e ->
  (e ∈ mEfiTimerList (check_iter n now st)) /\
  Memory (check_iter n now st) e = Memory st e /\
  fires_of e (Signalled (check_iter n now st)) = fires_of e (Signalled st).
Proof.
  revert st. induction n as [|n IH]; intros st He Hlt; simpl; [done|].
  destruct (CoreCheckTimers_body now st) as [st1|] eqn:Hb; [|done].
  destruct (body_pending _ _ _ _ Hb He Hlt) as (He1 & Hm1 & Hf1).
  assert (Hlt1 : now < trig st1 e) by (unfold trig in *; by rewrite Hm1).
  destruct (IH st1 He1 Hlt1) as (? & ? & ?). split; [done|]. split; congruence.
Qed.

(** A due one-shot entry behind [pre] is signalled by the iteration that
    follows the ones spent on [pre], and is not linked again. *)
Lemma one_shot_reached now e pre :
  forall st suf,
    NoDup (mEfiTimerList st) ->
    mEfiTimerList st = pre ++ e :: suf ->
    Forall (fun x => trig st x <= trig st e) pre ->
    trig st e <= now -> per st e = 0 ->
    let st' := check_iter (S (length pre)) now st in
    (e ∉ mEfiTimerList st') /\
    Link_ForwardLink (Memory st' e) = false /\
    fires_of e (Signalled st') = (e, trig st e) :: fires_of e (Signalled st).
Proof.
  induction pre as [|h pre IH]; intros st suf Hnd Hq Hpre Hdue Hper; cbn zeta.
  - simpl in Hq. destruct (body_expired now st e suf Hq Hdue) as (st1 & Hb & _).
    change (check_iter (S (length [])) now st)
      with (match CoreCheckTimers_body now st with
            | Some s => s | None => st end).
    rewrite Hb.
    destruct (body_step _ _ _ Hb) as (h' & t' & Hq' & _ & _ & _ & _ & Hf & Hz & _).
    assert (h' = e /\ t' = suf) as [-> ->] by (split; congruence).
    destruct (Hz Hper) as (-> & _ & Hl). rewrite Hq in Hnd.
    apply NoDup_cons in Hnd as [? _]. split; [done|]. split; [done|].
    unfold fires_of. rewrite Hf, fires_of_cons. by rewrite decide_True.
  - simpl in Hq. apply Forall_cons in Hpre as [Hh Hpre].
    assert (Hhdue : trig st h <= now) by lia.
    destruct (body_expired now st h _ Hq Hhdue) as (st1 & Hb & _).
    change (check_iter (S (length (h :: pre))) now st)
      with (match CoreCheckTimers_body now st with
            | Some s => check_iter (S (length pre)) now s | None => st end).
    rewrite Hb.
    destruct (body_step _ _ _ Hb)
      as (h' & t' & Hq' & _ & _ & Hmem & _ & Hf & Hz & Hnz).
    assert (h' = h /\ t' = pre ++ e :: suf) as [-> ->] by (split; congruence).
    rewrite Hq in Hnd. apply NoDup_cons in Hnd as [Hh' Hnd].
    assert (Hne : e <> h) by set_solver.
    assert (Hsame : forall x, x ∈ pre ++ e :: suf -> Memory st1 x = Memory st x).
    { intros x Hx. apply Hmem. set_solver. }
    assert (Hq1 : exists suf1,
      mEfiTimerList st1 = pre ++ e :: suf1 /\ NoDup (mEfiTimerList st1)).
    { destruct (Z.eq_dec (per st h) 0) as [Hp0|Hp0].
      - destruct (Hz Hp0) as (-> & _). by exists suf.
      - destruct (Hnz Hp0) as (Hq1 & Ht1 & _). rewrite Hq1.
        exists (insert_scan (Memory st1) (trig st1 h) h suf).
        split; [|by apply insert_scan_NoDup].
        rewrite (cons_middle e pre suf), app_assoc.
        rewrite (insert_scan_prefix _ _ _ (pre ++ [e]) suf), <- app_assoc; [done|].
        pose proof (rearm_deadline_ge now (trig st h) (per st h)).
        apply Forall_forall. intros x Hx. fold (trig st1 x).
        unfold trig at 1. rewrite Hsame by set_solver. fold (trig st x).
        apply elem_of_app in Hx as [Hx|Hx]; [|apply list_elem_of_singleton in Hx; subst x; lia].
        eapply Forall_forall in Hpre; [|done]. lia. }
    destruct Hq1 as (suf1 & Hq1 & Hnd1).
    assert (Hte : trig st1 e = trig st e) by (unfold trig; rewrite Hsame; set_solver).
    destruct (IH st1 suf1 Hnd1 Hq1) as (? & ? & Hf1).
    + apply Forall_forall. intros x Hx. rewrite Hte. unfold trig at 1.
      rewrite Hsame by set_solver. by eapply Forall_forall in Hpre.
    + lia.
    + unfold per. rewrite Hsame by set_solver. done.
    + split; [done|]. split; [done|]. rewrite Hf1, Hte. f_equal.
      unfold fires_of. rewrite Hf, fires_of_cons. by rewrite decide_False.
Qed.

(** ** The loop ends when no deadline wraps around *)

Lemma sum_list_with_insert_scan (f : EFI_EVENT -> nat) mem T e q :
  sum_list_with f (insert_scan mem T e q) = (f e + sum_list_with f q)%nat.
Proof.
  induction q as [|h t IH]; simpl; [done|].
  destruct (TriggerTime (mem h) >? T); simpl; [done|]. rewrite IH. lia.
Qed.

Lemma sum_list_with_ext (f g : EFI_EVENT -> nat) q :
  (forall x, x ∈ q -> f x = g x) -> sum_list_with f q = sum_list_with g q.
Proof.
  induction q as [|h t IH]; simpl; [done|]. intros H.
  rewrite (H h) by set_solver. rewrite IH; [done|]. intros x Hx. apply H. set_solver.
Qed.

Lemma backlog_le now st : (backlog now st <= 2 * length (mEfiTimerList st))%nat.
Proof.
  unfold backlog. induction (mEfiTimerList st) as [|h t IH]; simpl; [done|].
  unfold due_weight at 1. destruct (_ <? _); [lia|]. destruct (_ =? _); lia.
Qed.

(** Without wrap-around the new deadline of a periodic entry is the old one
    plus the period, or the snapshot when the old one was more than a period
    behind; it is after the old one in both cases. *)
Lemma rearm_no_wrap now T P :
  u64 T -> u64 P -> P <> 0 -> T <= now -> now + P < 2 ^ 64 ->
  wrap64 (T + P) = T + P /\ T < rearm_deadline now T P /\
  (due_weight now (rearm_deadline now T P) < due_weight now T)%nat.
Proof.
  unfold u64. intros HT HP Hnz Hle Hnw.
  assert (Hw : wrap64 (T + P) = T + P) by (apply wrap64_small; unfold u64; lia).
  unfold rearm_deadline, due_weight. rewrite Hw. split; [done|].
  destruct (Z.leb_spec (T + P) now).
  - split; [lia|]. rewrite Z.ltb_irrefl, Z.eqb_refl.
    destruct (Z.ltb_spec T now); [lia|lia].
  - split; [lia|]. destruct (Z.ltb_spec (T + P) now); [lia|].
    destruct (Z.eqb_spec (T + P) now); [lia|].
    destruct (Z.ltb_spec T now); [lia|]. destruct (Z.eqb_spec T now); lia.
Qed.

Lemma due_weight_pos now T : T <= now -> (0 < due_weight now T)%nat.
Proof.
  intros. unfold due_weight. destruct (Z.ltb_spec T now); [lia|].
  destruct (Z.eqb_spec T now); lia.
Qed.

Lemma body_backlog now st st' :
  WF st -> no_wrap now st -> CoreCheckTimers_body now st = Some st' ->
  (backlog now st' < backlog now st)%nat /\ no_wrap now st'.
Proof.
  intros [Hinv [Hr _]] Hnw
    (h & t & Hq & Hle & _ & Hmem & Hper & _ & Hz & Hnz)%body_step.
  unfold queue_inv in Hinv. unfold backlog, no_wrap in *. rewrite Hq in *.
  apply qinv_tail in Hinv as [Hh _].
  apply Forall_cons in Hr as [[HT HP] Hr]. apply Forall_cons in Hnw as [Hnwh Hnw].
  assert (Hsame : forall x, x ∈ t -> Memory st' x = Memory st x).
  { intros x Hx. apply Hmem. set_solver. }
  assert (Hsum : sum_list_with (fun x => due_weight now (trig st' x)) t =
                 sum_list_with (fun x => due_weight now (trig st x)) t).
  { apply sum_list_with_ext. intros x Hx. unfold trig. by rewrite Hsame. }
  assert (Hnw' : Forall (fun x => now + per st' x < 2 ^ 64) t).
  { apply Forall_forall. intros x Hx. unfold per. rewrite Hsame by done.
    by eapply Forall_forall in Hnw. }
  destruct (Z.eq_dec (per st h) 0) as [Hp0|Hp0].
  - destruct (Hz Hp0) as (-> & _). rewrite Hsum. split; [|done].
    simpl. pose proof (due_weight_pos now (trig st h) Hle). lia.
  - destruct (Hnz Hp0) as (-> & Ht' & _). split.
    + rewrite sum_list_with_insert_scan, Hsum, Ht'. simpl.
      destruct (rearm_no_wrap now (trig st h) (per st h)) as (_ & _ & ?); try done.
      lia.
    + apply Forall_forall. intros x [->|Hx]%insert_scan_elem_of.
      * by rewrite Hper.
      * by eapply Forall_forall in Hnw'.
Qed.

Lemma loop_terminates now fuel :
  forall st,
    WF st -> u64 now -> no_wrap now st -> (backlog now st < fuel)%nat ->
    is_Some (CoreCheckTimers_loop fuel now st).
Proof.
  induction fuel as [|fuel IH]; intros st Hst Hnow Hnw Hlt; [lia|]. simpl.
  destruct (CoreCheckTimers_body now st) as [st1|] eqn:Hb; [|done].
  destruct (body_backlog _ _ _ Hst Hnw Hb) as [Hdec Hnw1].
  apply IH; [by eapply body_WF|done|done|lia].
Qed.

Lemma CoreCheckTimers_terminates st :
  WF st -> no_wrap (mEfiSystemTime st) st ->
  is_Some (CoreCheckTimers (2 * length (mEfiTimerList st) + 1) st).
Proof.
  intros Hst Hnw. unfold CoreCheckTimers.
  change (CoreCurrentSystemTime _) with (mEfiSystemTime st, locked st). cbn iota beta.
  destruct (loop_terminates (mEfiSystemTime st) (2 * length (mEfiTimerList st) + 1)
              (locked st)) as [st2 ->]; try done.
  - apply Hst.
  - pose proof (backlog_le (mEfiSystemTime st) (locked st)).
    change (mEfiTimerList (locked st)) with (mEfiTimerList st) in *. lia.
Qed.

(** ** The signals of one pass *)

(** Every signal of a pass is for a deadline that is not after the
    snapshot. *)
Lemma pass_fires_due now n :
  forall st, exists L,
    fires (Signalled (check_iter n now st)) = L ++ fires (Signalled st) /\
    forall x d, (x, d) ∈ L -> d <= now.
Proof.
  induction n as [|n IH]; intros st; simpl.
  - exists []. split; [done|]. intros x d H. by apply elem_of_nil in H.
  - destruct (CoreCheckTimers_body now st) as [st1|] eqn:Hb.
    + destruct (body_step _ _ _ Hb) as (h & t & _ & Hle & _ & _ & _ & Hf & _).
      destruct (IH st1) as (L & HL & Hdue). exists (L ++ [(h, trig st h)]).
      split; [by rewrite HL, Hf, <- app_assoc|].
      intros x d [Hx|Hx]%elem_of_app; [by eapply Hdue|].
      apply list_elem_of_singleton in Hx. by simplify_eq.
    + exists []. split; [done|]. intros x d H. by apply elem_of_nil in H.
Qed.

(** When no deadline wraps around, no entry is signalled twice for the same
    deadline within one pass. *)
Lemma pass_fires_distinct now n :
  forall st,
    WF st -> u64 now -> no_wrap now st ->
    exists L,
      fires (Signalled (check_iter n now st)) = L ++ fires (Signalled st) /\
      NoDup L /\
      forall x d, (x, d) ∈ L -> x ∈ mEfiTimerList st /\ trig st x <= d <= now.
Proof.
  induction n as [|n IH]; intros st Hst Hnow Hnw; simpl.
  { exists []. split; [done|]. split; [constructor|].
    intros x d H. by apply elem_of_nil in H. }
  destruct (CoreCheckTimers_body now st) as [st1|] eqn:Hb.
  2:{ exists []. split; [done|]. split; [constructor|].
      intros x d H. by apply elem_of_nil in H. }
  destruct (body_backlog _ _ _ Hst Hnw Hb) as [_ Hnw1].
  pose proof (body_WF _ _ _ Hnow Hst Hb) as Hst1.
  destruct (body_step _ _ _ Hb)
    as (h & t & Hq & Hle & _ & Hmem & _ & Hf & Hz & Hnz).
  destruct (IH st1 Hst1 Hnow Hnw1) as (L & HL & HndL & Hfut).
  destruct Hst as [Hinv [Hr _]]. unfold no_wrap in Hnw. unfold queue_inv in Hinv.
  rewrite Hq in Hr, Hnw, Hinv. apply qinv_tail in Hinv as [Hht _].
  apply Forall_cons in Hr as [[HT HP] _]. apply Forall_cons in Hnw as [Hnwh _].
  assert (Hin : forall x, x ∈ mEfiTimerList st1 -> x ∈ mEfiTimerList st).
  { intros x. rewrite Hq. destruct (Z.eq_dec (per st h) 0) as [Hp0|Hp0].
    - destruct (Hz Hp0) as (-> & _). set_solver.
    - destruct (Hnz Hp0) as (-> & _). rewrite insert_scan_elem_of. set_solver. }
  assert (Hgrow : h ∈ mEfiTimerList st1 -> trig st h < trig st1 h).
  { intros Hh. destruct (Z.eq_dec (per st h) 0) as [Hp0|Hp0].
    - destruct (Hz Hp0) as (Hq1 & _). rewrite Hq1 in Hh. done.
    - destruct (Hnz Hp0) as (_ & -> & _).
      by destruct (rearm_no_wrap now (trig st h) (per st h)) as (_ & ? & _). }
  exists (L ++ [(h, trig st h)]).
  split; [by rewrite HL, Hf, <- app_assoc|]. split.
  - apply NoDup_app. split; [done|]. split; [|apply NoDup_singleton].
    intros [x d] Hx Hx'. apply list_elem_of_singleton in Hx'. simplify_eq.
    destruct (Hfut _ _ Hx) as [Hh ?]. specialize (Hgrow Hh). lia.
  - intros x d [Hx|Hx]%elem_of_app.
    + destruct (Hfut _ _ Hx) as [Hx1 ?]. split; [by apply Hin|].
      destruct (decide (x = h)) as [->|Hne]; [specialize (Hgrow Hx1); lia|].
      unfold trig in *. rewrite <- Hmem by done. lia.
    + apply list_elem_of_singleton in Hx. simplify_eq. split; [|lia].
      rewrite Hq. set_solver.
Qed.

(** ** Calls that spare an event *)

Lemma unlink_elem_of_ne e x q : x <> e -> x ∈ unlink e q <-> x ∈ q.
Proof. intros. split; [apply unlink_elem_of|by apply unlink_other]. Qed.

Lemma CoreSetTimer_spares e e' ty t st :
  e' <> e ->
  let st' := snd (CoreSetTimer e' ty t st) in
  Memory st' e = Memory st e /\
  (e ∈ mEfiTimerList st' <-> e ∈ mEfiTimerList st) /\
  fires (Signalled st') = fires (Signalled st).
Proof.
  intros Hne. destruct (CoreSetTimer e' ty t st) as [s st'] eqn:Heq. simpl.
  apply CoreSetTimer_cases in Heq
    as [(_ & -> & _)|(_ & _ & _ & _ & Hmem & _ & _ & Hcase)]; [done|].
  split; [by apply Hmem|]. cbn zeta in Hcase.
  assert (Hq0 : e ∈ (if Link_ForwardLink (Memory st e')
                     then unlink e' (mEfiTimerList st) else mEfiTimerList st)
                <-> e ∈ mEfiTimerList st).
  { destruct (Link_ForwardLink (Memory st e')); [by apply unlink_elem_of_ne|done]. }
  destruct (ty =? TimerCancel).
  - destruct Hcase as (_ & _ & _ & -> & -> & _). done.
  - destruct Hcase as (_ & _ & _ & -> & -> & _). split.
    + rewrite insert_scan_elem_of, Hq0. naive_solver.
    + by destruct (t =? 0).
Qed.

Lemma exec_absent c st st' e :
  spares e c -> exec c st = Some st' -> e ∉ mEfiTimerList st ->
  (e ∉ mEfiTimerList st') /\ Memory st' e = Memory st e /\
  fires_of e (Signalled st') = fires_of e (Signalled st).
Proof.
  intros Hsp Hex He. destruct c as [e' ty t|d|fuel]; simpl in *.
  - assert (st' = snd (CoreSetTimer e' ty t st)) as -> by congruence.
    destruct (CoreSetTimer_spares e e' ty t st Hsp) as (Hm & Hq & Hf).
    unfold fires_of. rewrite Hf. split; [by rewrite Hq|done].
  - assert (st' = CoreTimerTick d st) as -> by congruence.
    destruct (CoreTimerTick_fields d st) as (Hm & Hq & _ & Hf & _).
    unfold fires_of. by rewrite Hm, Hq, Hf.
  - apply CoreCheckTimers_Some in Hex as [_ ->].
    destruct (check_iter_absent fuel (mEfiSystemTime st) (locked st) e He)
      as (? & ? & ?).
    done.
Qed.

Lemma run_absent cs st st' e :
  Forall (spares e) cs -> run cs st = Some st' -> e ∉ mEfiTimerList st ->
  (e ∉ mEfiTimerList st') /\ Memory st' e = Memory st e /\
  fires_of e (Signalled st') = fires_of e (Signalled st).
Proof.
  intros Hcs. revert st. induction Hcs as [|c cs Hc Hcs IH]; intros st; simpl.
  - by intros [= <-].
  - destruct (exec c st) as [st1|] eqn:He; [|done]. intros Hrun Hout.
    destruct (exec_absent _ _ _ _ Hc He Hout) as (H1 & H2 & H3).
    destruct (IH _ Hrun H1) as (? & ? & ?). split; [done|]. split; congruence.
Qed.

(** ** A due one-shot entry in a run of CoreCheckTimers *)

Lemma due_one_shot st e :
  queue_inv st -> e ∈ mEfiTimerList st -> per st e = 0 ->
  trig st e <= mEfiSystemTime st ->
  let now := mEfiSystemTime st in
  let done_ st' :=
    (e ∉ mEfiTimerList st') /\ Link_ForwardLink (Memory st' e) = false /\
    fires_of e (Signalled st') = (e, trig st e) :: fires_of e (Signalled st) in
  (exists k, (k <= length (mEfiTimerList st))%nat /\
     forall n, (k <= n)%nat -> done_ (check_iter n now (locked st))) /\
  (forall fuel st', CoreCheckTimers fuel st = Some st' -> done_ st').
Proof.
  intros (Hnd & _ & Hs) He Hper Hdue now done_.
  apply list_elem_of_split in He as (pre & suf & Hq).
  assert (Hpre : Forall (fun x => trig st x <= trig st e) pre).
  { rewrite Hq in Hs. apply Forall_forall. intros x Hx.
    eapply (StronglySorted_app_1_elem_of _ _ _ x e) in Hs; [done|done|set_solver]. }
  pose proof (one_shot_reached now e pre (locked st) suf Hnd Hq Hpre Hdue Hper) as Hk.
  cbn zeta in Hk.
  assert (Hall : forall n, (S (length pre) <= n)%nat ->
    done_ (check_iter n now (locked st))).
  { intros n Hn. replace n with (S (length pre) + (n - S (length pre)))%nat by lia.
    rewrite check_iter_add. destruct Hk as (Hout & Hl & Hf).
    destruct (check_iter_absent (n - S (length pre)) now _ e Hout) as (? & Hm & Hf').
    unfold done_. rewrite Hm, Hf'. done. }
  split.
  - exists (S (length pre)). split; [|done].
    rewrite Hq, length_app. simpl. lia.
  - intros fuel st' [Hidle ->]%CoreCheckTimers_Some.
    change (done_ (check_iter fuel now (locked st))).
    destruct (Nat.le_gt_cases (S (length pre)) fuel) as [Hle|Hgt]; [by apply Hall|].
    specialize (Hall (fuel + (S (length pre) - fuel))%nat ltac:(lia)).
    rewrite check_iter_add, (check_iter_idle _ _ _ Hidle) in Hall. done.
Qed.

Lemma not_due st e :
  e ∈ mEfiTimerList st -> mEfiSystemTime st < trig st e ->
  (forall n,
     let st' := check_iter n (mEfiSystemTime st) (locked st) in
     (e ∈ mEfiTimerList st') /\
     fires_of e (Signalled st') = fires_of e (Signalled st)) /\
  (forall fuel st', CoreCheckTimers fuel st = Some st' ->
     (e ∈ mEfiTimerList st') /\
     fires_of e (Signalled st') = fires_of e (Signalled st)).
Proof.
  intros He Hlt.
  assert (Hall : forall n,
    let st' := check_iter n (mEfiSystemTime st) (locked st) in
    (e ∈ mEfiTimerList st') /\
    fires_of e (Signalled st') = fires_of e (Signalled st)).
  { intros n. cbn zeta.
    destruct (check_iter_pending n (mEfiSystemTime st) (locked st) e He Hlt)
      as (? & _ & ?). done. }
  split; [done|]. intros fuel st' [_ ->]%CoreCheckTimers_Some. apply Hall.
Qed.

(** ** Re-arming a periodic entry *)

Lemma boot_WF : WF boot.
Proof. apply initial_WF. split; reflexivity. Qed.

Lemma overdue_state_WF : WF overdue_state.
Proof.
  apply CoreSetTimer_WF; [unfold u64; lia|]. apply CoreTimerTick_WF, boot_WF.
Qed.

(** An entry that is due at the snapshot is signalled before the loop is
    left. *)
Lemma due_head_taken now st x :
  queue_inv st -> x ∈ mEfiTimerList st -> trig st x <= now ->
  CoreCheckTimers_body now st <> None.
Proof.
  intros (_ & _ & Hs) Hx Hdue [Hq|(h & q & Hq & Hlt)]%body_idle.
  - rewrite Hq in Hx. by apply elem_of_nil in Hx.
  - rewrite Hq in Hs, Hx. apply StronglySorted_inv in Hs as [_ Hh].
    apply elem_of_cons in Hx as [->|Hx]; [lia|].
    eapply Forall_forall in Hh; [|done]. unfold by_deadline, trig in *. lia.
Qed.

Lemma due_entry_fired now n :
  forall st x,
    queue_inv st -> x ∈ mEfiTimerList st -> trig st x <= now ->
    CoreCheckTimers_body now (check_iter n now st) = None ->
    exists L,
      fires (Signalled (check_iter n now st)) = L ++ fires (Signalled st) /\
      (x, trig st x) ∈ L.
Proof.
  induction n as [|n IH]; intros st x Hinv Hx Hdue; simpl.
  { intros Hidle. by destruct (due_head_taken now st x). }
  destruct (CoreCheckTimers_body now st) as [st1|] eqn:Hb.
  2:{ intros _. by destruct (due_head_taken now st x). }
  intros Hidle.
  destruct (body_step _ _ _ Hb) as (h & t & Hq & _ & _ & Hmem & _ & Hf & Hz & Hnz).
  destruct (decide (h = x)) as [->|Hne].
  - destruct (pass_fires_due now n st1) as (L & HL & _).
    exists (L ++ [(x, trig st x)]). split; [by rewrite HL, Hf, <- app_assoc|].
    apply elem_of_app. right. by apply list_elem_of_singleton.
  - assert (Hx1 : x ∈ mEfiTimerList st1).
    { rewrite Hq in Hx. assert (x ∈ t) by set_solver.
      destruct (Z.eq_dec (per st h) 0) as [Hp0|Hp0].
      - by destruct (Hz Hp0) as (-> & _).
      - destruct (Hnz Hp0) as (-> & _). apply insert_scan_elem_of. by right. }
    assert (Ht1 : trig st1 x = trig st x) by (unfold trig; by rewrite Hmem).
    destruct (IH st1 x) as (L & HL & HxL);
      [by eapply body_queue_inv|done|lia|done|].
    exists (L ++ [(h, trig st h)]). split; [by rewrite HL, Hf, <- app_assoc|].
    apply elem_of_app. left. by rewrite <- Ht1.
Qed.

(** In [overdue_state] the loop of CoreCheckTimers is never left. *)
Lemma overdue_loop fuel :
  forall st,
    mEfiTimerList st = [1%N] -> per st 1%N = 2 ^ 64 - 1 ->
    9 <= trig st 1%N <= 10 ->
    CoreCheckTimers_loop fuel 10 st = None.
Proof.
  induction fuel as [|fuel IH]; intros st Hq Hp Ht; [done|]. simpl.
  destruct (body_expired 10 st 1%N [] Hq) as (st1 & -> & _ & _ & _ & _ & _ & Hp1 & Hcase);
    [lia|].
  rewrite Hp in Hcase, Hp1. change (2 ^ 64 - 1 =? 0) with false in Hcase.
  destruct Hcase as (Ht1 & _ & Hq1 & _). apply IH; [done|done|].
  rewrite Ht1. unfold rearm_deadline, wrap64.
  assert (trig st 1%N = 9 \/ trig st 1%N = 10) as [-> | ->] by lia;
    vm_compute; split; discriminate.
Qed.

(** C1 as stated fails when the period is so large that the new deadline
    wraps around: in one pass over [overdue_state] the entry is signalled
    for the deadline 10 again and again, and the pass never ends. *)
Lemma C1_counterexample :
  WF overdue_state /\
  mEfiSystemTime overdue_state = 10 /\
  mEfiTimerList overdue_state = [1%N] /\
  per overdue_state 1%N <> 0 /\
  fires (Signalled (check_iter 3 10 (locked overdue_state))) =
    [(1%N, 10); (1%N, 10); (1%N, 9)] /\
  ~ NoDup (fires (Signalled (check_iter 3 10 (locked overdue_state)))) /\
  forall fuel, CoreCheckTimers fuel overdue_state = None.
Proof.
  split; [apply overdue_state_WF|]. split; [by vm_compute|]. split; [by vm_compute|].
  split; [by vm_compute|].
  assert (Hf : fires (Signalled (check_iter 3 10 (locked overdue_state))) =
               [(1%N, 10); (1%N, 10); (1%N, 9)]) by (vm_compute; reflexivity).
  split; [exact Hf|]. split.
  - rewrite Hf. intros Hnd. apply NoDup_cons in Hnd as [Hn _]. apply Hn. by left.
  - intros fuel. unfold CoreCheckTimers.
    change (CoreCurrentSystemTime _) with (10, locked overdue_state). cbn iota beta.
    rewrite overdue_loop; [done|by vm_compute|by vm_compute|by vm_compute].
Qed.

(** C1, amended.  When the loop of CoreCheckTimers takes an expired head
    with a nonzero period off the list, it signals it and links it again with
    the deadline old deadline + period, computed in 64 bits (not snapshot +
    period); when that sum is not after the snapshot of the clock, the
    deadline is the snapshot instead and CoreCheckTimers is requested to run
    again.  Provided snapshot + period stays below 2^64 for the entries of
    the list, the 64-bit sum is the exact sum and within one pass no entry is
    signalled twice for the same deadline; an entry whose deadline was set
    to the snapshot is signalled a second time, for the snapshot, before the
    loop is left. *)
Theorem C1_periodic_rearm (now : Z) (st : state) (h : EFI_EVENT) (t : list EFI_EVENT) :
  WF st -> u64 now -> mEfiTimerList st = h :: t ->
  trig st h <= now -> per st h <> 0 ->
  exists st',
    CoreCheckTimers_body now st = Some st' /\
    h ∈ mEfiTimerList st' /\
    per st' h = per st h /\
    (now < wrap64 (trig st h + per st h) ->
     trig st' h = wrap64 (trig st h + per st h) /\
     Signalled st' = SigTimer h (trig st h) :: Signalled st) /\
    (wrap64 (trig st h + per st h) <= now ->
     trig st' h = now /\
     Signalled st' = SigCheckTimers :: SigTimer h (trig st h) :: Signalled st /\
     forall fuel st2,
       CoreCheckTimers_loop fuel now st = Some st2 ->
       exists L,
         fires (Signalled st2) = L ++ fires (Signalled st) /\
         (h, trig st h) ∈ L /\ (h, now) ∈ L) /\
    (no_wrap now st ->
     wrap64 (trig st h + per st h) = trig st h + per st h /\
     forall n, exists L,
       fires (Signalled (check_iter n now st)) = L ++ fires (Signalled st) /\
       NoDup L /\
       forall x d, (x, d) ∈ L -> d <= now).
Proof.
  intros Hst Hnow Hq Hdue Hper.
  destruct (body_expired now st h t Hq Hdue)
    as (st' & Hb & _ & _ & _ & _ & _ & Hp' & Hcase).
  exists st'. split; [done|].
  destruct (Z.eqb_spec (per st h) 0) as [|_]; [done|].
  destruct Hcase as (Ht' & _ & Hq' & Hsig).
  split; [rewrite Hq'; apply insert_scan_elem_of; by left|]. split; [done|].
  unfold rearm_deadline in Ht'.
  split; [|split].
  - intros Hlt. destruct (Z.leb_spec (wrap64 (trig st h + per st h)) now); [lia|].
    done.
  - intros Hle. destruct (Z.leb_spec (wrap64 (trig st h + per st h)) now); [|lia].
    split; [done|]. split; [done|]. intros fuel st2 Hloop.
    destruct fuel as [|fuel]; [done|]. simpl in Hloop. rewrite Hb in Hloop.
    apply loop_iter in Hloop as [-> Hidle].
    assert (Hh' : h ∈ mEfiTimerList st')
      by (rewrite Hq'; apply insert_scan_elem_of; by left).
    destruct (due_entry_fired now fuel st' h) as (L & HL & HhL);
      [by eapply body_queue_inv, Hb; apply Hst|done|lia|done|].
    destruct (body_step _ _ _ Hb) as (h' & t' & Hq2 & _ & _ & _ & _ & Hf & _).
    assert (h' = h) as -> by congruence.
    exists (L ++ [(h, trig st h)]). split; [by rewrite HL, Hf, <- app_assoc|].
    split; apply elem_of_app; [right; by apply list_elem_of_singleton|left].
    by rewrite <- Ht'.
  - intros Hnw. split.
    + destruct Hst as [_ [Hr _]]. unfold no_wrap in Hnw. rewrite Hq in Hr, Hnw.
      apply Forall_cons in Hr as [[HT HP] _]. apply Forall_cons in Hnw as [Hnwh _].
      by destruct (rearm_no_wrap now (trig st h) (per st h)) as (? & _).
    + intros n. destruct (pass_fires_distinct now n st Hst Hnow Hnw)
        as (L & HL & Hnd & Hin).
      exists L. split; [done|]. split; [done|].
      intros x d Hx. destruct (Hin x d Hx) as [_ ?]. lia.
Qed.

Lemma late_state_WF : WF late_state.
Proof.
  apply CoreTimerTick_WF, CoreSetTimer_WF; [unfold u64; lia|apply boot_WF].
Qed.

Lemma C1_witness :
  WF late_state /\ u64 20 /\ mEfiTimerList late_state = [1%N] /\
  trig late_state 1%N <= 20 /\ per late_state 1%N <> 0 /\
  exists st',
    CoreCheckTimers_body 20 late_state = Some st' /\
    trig st' 1%N = 20 /\
    Signalled st' =
      SigCheckTimers :: SigTimer 1%N (trig late_state 1%N) :: Signalled late_state.
Proof.
  assert (H1 : u64 20) by (unfold u64; lia).
  assert (H2 : mEfiTimerList late_state = [1%N]) by (vm_compute; reflexivity).
  assert (H3 : trig late_state 1%N <= 20) by (vm_compute; discriminate).
  assert (H4 : per late_state 1%N <> 0) by (vm_compute; discriminate).
  do 5 (split; [first [apply late_state_WF|done]|]).
  destruct (C1_periodic_rearm 20 late_state 1%N [] late_state_WF H1 H2 H3 H4)
    as (st' & Hb & _ & _ & _ & Hclamp & _).
  exists st'. split; [exact Hb|].
  destruct Hclamp as (Ht & Hs & _); [vm_compute; discriminate|]. by split.
Defined.

(** ** Arming *)

(** What arming does, for a handle CoreSetTimer accepts. *)
Lemma CoreSetTimer_armed e ty t st :
  queue_inv st -> timer_event st e -> ty = TimerPeriodic \/ ty = TimerRelative ->
  exists st',
    CoreSetTimer e ty t st = (EFI_SUCCESS, st') /\
    queue_inv st' /\
    mEfiSystemTime st' = mEfiSystemTime st /\
    (e ∈ mEfiTimerList st') /\
    trig st' e = wrap64 (mEfiSystemTime st + t) /\
    per st' e = (if ty =? TimerPeriodic then t else 0) /\
    Signalled st' = (if t =? 0 then [SigCheckTimers] else []) ++ Signalled st.
Proof.
  intros Hinv (Hn & Hsig & Hty) Hk.
  destruct (CoreSetTimer e ty t st) as [s st'] eqn:Heq.
  pose proof (CoreSetTimer_queue_inv e ty t st Hinv) as Hinv'. rewrite Heq in Hinv'.
  destruct (CoreSetTimer_cases _ _ _ _ _ _ Heq)
    as [(_ & _ & Hbad)|(-> & _ & _ & Hti & _ & _ & _ & Hcase)].
  { exfalso. unfold valid_kind in Hbad. naive_solver. }
  cbn zeta in Hcase.
  assert ((ty =? TimerCancel) = false) as Hc.
  { apply Z.eqb_neq. unfold TimerCancel, TimerPeriodic, TimerRelative in *. lia. }
  rewrite Hc in Hcase. destruct Hcase as (? & ? & _ & Hq & ? & _).
  exists st'. repeat split; try done; try apply Hinv'.
  rewrite Hq. apply insert_scan_elem_of. by left.
Qed.

(** ** The expiry pass and one-shot timers *)

Lemma body_one_shot now st st' e D past :
  queue_inv st -> CoreCheckTimers_body now st = Some st' ->
  one_shot_state e D past st -> one_shot_state e D past st'.
Proof.
  intros Hinv Hb [(He & Hp & Ht & Hf)|(He & Hf)].
  - destruct (body_step _ _ _ Hb)
      as (h & t & Hq & _ & _ & Hmem & _ & Hfs & Hz & Hnz).
    unfold queue_inv in Hinv. rewrite Hq in Hinv, He.
    apply qinv_tail in Hinv as [Hht _].
    destruct (decide (h = e)) as [->|Hne].
    + right. destruct (Hz Hp) as (-> & _). split; [done|].
      unfold fires_of in *. rewrite Hfs, fires_of_cons, decide_True by done.
      by rewrite Ht, Hf.
    + left. assert (e ∈ t) by set_solver.
      unfold per, trig, fires_of in *. rewrite Hmem by done.
      rewrite Hfs, fires_of_cons, decide_False by done.
      split; [|done]. destruct (Z.eq_dec (Period (Memory st h)) 0) as [Hp0|Hp0].
      * by destruct (Hz Hp0) as (-> & _).
      * destruct (Hnz Hp0) as (-> & _). apply insert_scan_elem_of. by right.
  - right. destruct (body_absent _ _ _ _ Hb He) as (? & _ & ->). done.
Qed.

Lemma check_iter_one_shot n now st e D past :
  queue_inv st -> one_shot_state e D past st ->
  one_shot_state e D past (check_iter n now st).
Proof.
  revert st. induction n as [|n IH]; intros st Hinv HJ; simpl; [done|].
  destruct (CoreCheckTimers_body now st) as [st1|] eqn:Hb; [|done].
  apply IH; [by eapply body_queue_inv|by eapply body_one_shot].
Qed.

Lemma exec_one_shot c st st' e D past :
  spares e c -> queue_inv st -> exec c st = Some st' ->
  one_shot_state e D past st -> one_shot_state e D past st'.
Proof.
  intros Hsp Hinv Hex HJ. destruct c as [e' ty t|d|fuel]; simpl in *.
  - assert (st' = snd (CoreSetTimer e' ty t st)) as -> by congruence.
    destruct (CoreSetTimer_spares e e' ty t st Hsp) as (Hm & Hq & Hf).
    unfold one_shot_state, per, trig, fires_of in *. by rewrite Hm, Hq, Hf.
  - assert (st' = CoreTimerTick d st) as -> by congruence.
    destruct (CoreTimerTick_fields d st) as (Hm & Hq & _ & Hf & _).
    unfold one_shot_state, per, trig, fires_of in *. by rewrite Hm, Hq, Hf.
  - apply CoreCheckTimers_Some in Hex as [_ ->].
    change (one_shot_state e D past (check_iter fuel (mEfiSystemTime st) (locked st))).
    by apply check_iter_one_shot.
Qed.

Lemma run_one_shot cs st st' e D past :
  Forall (spares e) cs -> queue_inv st -> run cs st = Some st' ->
  one_shot_state e D past st -> one_shot_state e D past st'.
Proof.
  intros Hcs. revert st. induction Hcs as [|c cs Hc Hcs IH]; intros st Hinv; simpl.
  - by intros [= <-].
  - destruct (exec c st) as [st1|] eqn:He; [|done]. intros Hrun HJ.
    eapply IH; [by eapply exec_queue_inv|done|by eapply exec_one_shot].
Qed.

Lemma exec_time_u64 c st st' :
  u64 (mEfiSystemTime st) -> exec c st = Some st' -> u64 (mEfiSystemTime st').
Proof.
  intros Ht Hex. destruct c as [e ty t|d|fuel]; simpl in *.
  - destruct (CoreSetTimer e ty t st) as [s st1] eqn:Heq. simpl in Hex.
    assert (st1 = st') as -> by congruence.
    by apply CoreSetTimer_cases in Heq
      as [(_ & -> & _)|(_ & _ & _ & -> & _)].
  - assert (st' = CoreTimerTick d st) as -> by congruence.
    destruct (CoreTimerTick_fields d st) as (_ & _ & -> & _). apply wrap64_u64.
  - apply CoreCheckTimers_Some in Hex as [_ ->].
    change (u64 (mEfiSystemTime (check_iter fuel (mEfiSystemTime st) (locked st)))).
    by destruct (check_iter_time fuel (mEfiSystemTime st) (locked st)) as [-> _].
Qed.

Lemma run_time_u64 cs st st' :
  u64 (mEfiSystemTime st) -> run cs st = Some st' -> u64 (mEfiSystemTime st').
Proof.
  revert st. induction cs as [|c cs IH]; intros st Ht; simpl.
  - by intros [= <-].
  - destruct (exec c st) as [st1|] eqn:He; [|done].
    eapply IH, exec_time_u64; eauto.
Qed.

Lemma elapsed_cons c cs : elapsed (c :: cs) = duration c + elapsed cs.
Proof. reflexivity. Qed.

Lemma duration_nonneg c : arg_ok c -> 0 <= duration c.
Proof. destruct c; simpl; unfold u64; lia. Qed.

Lemma elapsed_nonneg cs : Forall arg_ok cs -> 0 <= elapsed cs.
Proof.
  induction 1 as [|c cs Hc _ IH]; [unfold elapsed; simpl; lia|].
  rewrite elapsed_cons. apply duration_nonneg in Hc. lia.
Qed.

Lemma exec_clock c st st' :
  u64 (mEfiSystemTime st) -> exec c st = Some st' ->
  mEfiSystemTime st' = wrap64 (mEfiSystemTime st + duration c).
Proof.
  intros Ht Hex. destruct c as [e ty t|d|fuel]; simpl in *.
  - rewrite Z.add_0_r, wrap64_small by done.
    destruct (CoreSetTimer e ty t st) as [s st1] eqn:Heq. simpl in Hex.
    assert (st1 = st') as -> by congruence.
    by apply CoreSetTimer_cases in Heq
      as [(_ & -> & _)|(_ & _ & _ & -> & _)].
  - assert (st' = CoreTimerTick d st) as -> by congruence.
    by destruct (CoreTimerTick_fields d st) as (_ & _ & -> & _).
  - rewrite Z.add_0_r, wrap64_small by done.
    apply CoreCheckTimers_Some in Hex as [_ ->].
    change (mEfiSystemTime (check_iter fuel (mEfiSystemTime st) (locked st)) =
            mEfiSystemTime st).
    by destruct (check_iter_time fuel (mEfiSystemTime st) (locked st)) as [-> _].
Qed.

(** The clock after a sequence of calls is the clock before it plus the
    durations of the ticks, in 64 bits. *)
Lemma run_clock cs st st' :
  u64 (mEfiSystemTime st) -> run cs st = Some st' ->
  mEfiSystemTime st' = wrap64 (mEfiSystemTime st + elapsed cs).
Proof.
  revert st. induction cs as [|c cs IH]; intros st Ht Hrun; simpl in Hrun.
  - assert (st' = st) as -> by congruence.
    unfold elapsed. simpl. by rewrite Z.add_0_r, wrap64_small.
  - destruct (exec c st) as [st1|] eqn:He; [|done].
    rewrite (IH st1), (exec_clock _ _ _ Ht He), elapsed_cons;
      [|by eapply exec_time_u64|done].
    unfold wrap64. rewrite Zplus_mod_idemp_l. f_equal. lia.
Qed.

(** As long as the clock, without wrapping around, stays before the deadline
    of an entry, calls that spare the entry leave it on the list, unchanged
    and not signalled. *)
Lemma run_pending cs st st' e :
  Forall (spares e) cs -> Forall arg_ok cs -> run cs st = Some st' ->
  u64 (mEfiSystemTime st) -> e ∈ mEfiTimerList st ->
  mEfiSystemTime st + elapsed cs < trig st e -> trig st e <= 2 ^ 64 ->
  (e ∈ mEfiTimerList st') /\ Memory st' e = Memory st e /\
  fires_of e (Signalled st') = fires_of e (Signalled st).
Proof.
  intros Hsp. revert st.
  induction Hsp as [|c cs Hc Hcs IH]; intros st Hok Hrun Ht He Hlt Hmax;
    simpl in Hrun.
  - by assert (st' = st) as -> by congruence.
  - apply Forall_cons in Hok as [Hokc Hok].
    destruct (exec c st) as [st1|] eqn:Hex; [|done].
    rewrite elapsed_cons in Hlt.
    pose proof (elapsed_nonneg cs Hok) as Hpos.
    pose proof (duration_nonneg c Hokc) as Hd.
    pose proof (exec_clock _ _ _ Ht Hex) as Hclk.
    rewrite wrap64_small in Hclk by (unfold u64 in *; lia).
    assert (Hstep : (e ∈ mEfiTimerList st1) /\ Memory st1 e = Memory st e /\
                    fires_of e (Signalled st1) = fires_of e (Signalled st)).
    { destruct c as [e' ty t|d|fuel]; simpl in Hex, Hc.
      - assert (st1 = snd (CoreSetTimer e' ty t st)) as -> by congruence.
        destruct (CoreSetTimer_spares e e' ty t st Hc) as (Hm & Hq & Hf).
        unfold fires_of. rewrite Hf. split; [by apply Hq|done].
      - assert (st1 = CoreTimerTick d st) as -> by congruence.
        destruct (CoreTimerTick_fields d st) as (Hm & Hq & _ & Hf & _).
        unfold fires_of. by rewrite Hm, Hq, Hf.
      - apply CoreCheckTimers_Some in Hex as [_ ->].
        apply (check_iter_pending fuel (mEfiSystemTime st) (locked st) e);
          [done|]. change (trig (locked st) e) with (trig st e). lia. }
    destruct Hstep as (He1 & Hm1 & Hf1).
    assert (Ht1 : trig st1 e = trig st e) by (unfold trig; by rewrite Hm1).
    destruct (IH st1) as (? & Hm2 & Hf2); try done.
    + rewrite Hclk. unfold u64 in *. lia.
    + rewrite Ht1, Hclk. lia.
    + by rewrite Ht1.
    + by rewrite Hm2, Hm1, Hf2, Hf1.
Qed.

Lemma early_state_WF : WF (CoreTimerTick 10 boot).
Proof. apply CoreTimerTick_WF, boot_WF. Qed.

(** C5 as stated fails on both 64-bit additions.  The deadline: armed at
    time 10 with Relative and 2^64 - 1, the event gets the deadline 9, and a
    run of CoreCheckTimers started at once, the clock still at 10, signals it
    and takes it off the list.  The clock: armed at time 0 with Relative and
    100, after ticks of 2^64 - 1 and 1 the clock reads 0, and a run neither
    signals the event nor takes it off the list, although far more than 100
    units have passed. *)
Lemma C5_counterexample :
  (WF (CoreTimerTick 10 boot) /\ timer_event (CoreTimerTick 10 boot) 1%N /\
   u64 (2 ^ 64 - 1) /\
   CoreSetTimer 1%N TimerRelative (2 ^ 64 - 1) (CoreTimerTick 10 boot) =
     (EFI_SUCCESS, early_state) /\
   mEfiSystemTime early_state = 10 /\
   mEfiSystemTime early_state < 10 + (2 ^ 64 - 1) /\
   times_signalled 1%N early_state = 0%nat /\
   exists st3,
     CoreCheckTimers 5 early_state = Some st3 /\
     mEfiTimerList st3 = [] /\
     fires (Signalled st3) = [(1%N, 9)]) /\
  (WF boot /\ timer_event boot 1%N /\ u64 100 /\
   CoreSetTimer 1%N TimerRelative 100 boot = (EFI_SUCCESS, armed_state) /\
   Forall (spares 1%N) round_ticks /\ Forall arg_ok round_ticks /\
   run round_ticks armed_state = Some round_state /\
   100 <= elapsed round_ticks /\
   mEfiSystemTime round_state = 0 /\
   exists st3,
     CoreCheckTimers 5 round_state = Some st3 /\
     mEfiTimerList st3 = [1%N] /\
     fires (Signalled st3) = []).
Proof.
  split.
  - split; [apply early_state_WF|]. split; [by vm_compute|].
    split; [unfold u64; lia|]. split; [reflexivity|].
    split; [by vm_compute|]. split; [by vm_compute|]. split; [by vm_compute|].
    destruct (CoreCheckTimers 5 early_state) as [st3|] eqn:Hrun;
      [|by vm_compute in Hrun].
    exists st3. split; [done|].
    assert (H1 : mEfiTimerList <$> CoreCheckTimers 5 early_state = Some [])
      by (vm_compute; reflexivity).
    assert (H2 : fires ∘ Signalled <$> CoreCheckTimers 5 early_state =
                 Some [(1%N, 9)]) by (vm_compute; reflexivity).
    rewrite Hrun in H1, H2. simpl in H1, H2. split; congruence.
  - split; [apply boot_WF|]. split; [by vm_compute|].
    split; [unfold u64; lia|]. split; [reflexivity|].
    split; [repeat constructor|]. split; [repeat constructor; unfold u64; lia|].
    split; [reflexivity|]. split; [by vm_compute|]. split; [by vm_compute|].
    destruct (CoreCheckTimers 5 round_state) as [st3|] eqn:Hrun;
      [|by vm_compute in Hrun].
    exists st3. split; [done|].
    assert (H1 : mEfiTimerList <$> CoreCheckTimers 5 round_state = Some [1%N])
      by (vm_compute; reflexivity).
    assert (H2 : fires ∘ Signalled <$> CoreCheckTimers 5 round_state = Some [])
      by (vm_compute; reflexivity).
    rewrite Hrun in H1, H2. simpl in H1, H2. split; congruence.
Qed.

(** C5, amended.  A run of CoreCheckTimers that returns has taken the clock
    lock (read the clock) once, has run its loop on that snapshot until the
    list was empty or its head was due after the snapshot, and has only
    signalled deadlines not after the snapshot; each iteration takes a head
    that is not after the snapshot off the list and signals it; the run
    returns whenever no re-armed deadline wraps around.  Consequently, for an
    event armed with Relative and [t], of any size, whatever calls follow
    that are not a CoreSetTimer on the event itself: its deadline is arm
    time + [t] computed in 64 bits, and the clock reads arm time + the
    durations of the ticks since, computed in 64 bits; the event is either
    still on the list and not signalled since, or off the list and signalled
    exactly once since; in a run of CoreCheckTimers started when the clock
    reads at least the deadline, from some iteration on and when the run
    returns, the event has been signalled exactly once, for that deadline,
    and is off the list; in a run started when the clock reads less, an event
    still on the list is not signalled and stays there.  Provided neither
    arm time + [t] nor arm time + the durations of the ticks reaches 2^64:
    the deadline is arm time + [t] and the clock reads the time passed
    exactly; before [t] units have passed the event is on the list and has
    not been signalled, also not by a run started then; once [t] units have
    passed, a run signals it, exactly once in all, and leaves it off the
    list. *)
Theorem C5_expiry_pass_one_shot
    (st0 : state) (e : EFI_EVENT) (t : Z) (cs : list call) :
  WF st0 -> timer_event st0 e -> u64 t -> Forall (spares e) cs ->
  (forall st fuel st',
     CoreCheckTimers fuel st = Some st' ->
     st' = CoreReleaseLock mEfiTimerLock
             (check_iter fuel (mEfiSystemTime st) (locked st)) /\
     LockTrace st' =
       [Release mEfiTimerLock; Release mEfiSystemTimeLock;
        Acquire mEfiSystemTimeLock; Acquire mEfiTimerLock] ++ LockTrace st /\
     (mEfiTimerList st' = [] \/
      exists h q, mEfiTimerList st' = h :: q /\ mEfiSystemTime st < trig st' h) /\
     exists L,
       fires (Signalled st') = L ++ fires (Signalled st) /\
       forall x d, (x, d) ∈ L -> d <= mEfiSystemTime st) /\
  (forall now st h q,
     mEfiTimerList st = h :: q -> trig st h <= now ->
     exists st',
       CoreCheckTimers_body now st = Some st' /\
       fires (Signalled st') = (h, trig st h) :: fires (Signalled st) /\
       (per st h = 0 -> mEfiTimerList st' = q)) /\
  (forall st,
     WF st -> no_wrap (mEfiSystemTime st) st ->
     is_Some (CoreCheckTimers (2 * length (mEfiTimerList st) + 1) st)) /\
  exists st1,
    CoreSetTimer e TimerRelative t st0 = (EFI_SUCCESS, st1) /\
    (e ∈ mEfiTimerList st1) /\
    trig st1 e = wrap64 (mEfiSystemTime st0 + t) /\ per st1 e = 0 /\
    times_signalled e st1 = times_signalled e st0 /\
    forall st2,
      run cs st1 = Some st2 ->
      let deadline := wrap64 (mEfiSystemTime st0 + t) in
      let now := mEfiSystemTime st2 in
      let fired s :=
        (e ∉ mEfiTimerList s) /\
        fires_of e (Signalled s) = (e, deadline) :: fires_of e (Signalled st0) in
      let pending s :=
        (e ∈ mEfiTimerList s) /\ times_signalled e s = times_signalled e st0 in
      let fires_in_run :=
        (exists k, (k <= length (mEfiTimerList st2))%nat /\
           forall n, (k <= n)%nat -> fired (check_iter n now (locked st2))) /\
        (forall fuel st3,
           CoreCheckTimers fuel st2 = Some st3 ->
           fired st3 /\ times_signalled e st3 = S (times_signalled e st0)) in
      let kept_in_run :=
        (forall n, pending (check_iter n now (locked st2))) /\
        (forall fuel st3, CoreCheckTimers fuel st2 = Some st3 -> pending st3) in
      now = wrap64 (mEfiSystemTime st0 + elapsed cs) /\
      one_shot_state e deadline (fires_of e (Signalled st0)) st2 /\
      (times_signalled e st2 <= S (times_signalled e st0))%nat /\
      (deadline <= now -> fires_in_run) /\
      (now < deadline -> e ∈ mEfiTimerList st2 -> kept_in_run) /\
      (mEfiSystemTime st0 + t < 2 ^ 64 ->
       mEfiSystemTime st0 + elapsed cs < 2 ^ 64 -> Forall arg_ok cs ->
       deadline = mEfiSystemTime st0 + t /\
       now = mEfiSystemTime st0 + elapsed cs /\
       (elapsed cs < t -> pending st2 /\ kept_in_run) /\
       (t <= elapsed cs -> fires_in_run)).
Proof.
  intros Hst0 Hev Ht Hcs. split; [|split; [|split; [|]]].
  - intros st fuel st' Hrun.
    pose proof (CoreCheckTimers_Some _ _ _ Hrun) as [Hidle ->]. split; [done|].
    change (LockTrace (CoreReleaseLock mEfiTimerLock ?s))
      with (Release mEfiTimerLock :: LockTrace s).
    change (mEfiTimerList (CoreReleaseLock mEfiTimerLock ?s)) with (mEfiTimerList s).
    change (Signalled (CoreReleaseLock mEfiTimerLock ?s)) with (Signalled s).
    change (trig (CoreReleaseLock mEfiTimerLock ?s)) with (trig s).
    destruct (check_iter_time fuel (mEfiSystemTime st) (locked st)) as [_ ->].
    split; [done|]. split; [by apply body_idle|].
    apply (pass_fires_due (mEfiSystemTime st) fuel (locked st)).
  - intros now st h q Hq Hdue.
    destruct (body_expired now st h q Hq Hdue) as (st' & Hb & _).
    exists st'. split; [done|].
    destruct (body_step _ _ _ Hb) as (h' & q' & Hq' & _ & _ & _ & _ & Hf & Hz & _).
    assert (h' = h /\ q' = q) as [-> ->] by (split; congruence).
    split; [done|]. intros Hp. by destruct (Hz Hp).
  - apply CoreCheckTimers_terminates.
  - destruct (CoreSetTimer_armed e TimerRelative t st0 (proj1 Hst0) Hev)
      as (st1 & Heq & Hinv1 & Hti1 & He1 & Htr1 & Hpe1 & Hsig1); [by right|].
    change (TimerRelative =? TimerPeriodic) with false in Hpe1.
    assert (HT0 : u64 (mEfiSystemTime st0)) by apply Hst0.
    assert (Hfe : fires_of e (Signalled st1) = fires_of e (Signalled st0)).
    { rewrite Hsig1. by destruct (t =? 0). }
    exists st1. split; [done|].
    do 3 (split; [done|]). split; [unfold times_signalled; by rewrite Hfe|].
    intros st2 Hrun deadline now fired pending fires_in_run kept_in_run.
    assert (HJ1 : one_shot_state e deadline (fires_of e (Signalled st0)) st1)
      by by left.
    pose proof (run_one_shot _ _ _ _ _ _ Hcs Hinv1 Hrun HJ1) as HJ2.
    pose proof (run_queue_inv _ _ _ Hinv1 Hrun) as Hinv2.
    assert (Hclock : now = wrap64 (mEfiSystemTime st0 + elapsed cs)).
    { unfold now. rewrite <- Hti1. apply run_clock; [by rewrite Hti1|done]. }
    assert (Hdue : deadline <= now -> fires_in_run).
    { intros Hdue. destruct HJ2 as [(He2 & Hp2 & Ht2 & Hf2)|(He2 & Hf2)].
      - destruct (due_one_shot st2 e Hinv2 He2 Hp2) as [(k & Hk & Hall) Hret].
        { rewrite Ht2. exact Hdue. }
        rewrite Ht2, Hf2 in Hall, Hret. split.
        + exists k. split; [done|]. intros n Hn.
          destruct (Hall n Hn) as (? & _ & ?). done.
        + intros fuel st3 Hrun3. destruct (Hret fuel st3 Hrun3) as (? & _ & Hf3).
          split; [done|]. unfold times_signalled. by rewrite Hf3.
      - split.
        + exists 0%nat. split; [lia|]. intros n _.
          destruct (check_iter_absent n now (locked st2) e He2) as (? & _ & Hf3).
          split; [done|]. by rewrite Hf3.
        + intros fuel st3 [_ ->]%CoreCheckTimers_Some.
          destruct (check_iter_absent fuel now (locked st2) e He2) as (? & _ & Hf3).
          unfold fired, times_signalled.
          change (mEfiTimerList (CoreReleaseLock mEfiTimerLock ?s))
            with (mEfiTimerList s).
          change (Signalled (CoreReleaseLock mEfiTimerLock ?s)) with (Signalled s).
          fold now. rewrite Hf3. change (Signalled (locked st2)) with (Signalled st2).
          by rewrite Hf2. }
    assert (Hkept : now < deadline -> e ∈ mEfiTimerList st2 -> kept_in_run).
    { intros Hearly He2.
      destruct HJ2 as [(_ & Hp2 & Ht2 & Hf2)|(He2' & _)]; [|done].
      destruct (not_due st2 e He2) as [Hall Hret]; [by rewrite Ht2|].
      unfold kept_in_run, pending, times_signalled, now. split.
      - intros n. destruct (Hall n) as [? Hf3]. by rewrite Hf3, Hf2.
      - intros fuel st3 Hrun3. destruct (Hret fuel st3 Hrun3) as [? Hf3].
        by rewrite Hf3, Hf2. }
    split; [done|]. split; [done|]. split.
    { unfold times_signalled.
      destruct HJ2 as [(_ & _ & _ & ->)|(_ & ->)]; simpl; lia. }
    split; [done|]. split; [done|].
    intros Hfit Hfit' Hok.
    pose proof (elapsed_nonneg cs Hok) as Hpos.
    assert (HD : deadline = mEfiSystemTime st0 + t).
    { apply wrap64_small. unfold u64 in *. lia. }
    assert (HN : now = mEfiSystemTime st0 + elapsed cs).
    { rewrite Hclock. apply wrap64_small. unfold u64 in *. lia. }
    split; [done|]. split; [done|]. split.
    + intros Hbefore.
      destruct (run_pending cs st1 st2 e Hcs Hok Hrun) as (He2 & _ & Hf2).
      * by rewrite Hti1.
      * done.
      * rewrite Htr1, Hti1. fold deadline. lia.
      * rewrite Htr1. pose proof (wrap64_u64 (mEfiSystemTime st0 + t)) as Hu.
        unfold u64 in Hu. lia.
      * split.
        -- unfold pending, times_signalled. by rewrite Hf2, Hfe.
        -- apply Hkept; [lia|done].
    + intros Hafter. apply Hdue. lia.
Qed.

Lemma C5_witness :
  let cs := [SetTimer 2%N TimerRelative 50; TimerTick 60; CheckTimers 5;
             TimerTick 41] in
  WF boot /\ timer_event boot 1%N /\ u64 100 /\ Forall (spares 1%N) cs /\
  mEfiSystemTime boot + 100 < 2 ^ 64 /\
  mEfiSystemTime boot + elapsed cs < 2 ^ 64 /\ Forall arg_ok cs /\
  100 <= elapsed cs /\
  exists st2,
    run cs armed_state = Some st2 /\
    mEfiSystemTime st2 = 101 /\
    forall fuel st3,
      CoreCheckTimers fuel st2 = Some st3 ->
      (1%N ∉ mEfiTimerList st3) /\
      fires_of 1%N (Signalled st3) = [(1%N, 100)] /\
      times_signalled 1%N st3 = 1%nat.
Proof.
  cbn zeta.
  set (cs := [SetTimer 2%N TimerRelative 50; TimerTick 60; CheckTimers 5;
              TimerTick 41]).
  assert (H1 : timer_event boot 1%N) by (repeat split; done).
  assert (H2 : u64 100) by (unfold u64; lia).
  assert (H3 : Forall (spares 1%N) cs) by (repeat constructor; done).
  assert (H4 : mEfiSystemTime boot + 100 < 2 ^ 64) by (vm_compute; reflexivity).
  assert (H5 : mEfiSystemTime boot + elapsed cs < 2 ^ 64)
    by (vm_compute; reflexivity).
  assert (H6 : Forall arg_ok cs) by (repeat constructor; unfold u64; lia).
  assert (H7 : 100 <= elapsed cs) by (vm_compute; discriminate).
  do 7 (split; [first [exact boot_WF|done]|]). split; [done|].
  destruct (C5_expiry_pass_one_shot boot 1%N 100 cs boot_WF H1 H2 H3)
    as (_ & _ & _ & st1 & Heq & _ & _ & _ & _ & Hall).
  assert (st1 = armed_state) as ->.
  { change st1 with (snd (EFI_SUCCESS, st1)). by rewrite <- Heq. }
  destruct (run cs armed_state) as [st2|] eqn:Hrun; [|by vm_compute in Hrun].
  exists st2. split; [done|].
  destruct (Hall st2 eq_refl) as (_ & _ & _ & _ & _ & Hfit).
  destruct (Hfit H4 H5 H6) as (_ & Hnow & _ & Hfire).
  split; [rewrite Hnow; by vm_compute|].
  intros fuel st3 Hrun3.
  destruct (proj2 (Hfire H7) fuel st3 Hrun3) as ((Hout & Hf) & Hn).
  split; [done|]. split; [exact Hf|exact Hn].
Defined.

(** ** Zero delay *)

(** C9.  A CoreSetTimer that arms an event (Periodic or Relative) with a
    trigger time of zero signals mEfiCheckTimerEvent, and with any other
    trigger time it does not.  After CoreSetTimer (e, Relative, 0), in the run of
    CoreCheckTimers that follows without any tick, from some iteration on
    and when the run returns, [e] has been signalled exactly once more and is
    off the list; that run returns whenever no re-armed deadline wraps
    around. *)
Theorem C9_zero_delay (st0 : state) (e : EFI_EVENT) (ty : Z) :
  WF st0 -> timer_event st0 e -> ty = TimerPeriodic \/ ty = TimerRelative ->
  (forall t, t <> 0 ->
     Signalled (snd (CoreSetTimer e ty t st0)) = Signalled st0) /\
  (exists st1,
     CoreSetTimer e ty 0 st0 = (EFI_SUCCESS, st1) /\
     Signalled st1 = SigCheckTimers :: Signalled st0) /\
  exists st1,
    CoreSetTimer e TimerRelative 0 st0 = (EFI_SUCCESS, st1) /\
    Signalled st1 = SigCheckTimers :: Signalled st0 /\
    (e ∈ mEfiTimerList st1) /\
    mEfiSystemTime st1 = mEfiSystemTime st0 /\
    trig st1 e = mEfiSystemTime st0 /\
    (exists k, (k <= length (mEfiTimerList st1))%nat /\
       forall n, (k <= n)%nat ->
         (e ∉ mEfiTimerList (check_iter n (mEfiSystemTime st1) (locked st1))) /\
         times_signalled e (check_iter n (mEfiSystemTime st1) (locked st1)) =
           S (times_signalled e st0)) /\
    (forall fuel st2,
       CoreCheckTimers fuel st1 = Some st2 ->
       (e ∉ mEfiTimerList st2) /\
       fires_of e (Signalled st2) =
         (e, mEfiSystemTime st0) :: fires_of e (Signalled st0) /\
       times_signalled e st2 = S (times_signalled e st0)) /\
    (no_wrap (mEfiSystemTime st1) st1 ->
     is_Some (CoreCheckTimers (2 * length (mEfiTimerList st1) + 1) st1)).
Proof.
  intros Hst0 Hev Hty.
  assert (HT0 : u64 (mEfiSystemTime st0)) by apply Hst0.
  split; [|split].
  - intros t Hnz.
    destruct (CoreSetTimer_armed e ty t st0 (proj1 Hst0) Hev Hty)
      as (st1 & Heq & _ & _ & _ & _ & _ & Hsig).
    rewrite Heq. simpl. rewrite Hsig. apply Z.eqb_neq in Hnz. by rewrite Hnz.
  - destruct (CoreSetTimer_armed e ty 0 st0 (proj1 Hst0) Hev Hty)
      as (st1 & Heq & _ & _ & _ & _ & _ & Hsig).
    by exists st1.
  - destruct (CoreSetTimer_armed e TimerRelative 0 st0 (proj1 Hst0) Hev)
      as (st1 & Heq & Hinv1 & Hti1 & He1 & Htr1 & Hpe1 & Hsig1); [by right|].
    rewrite Z.add_0_r, wrap64_small in Htr1 by done.
    change (TimerRelative =? TimerPeriodic) with false in Hpe1.
    change (0 =? 0) with true in Hsig1.
    assert (Hst1 : WF st1).
    { change st1 with (snd (EFI_SUCCESS, st1)). rewrite <- Heq.
      apply CoreSetTimer_WF; [unfold u64; lia|done]. }
    exists st1. do 5 (split; [done|]).
    destruct (due_one_shot st1 e Hinv1 He1 Hpe1) as [(k & Hk & Hall) Hret]; [lia|].
    assert (Hfe : fires_of e (Signalled st1) = fires_of e (Signalled st0))
      by by rewrite Hsig1.
    rewrite Htr1, Hfe in Hall, Hret. unfold times_signalled. split; [|split].
    + exists k. split; [done|]. intros n Hn. destruct (Hall n Hn) as (? & _ & Hf).
      by rewrite Hf.
    + intros fuel st2 Hrun. destruct (Hret fuel st2 Hrun) as (? & _ & Hf).
      by rewrite Hf.
    + by apply CoreCheckTimers_terminates.
Qed.

Lemma C9_witness :
  WF boot /\ timer_event boot 1%N /\
  (TimerRelative = TimerPeriodic \/ TimerRelative = TimerRelative) /\
  exists st1,
    CoreSetTimer 1%N TimerRelative 0 boot = (EFI_SUCCESS, st1) /\
    Signalled st1 = SigCheckTimers :: Signalled boot.
Proof.
  assert (H1 : timer_event boot 1%N) by (repeat split; done).
  assert (H2 : TimerRelative = TimerPeriodic \/ TimerRelative = TimerRelative)
    by (right; reflexivity).
  split; [exact boot_WF|]. split; [exact H1|]. split; [exact H2|].
  exact (proj1 (proj2 (C9_zero_delay boot 1%N TimerRelative boot_WF H1 H2))).
Defined.

(** C10.  CoreSetTimer (e, Periodic, 0) stores a period of zero and signals
    mEfiCheckTimerEvent.  In the run of CoreCheckTimers that follows, from
    some iteration on and when the run returns, [e] has been signalled
    exactly once more, is off the list and has a NULL forward link: it was
    not linked again.  Whatever calls follow that are not a CoreSetTimer on
    [e] itself, [e] stays off the list and is not signalled again. *)
Theorem C10_periodic_zero_is_one_shot (st0 : state) (e : EFI_EVENT) :
  WF st0 -> timer_event st0 e ->
  exists st1,
    CoreSetTimer e TimerPeriodic 0 st0 = (EFI_SUCCESS, st1) /\
    per st1 e = 0 /\
    Signalled st1 = SigCheckTimers :: Signalled st0 /\
    (e ∈ mEfiTimerList st1) /\
    (exists k, (k <= length (mEfiTimerList st1))%nat /\
       forall n, (k <= n)%nat ->
         (e ∉ mEfiTimerList (check_iter n (mEfiSystemTime st1) (locked st1))) /\
         Link_ForwardLink
           (Memory (check_iter n (mEfiSystemTime st1) (locked st1)) e) = false /\
         times_signalled e (check_iter n (mEfiSystemTime st1) (locked st1)) =
           S (times_signalled e st0)) /\
    (forall fuel st2,
       CoreCheckTimers fuel st1 = Some st2 ->
       (e ∉ mEfiTimerList st2) /\
       Link_ForwardLink (Memory st2 e) = false /\
       times_signalled e st2 = S (times_signalled e st0) /\
       forall cs st3,
         Forall (spares e) cs -> run cs st2 = Some st3 ->
         (e ∉ mEfiTimerList st3) /\
         times_signalled e st3 = S (times_signalled e st0)) /\
    (no_wrap (mEfiSystemTime st1) st1 ->
     is_Some (CoreCheckTimers (2 * length (mEfiTimerList st1) + 1) st1)).
Proof.
  intros Hst0 Hev.
  assert (HT0 : u64 (mEfiSystemTime st0)) by apply Hst0.
  destruct (CoreSetTimer_armed e TimerPeriodic 0 st0 (proj1 Hst0) Hev)
    as (st1 & Heq & Hinv1 & Hti1 & He1 & Htr1 & Hpe1 & Hsig1); [by left|].
  rewrite Z.add_0_r, wrap64_small in Htr1 by done.
  change (TimerPeriodic =? TimerPeriodic) with true in Hpe1.
  change (0 =? 0) with true in Hsig1.
  assert (Hst1 : WF st1).
  { change st1 with (snd (EFI_SUCCESS, st1)). rewrite <- Heq.
    apply CoreSetTimer_WF; [unfold u64; lia|done]. }
  exists st1. do 4 (split; [done|]).
  destruct (due_one_shot st1 e Hinv1 He1 Hpe1) as [(k & Hk & Hall) Hret]; [lia|].
  assert (Hfe : fires_of e (Signalled st1) = fires_of e (Signalled st0))
    by by rewrite Hsig1.
  rewrite Hfe in Hall, Hret. unfold times_signalled. split; [|split].
  - exists k. split; [done|]. intros n Hn. destruct (Hall n Hn) as (? & ? & Hf).
    by rewrite Hf.
  - intros fuel st2 Hrun. destruct (Hret fuel st2 Hrun) as (Hout & ? & Hf).
    split; [done|]. split; [done|]. split; [by rewrite Hf|].
    intros cs st3 Hcs Hrun3.
    destruct (run_absent cs st2 st3 e Hcs Hrun3 Hout) as (? & _ & Hf3).
    by rewrite Hf3, Hf.
  - by apply CoreCheckTimers_terminates.
Qed.

Lemma C10_witness :
  WF boot /\ timer_event boot 1%N /\
  exists st1,
    CoreSetTimer 1%N TimerPeriodic 0 boot = (EFI_SUCCESS, st1) /\ per st1 1%N = 0.
Proof.
  assert (H1 : timer_event boot 1%N) by (repeat split; done).
  split; [exact boot_WF|]. split; [exact H1|].
  destruct (C10_periodic_zero_is_one_shot boot 1%N boot_WF H1)
    as (st1 & Heq & Hp & _).
  by exists st1.
Defined.

(** * Further properties of the entry points *)

(** ** CoreTimerTick *)

Lemma demo_state_inv : queue_inv demo_state.
Proof.
  apply (run_queue_inv demo_calls boot); [|vm_compute; reflexivity].
  apply initial_WF. split; reflexivity.
Qed.

Lemma sorted_head_least mem h q x :
  StronglySorted (by_deadline mem) (h :: q) -> x ∈ h :: q ->
  TriggerTime (mem h) <= TriggerTime (mem x).
Proof.
  intros [_ Hh]%StronglySorted_inv [->|Hx]%elem_of_cons; [lia|].
  eapply Forall_forall in Hh; [|done]. done.
Qed.

(** X1.  CoreTimerTick changes no event and not the timer list, and signals
    no timer event.  On a sorted list it signals mEfiCheckTimerEvent when
    some entry of the list is due at the new clock value, and signals
    nothing when none is. *)
Theorem X1_tick_requests_when_due (d : Z) (st : state) :
  queue_inv st ->
  Memory (CoreTimerTick d st) = Memory st /\
  mEfiTimerList (CoreTimerTick d st) = mEfiTimerList st /\
  fires (Signalled (CoreTimerTick d st)) = fires (Signalled st) /\
  ((exists x, x ∈ mEfiTimerList st /\ trig st x <= wrap64 (mEfiSystemTime st + d)) ->
   Signalled (CoreTimerTick d st) = SigCheckTimers :: Signalled st) /\
  ((forall x, x ∈ mEfiTimerList st -> wrap64 (mEfiSystemTime st + d) < trig st x) ->
   Signalled (CoreTimerTick d st) = Signalled st).
Proof.
  intros (_ & _ & Hs).
  destruct (CoreTimerTick_fields d st) as (Hm & Hq & _ & Hf & _).
  do 3 (split; [done|]). unfold CoreTimerTick. prims.
  destruct (mEfiTimerList st) as [|h q] eqn:Hl.
  - split; [|done]. intros (x & Hx & _). by apply elem_of_nil in Hx.
  - split.
    + intros (x & Hx & Hdue).
      pose proof (sorted_head_least _ _ _ _ Hs Hx).
      destruct (Z.leb_spec (TriggerTime (Memory st h)) (wrap64 (mEfiSystemTime st + d)));
        [done|lia].
    + intros Hall. specialize (Hall h ltac:(by left)).
      destruct (Z.leb_spec (TriggerTime (Memory st h)) (wrap64 (mEfiSystemTime st + d)));
        [lia|done].
Qed.

Lemma X1_witness :
  queue_inv demo_state /\
  Signalled (CoreTimerTick 60 demo_state) = SigCheckTimers :: Signalled demo_state.
Proof.
  split; [exact demo_state_inv|].
  apply (X1_tick_requests_when_due 60 demo_state demo_state_inv).
  exists 2%N. split; [vm_compute; by left|vm_compute; discriminate].
Defined.

(** ** What a run of CoreCheckTimers leaves and signals *)

(** X2.  On a sorted list, when a run of CoreCheckTimers returns, every
    entry left on the timer list, not only its head, has a deadline after
    the snapshot of the clock, and the clock is what it was.  A second run
    started right after it, with no tick in between, therefore returns at
    once and changes neither the timer list, nor any event, nor the clock,
    nor the signals sent. *)
Theorem X2_run_leaves_nothing_due (fuel fuel2 : nat) (st st' : state) :
  queue_inv st -> CoreCheckTimers fuel st = Some st' ->
  mEfiSystemTime st' = mEfiSystemTime st /\
  Forall (fun x => mEfiSystemTime st < trig st' x) (mEfiTimerList st') /\
  exists st2,
    CoreCheckTimers (S fuel2) st' = Some st2 /\
    Memory st2 = Memory st' /\
    mEfiTimerList st2 = mEfiTimerList st' /\
    mEfiSystemTime st2 = mEfiSystemTime st' /\
    Signalled st2 = Signalled st'.
Proof.
  intros Hinv Hrun.
  assert (Hdone : mEfiSystemTime st' = mEfiSystemTime st /\
    Forall (fun x => mEfiSystemTime st < trig st' x) (mEfiTimerList st')).
  { apply CoreCheckTimers_Some in Hrun as [Hidle ->].
    set (st2 := check_iter fuel (mEfiSystemTime st) (locked st)) in *.
    change (mEfiSystemTime st2 = mEfiSystemTime st /\
            Forall (fun x => mEfiSystemTime st < trig st2 x) (mEfiTimerList st2)).
    split; [exact (proj1 (check_iter_time fuel (mEfiSystemTime st) (locked st)))|].
    assert (Hinv2 : queue_inv st2) by by apply check_iter_queue_inv, locked_queue_inv.
    apply body_idle in Hidle as [Hq|(h & q & Hq & Hlt)]; rewrite Hq; [constructor|].
    destruct Hinv2 as (_ & _ & Hs). rewrite Hq in Hs.
    apply Forall_forall. intros x Hx.
    pose proof (sorted_head_least _ _ _ _ Hs Hx). unfold trig in *. lia. }
  destruct Hdone as [Ht Hall]. split; [done|]. split; [done|].
  assert (Hidle : CoreCheckTimers_body (mEfiSystemTime st') (locked st') = None).
  { apply body_idle. change (mEfiTimerList (locked st')) with (mEfiTimerList st').
    destruct (mEfiTimerList st') as [|h q]; [by left|right]. exists h, q.
    split; [done|]. apply Forall_cons in Hall as [Hh _].
    change (trig (locked st') h) with (trig st' h). lia. }
  exists (CoreReleaseLock mEfiTimerLock (locked st')). split; [|done].
  unfold CoreCheckTimers.
  change (CoreCurrentSystemTime _) with (mEfiSystemTime st', locked st').
  cbn iota beta. simpl CoreCheckTimers_loop. by rewrite Hidle.
Qed.

Lemma X2_witness :
  queue_inv demo_state /\
  exists st', CoreCheckTimers 5 demo_state = Some st' /\
    Forall (fun x => mEfiSystemTime demo_state < trig st' x) (mEfiTimerList st').
Proof.
  split; [exact demo_state_inv|]. eexists. split; [vm_compute; reflexivity|].
  eapply (proj1 (proj2 (X2_run_leaves_nothing_due 5 0 demo_state _ demo_state_inv _))).
  Unshelve. vm_compute; reflexivity.
Defined.

(** X3.  On a sorted list, every entry that is due at the snapshot when a
    run of CoreCheckTimers starts has been signalled, for the deadline it
    had, when the run returns. *)
Theorem X3_run_signals_every_due_entry (fuel : nat) (st st' : state) (x : EFI_EVENT) :
  queue_inv st -> x ∈ mEfiTimerList st -> trig st x <= mEfiSystemTime st ->
  CoreCheckTimers fuel st = Some st' ->
  exists L,
    fires (Signalled st') = L ++ fires (Signalled st) /\ (x, trig st x) ∈ L.
Proof.
  intros Hinv Hx Hdue [Hidle ->]%CoreCheckTimers_Some.
  apply (due_entry_fired (mEfiSystemTime st) fuel (locked st) x); try done.
Qed.

Lemma X3_witness :
  queue_inv (CoreTimerTick 60 demo_state) /\
  2%N ∈ mEfiTimerList (CoreTimerTick 60 demo_state) /\
  exists st' L,
    CoreCheckTimers 5 (CoreTimerTick 60 demo_state) = Some st' /\
    fires (Signalled st') = L ++ fires (Signalled (CoreTimerTick 60 demo_state)) /\
    (2%N, 50) ∈ L.
Proof.
  assert (Hinv : queue_inv (CoreTimerTick 60 demo_state))
    by apply CoreTimerTick_queue_inv, demo_state_inv.
  assert (Hin : 2%N ∈ mEfiTimerList (CoreTimerTick 60 demo_state))
    by (vm_compute; by left).
  assert (Hdue : trig (CoreTimerTick 60 demo_state) 2%N
                 <= mEfiSystemTime (CoreTimerTick 60 demo_state))
    by (vm_compute; discriminate).
  split; [exact Hinv|]. split; [exact Hin|].
  destruct (CoreCheckTimers 5 (CoreTimerTick 60 demo_state)) as [st'|] eqn:Hrun;
    [|by vm_compute in Hrun].
  destruct (X3_run_signals_every_due_entry 5 _ st' 2%N Hinv Hin Hdue Hrun)
    as (L & HL & HxL).
  exists st', L. done.
Defined.

(** The signals of a pass, most recent first: their deadlines never increase
    down the log, each is for an event that was on the list when the pass
    started, and none is for a deadline before the least one of the list. *)
Lemma pass_fires_ordered now n :
  forall st,
    queue_inv st ->
    exists L,
      fires (Signalled (check_iter n now st)) = L ++ fires (Signalled st) /\
      StronglySorted (fun a b : EFI_EVENT * Z => b.2 <= a.2) L /\
      (forall x d, (x, d) ∈ L -> x ∈ mEfiTimerList st /\ d <= now) /\
      forall m, Forall (fun x => m <= trig st x) (mEfiTimerList st) ->
                Forall (fun p : EFI_EVENT * Z => m <= p.2) L.
Proof.
  induction n as [|n IH]; intros st Hinv; simpl.
  { exists []. split; [done|]. split; [constructor|]. split; [|by constructor].
    intros x d H. by apply elem_of_nil in H. }
  destruct (CoreCheckTimers_body now st) as [st1|] eqn:Hb.
  2:{ exists []. split; [done|]. split; [constructor|]. split; [|by constructor].
      intros x d H. by apply elem_of_nil in H. }
  pose proof (body_queue_inv _ _ _ Hinv Hb) as Hinv1.
  destruct (body_step _ _ _ Hb)
    as (h & t & Hq & Hle & _ & Hmem & _ & Hf & Hz & Hnz).
  destruct (IH st1 Hinv1) as (L & HL & HsL & HinL & HloL).
  unfold queue_inv in Hinv. rewrite Hq in Hinv.
  pose proof (qinv_tail _ _ _ Hinv) as [Hht _]. destruct Hinv as (_ & _ & Hs).
  assert (Hin : forall x, x ∈ mEfiTimerList st1 -> x ∈ h :: t).
  { intros x. destruct (Z.eq_dec (per st h) 0) as [Hp0|Hp0].
    - destruct (Hz Hp0) as (-> & _). set_solver.
    - destruct (Hnz Hp0) as (-> & _). rewrite insert_scan_elem_of. set_solver. }
  assert (Hlo1 : Forall (fun x => trig st h <= trig st1 x) (mEfiTimerList st1)).
  { apply Forall_forall. intros x Hx. destruct (decide (x = h)) as [->|Hne].
    - destruct (Z.eq_dec (per st h) 0) as [Hp0|Hp0].
      + destruct (Hz Hp0) as (Hq1 & _). rewrite Hq1 in Hx. done.
      + destruct (Hnz Hp0) as (_ & -> & _).
        pose proof (rearm_deadline_ge now (trig st h) (per st h)). lia.
    - unfold trig at 2. rewrite Hmem by done.
      apply (sorted_head_least _ _ _ _ Hs). by apply Hin. }
  exists (L ++ [(h, trig st h)]).
  split; [by rewrite HL, Hf, <- app_assoc|]. split; [|split].
  - apply StronglySorted_app_2; [|done|repeat constructor].
    intros [x1 d1] [x2 d2] H1 H2. apply list_elem_of_singleton in H2. simplify_eq.
    specialize (HloL _ Hlo1). eapply Forall_forall in HloL; [|exact H1]. done.
  - rewrite Hq. intros x d [Hx|Hx]%elem_of_app.
    + destruct (HinL x d Hx). split; [by apply Hin|done].
    + apply list_elem_of_singleton in Hx. simplify_eq. split; [by left|done].
  - intros m Hm. rewrite Hq in Hm. apply Forall_cons in Hm as [Hmh _].
    apply Forall_app. split; [|by repeat constructor].
    specialize (HloL _ Hlo1). eapply Forall_impl; [exact HloL|].
    intros p ?. simpl in *. lia.
Qed.

(** X4.  On a sorted list, the timer signals of a run of CoreCheckTimers
    that returns are sent in the order of their deadlines (a later signal is
    never for an earlier deadline), each for an event that was on the timer
    list when the run started, and none for a deadline before that of the
    head of the list. *)
Theorem X4_signals_in_deadline_order (fuel : nat) (st st' : state) :
  queue_inv st -> CoreCheckTimers fuel st = Some st' ->
  exists L,
    fires (Signalled st') = L ++ fires (Signalled st) /\
    StronglySorted (fun a b : EFI_EVENT * Z => b.2 <= a.2) L /\
    (forall x d, (x, d) ∈ L -> x ∈ mEfiTimerList st /\ d <= mEfiSystemTime st) /\
    forall h q, mEfiTimerList st = h :: q ->
                Forall (fun p : EFI_EVENT * Z => trig st h <= p.2) L.
Proof.
  intros Hinv [_ ->]%CoreCheckTimers_Some.
  destruct (pass_fires_ordered (mEfiSystemTime st) fuel (locked st))
    as (L & HL & Hs & Hin & Hlo); [by apply locked_queue_inv|].
  exists L. split; [done|]. split; [done|]. split; [done|].
  intros h q Hq. apply Hlo. change (mEfiTimerList (locked st)) with (mEfiTimerList st).
  destruct Hinv as (_ & _ & Hsort). rewrite Hq in *.
  apply Forall_forall. intros x Hx.
  apply (sorted_head_least _ _ _ _ Hsort Hx).
Qed.

Lemma X4_witness :
  queue_inv (CoreTimerTick 200 demo_state) /\
  exists st' L,
    CoreCheckTimers 5 (CoreTimerTick 200 demo_state) = Some st' /\
    fires (Signalled st') = L ++ fires (Signalled (CoreTimerTick 200 demo_state)) /\
    StronglySorted (fun a b : EFI_EVENT * Z => b.2 <= a.2) L.
Proof.
  assert (Hinv : queue_inv (CoreTimerTick 200 demo_state))
    by apply CoreTimerTick_queue_inv, demo_state_inv.
  split; [exact Hinv|].
  destruct (CoreCheckTimers 5 (CoreTimerTick 200 demo_state)) as [st'|] eqn:Hrun;
    [|by vm_compute in Hrun].
  destruct (X4_signals_in_deadline_order 5 _ st' Hinv Hrun) as (L & HL & Hs & _).
  by exists st', L.
Defined.

(** ** Only timer events are linked and signalled *)

Lemma body_kind now st st' x :
  CoreCheckTimers_body now st = Some st' ->
  Signature (Memory st' x) = Signature (Memory st x) /\
  Type_ (Memory st' x) = Type_ (Memory st x).
Proof.
  intros Hb. destruct (body_Some _ _ _ Hb) as (h & t & Hq & Hle).
  destruct (body_expired now st h t Hq Hle)
    as (st2 & Hb2 & _ & _ & Hmem & Hsg & Hty & _).
  assert (st2 = st') as -> by congruence.
  destruct (decide (x = h)) as [->|Hne]; [done|]. by rewrite Hmem.
Qed.

Lemma check_iter_kind n now st x :
  Signature (Memory (check_iter n now st) x) = Signature (Memory st x) /\
  Type_ (Memory (check_iter n now st) x) = Type_ (Memory st x).
Proof.
  revert st. induction n as [|n IH]; intros st; simpl; [done|].
  destruct (CoreCheckTimers_body now st) as [st1|] eqn:Hb; [|done].
  destruct (body_kind _ _ _ x Hb) as [<- <-]. apply IH.
Qed.

Lemma exec_kind c st st' x :
  exec c st = Some st' ->
  Signature (Memory st' x) = Signature (Memory st x) /\
  Type_ (Memory st' x) = Type_ (Memory st x).
Proof.
  intros Hex. destruct c as [e ty t|d|fuel]; simpl in *.
  - destruct (CoreSetTimer e ty t st) as [s st1] eqn:Heq. simpl in Hex.
    assert (st1 = st') as -> by congruence.
    apply CoreSetTimer_cases in Heq
      as [(_ & -> & _)|(_ & _ & _ & _ & Hmem & Hsg & Hty & _)]; [done|].
    destruct (decide (x = e)) as [->|Hne]; [done|]. by rewrite Hmem.
  - assert (st' = CoreTimerTick d st) as -> by congruence.
    by destruct (CoreTimerTick_fields d st) as (-> & _).
  - apply CoreCheckTimers_Some in Hex as [_ ->].
    apply (check_iter_kind fuel (mEfiSystemTime st) (locked st) x).
Qed.

Lemma timer_event_kind st st' x :
  Signature (Memory st' x) = Signature (Memory st x) ->
  Type_ (Memory st' x) = Type_ (Memory st x) ->
  timer_event st x -> timer_event st' x.
Proof. unfold timer_event. intros -> ->. done. Qed.

Lemma exec_linked_timers c st st' :
  queue_inv st -> linked_timers st -> exec c st = Some st' -> linked_timers st'.
Proof.
  intros Hinv Hlt Hex. unfold linked_timers in *. apply Forall_forall. intros x Hx.
  destruct (exec_kind _ _ _ x Hex) as [Hsg Hty].
  apply (timer_event_kind st); [done|done|].
  destruct c as [e ty t|d|fuel]; simpl in *.
  - destruct (CoreSetTimer e ty t st) as [s st1] eqn:Heq. simpl in Hex.
    assert (st1 = st') as -> by congruence.
    destruct (CoreSetTimer_cases _ _ _ _ _ _ Heq)
      as [(_ & -> & _)|(-> & Hev & _)]; [by eapply Forall_forall in Hlt|].
    destruct (CoreSetTimer_queue _ _ _ _ _ Hinv Heq) as [_ Hq]. rewrite Hq in Hx.
    assert (Hold : x ∈ unlink e (mEfiTimerList st) -> timer_event st x).
    { intros H%unlink_elem_of. by eapply Forall_forall in Hlt. }
    destruct (ty =? TimerCancel); [by apply Hold|].
    apply insert_scan_elem_of in Hx as [->|Hx]; [done|by apply Hold].
  - assert (st' = CoreTimerTick d st) as -> by congruence.
    destruct (CoreTimerTick_fields d st) as (_ & Hq & _). rewrite Hq in Hx.
    by eapply Forall_forall in Hlt.
  - apply CoreCheckTimers_Some in Hex as [_ ->].
    change (x ∈ mEfiTimerList (check_iter fuel (mEfiSystemTime st) (locked st))) in Hx.
    destruct (decide (x ∈ mEfiTimerList st)) as [Hin|Hout];
      [by eapply Forall_forall in Hlt|].
    by destruct (check_iter_absent fuel (mEfiSystemTime st) (locked st) x Hout).
Qed.

(** X5.  Started from the static initialisers, in every state the entry
    points return to: no event's signature or type word has been changed,
    every node of the timer list is an event CoreSetTimer accepts (non-NULL,
    with EVENT_SIGNATURE and EVT_TIMER), and a run of CoreCheckTimers that
    returns from there signals such events only. *)
Theorem X5_only_timer_events (st0 : state) (cs : list call) (st : state) :
  initial st0 -> run cs st0 = Some st ->
  (forall x, Signature (Memory st x) = Signature (Memory st0 x) /\
             Type_ (Memory st x) = Type_ (Memory st0 x)) /\
  linked_timers st /\
  forall fuel st',
    CoreCheckTimers fuel st = Some st' ->
    exists L,
      fires (Signalled st') = L ++ fires (Signalled st) /\
      forall x d, (x, d) ∈ L -> timer_event st x.
Proof.
  intros Hinit Hrun.
  assert (Hgen : forall cs s s',
    queue_inv s -> linked_timers s -> run cs s = Some s' ->
    queue_inv s' /\ linked_timers s' /\
    forall x, Signature (Memory s' x) = Signature (Memory s x) /\
              Type_ (Memory s' x) = Type_ (Memory s x)).
  { clear. induction cs as [|c cs IH]; intros s s' Hinv Hlt; simpl.
    - intros [= <-]. done.
    - destruct (exec c s) as [s1|] eqn:He; [|done]. intros Hrun.
      destruct (IH s1 s') as (? & ? & Hk);
        [by eapply exec_queue_inv|by eapply exec_linked_timers|done|].
      split; [done|]. split; [done|]. intros x.
      destruct (Hk x) as [-> ->]. by eapply exec_kind. }
  destruct (Hgen cs st0 st) as (Hinv & Hlt & Hk);
    [apply initial_WF, Hinit| |done|].
  { unfold linked_timers. destruct Hinit as [-> _]. constructor. }
  split; [done|]. split; [done|]. intros fuel st' [_ ->]%CoreCheckTimers_Some.
  destruct (pass_fires_ordered (mEfiSystemTime st) fuel (locked st))
    as (L & HL & _ & Hin & _); [by apply locked_queue_inv|].
  exists L. split; [done|]. intros x d Hx. destruct (Hin x d Hx) as [Hxq _].
  by eapply Forall_forall in Hlt.
Qed.

Lemma X5_witness :
  initial boot /\ run demo_calls boot = Some demo_state /\ linked_timers demo_state.
Proof.
  assert (Hi : initial boot) by (split; reflexivity).
  assert (Hr : run demo_calls boot = Some demo_state) by (vm_compute; reflexivity).
  split; [exact Hi|]. split; [exact Hr|].
  exact (proj1 (proj2 (X5_only_timer_events boot demo_calls demo_state Hi Hr))).
Defined.

(** ** Which entries a run keeps *)

(** What a pass has done to the list by any of its iterations: periods are
    what they were, nothing new is linked, periodic entries and entries not
    yet due are still linked (the latter untouched), and a one-shot entry
    still linked has its deadline. *)
Lemma pass_keeps now n :
  forall st,
    queue_inv st ->
    let st' := check_iter n now st in
    (forall x, per st' x = per st x) /\
    (forall x, x ∈ mEfiTimerList st' -> x ∈ mEfiTimerList st) /\
    (forall x, x ∈ mEfiTimerList st -> per st x <> 0 -> x ∈ mEfiTimerList st') /\
    (forall x, x ∈ mEfiTimerList st -> now < trig st x ->
               x ∈ mEfiTimerList st' /\ Memory st' x = Memory st x) /\
    (forall x, x ∈ mEfiTimerList st' -> per st x = 0 -> trig st' x = trig st x).
Proof.
  induction n as [|n IH]; intros st Hinv; cbn zeta; simpl.
  { repeat split; done. }
  destruct (CoreCheckTimers_body now st) as [st1|] eqn:Hb; [|repeat split; done].
  pose proof (body_queue_inv _ _ _ Hinv Hb) as Hinv1.
  destruct (body_step _ _ _ Hb)
    as (h & t & Hq & Hle & _ & Hmem & Hper & _ & Hz & Hnz).
  unfold queue_inv in Hinv. rewrite Hq in Hinv. apply qinv_tail in Hinv as [Hht _].
  destruct (IH st1 Hinv1) as (Ha & Hb' & Hc & Hd & He). rewrite Hq.
  assert (Hper1 : forall x, per st1 x = per st x).
  { intros x. destruct (decide (x = h)) as [->|Hne]; [done|].
    unfold per. by rewrite Hmem. }
  assert (Hin1 : forall x, x ∈ mEfiTimerList st1 ->
                           x ∈ h :: t /\ (x = h -> per st h <> 0)).
  { intros x Hx. destruct (Z.eq_dec (per st h) 0) as [Hp0|Hp0].
    - destruct (Hz Hp0) as (Hq1 & _). rewrite Hq1 in Hx.
      split; [set_solver|]. intros ->. done.
    - destruct (Hnz Hp0) as (Hq1 & _). rewrite Hq1 in Hx.
      apply insert_scan_elem_of in Hx. split; [set_solver|done]. }
  assert (Hkeep : forall x, x ∈ t -> x ∈ mEfiTimerList st1).
  { intros x Hx. destruct (Z.eq_dec (per st h) 0) as [Hp0|Hp0].
    - by destruct (Hz Hp0) as (-> & _).
    - destruct (Hnz Hp0) as (-> & _). apply insert_scan_elem_of. by right. }
  split; [intros x; by rewrite Ha|]. split; [|split; [|split]].
  - intros x Hx. by apply Hin1, Hb'.
  - intros x Hx Hp. apply Hc; [|by rewrite Hper1].
    apply elem_of_cons in Hx as [->|Hx]; [|by apply Hkeep].
    destruct (Hnz Hp) as (-> & _). apply insert_scan_elem_of. by left.
  - intros x Hx Hlt. assert (Hne : x <> h) by (intros ->; lia).
    assert (Hx1 : x ∈ mEfiTimerList st1) by (apply Hkeep; set_solver).
    destruct (Hd x Hx1) as [? Hm]; [unfold trig; by rewrite Hmem|].
    split; [done|]. by rewrite Hm, Hmem.
  - intros x Hx Hp. rewrite He; [|done|by rewrite Hper1].
    destruct (Hin1 x (Hb' x Hx)) as [_ Hnh].
    unfold trig. rewrite Hmem; [done|]. intros ->. by apply Hnh.
Qed.

(** X6.  On a sorted list, a run of CoreCheckTimers that returns changes no
    period, and leaves on the timer list exactly the entries that were on it
    and are periodic or were not due at the snapshot: the one-shot entries
    that were due are the ones unlinked, nothing else is, and nothing is
    added.  The entries that were not due are untouched. *)
Theorem X6_run_unlinks_due_one_shots (fuel : nat) (st st' : state) :
  queue_inv st -> CoreCheckTimers fuel st = Some st' ->
  (forall x, per st' x = per st x) /\
  (forall x, x ∈ mEfiTimerList st' <->
             x ∈ mEfiTimerList st /\
             (per st x <> 0 \/ mEfiSystemTime st < trig st x)) /\
  (forall x, x ∈ mEfiTimerList st -> mEfiSystemTime st < trig st x ->
             Memory st' x = Memory st x).
Proof.
  intros Hinv [Hidle ->]%CoreCheckTimers_Some.
  destruct (pass_keeps (mEfiSystemTime st) fuel (locked st))
    as (Ha & Hb & Hc & Hd & He); [by apply locked_queue_inv|].
  set (st2 := check_iter fuel (mEfiSystemTime st) (locked st)) in *.
  assert (Hinv2 : queue_inv st2) by by apply check_iter_queue_inv, locked_queue_inv.
  change (mEfiTimerList (locked st)) with (mEfiTimerList st) in *.
  change (per (locked st)) with (per st) in *.
  change (trig (locked st)) with (trig st) in *.
  change (Memory (locked st)) with (Memory st) in *.
  change ((forall x, per st2 x = per st x) /\
          (forall x, x ∈ mEfiTimerList st2 <->
             x ∈ mEfiTimerList st /\
             (per st x <> 0 \/ mEfiSystemTime st < trig st x)) /\
          (forall x, x ∈ mEfiTimerList st -> mEfiSystemTime st < trig st x ->
             Memory st2 x = Memory st x)).
  split; [done|]. split; [|intros x Hx Hlt; by destruct (Hd x Hx Hlt)].
  intros x. split.
  - intros Hx. split; [by apply Hb|].
    destruct (Z.eq_dec (per st x) 0) as [Hp0|Hp0]; [right|by left].
    rewrite <- (He x Hx Hp0).
    apply body_idle in Hidle as [Hq|(h & q & Hq & Hlt)].
    + rewrite Hq in Hx. by apply elem_of_nil in Hx.
    + destruct Hinv2 as (_ & _ & Hs). rewrite Hq in Hs, Hx.
      pose proof (sorted_head_least _ _ _ _ Hs Hx). unfold trig in *. lia.
  - intros [Hx [Hp|Hlt]]; [by apply Hc|by destruct (Hd x Hx Hlt)].
Qed.

Lemma X6_witness :
  queue_inv (CoreTimerTick 60 demo_state) /\
  exists st',
    CoreCheckTimers 5 (CoreTimerTick 60 demo_state) = Some st' /\
    forall x, x ∈ mEfiTimerList st' <->
      x ∈ mEfiTimerList (CoreTimerTick 60 demo_state) /\
      (per (CoreTimerTick 60 demo_state) x <> 0 \/
       mEfiSystemTime (CoreTimerTick 60 demo_state)
         < trig (CoreTimerTick 60 demo_state) x).
Proof.
  assert (Hinv : queue_inv (CoreTimerTick 60 demo_state))
    by apply CoreTimerTick_queue_inv, demo_state_inv.
  split; [exact Hinv|].
  destruct (CoreCheckTimers 5 (CoreTimerTick 60 demo_state)) as [st'|] eqn:Hrun;
    [|by vm_compute in Hrun].
  exists st'. split; [done|].
  exact (proj1 (proj2 (X6_run_unlinks_due_one_shots 5 _ st' Hinv Hrun))).
Defined.

(** ** Periodic entries in a run *)

(** A due entry behind [pre] is the head of the list after as many
    iterations as [pre] has entries, untouched and not signalled so far. *)
Lemma due_reached now e pre :
  forall st suf,
    queue_inv st -> mEfiTimerList st = pre ++ e :: suf -> trig st e <= now ->
    let st' := check_iter (length pre) now st in
    queue_inv st' /\ (exists suf', mEfiTimerList st' = e :: suf') /\
    Memory st' e = Memory st e /\
    fires_of e (Signalled st') = fires_of e (Signalled st).
Proof.
  induction pre as [|h pre IH]; intros st suf Hinv Hq Hdue; cbn zeta.
  { simpl. split; [done|]. split; [by exists suf|done]. }
  simpl in Hq. simpl length.
  assert (Hhe : trig st h <= trig st e).
  { destruct Hinv as (_ & _ & Hs). rewrite Hq in Hs.
    apply (sorted_head_least _ _ _ _ Hs). set_solver. }
  assert (Hhdue : trig st h <= now) by lia.
  destruct (body_expired now st h _ Hq Hhdue) as (st1 & Hb & _).
  simpl check_iter. rewrite Hb.
  pose proof (body_queue_inv _ _ _ Hinv Hb) as Hinv1.
  destruct (body_step _ _ _ Hb)
    as (h' & t' & Hq' & _ & _ & Hmem & _ & Hf & Hz & Hnz).
  assert (h' = h /\ t' = pre ++ e :: suf) as [-> ->] by (split; congruence).
  pose proof Hinv as (Hnd & _ & Hs). rewrite Hq in Hnd, Hs.
  apply NoDup_cons in Hnd as [Hh' Hnd].
  assert (Hne : e <> h) by set_solver.
  assert (Hsame : forall x, x ∈ pre ++ e :: suf -> Memory st1 x = Memory st x).
  { intros x Hx. apply Hmem. set_solver. }
  assert (Hpre : Forall (fun x => trig st x <= trig st e) pre).
  { apply StronglySorted_inv in Hs as [Hs _]. apply Forall_forall. intros x Hx.
    eapply (StronglySorted_app_1_elem_of _ _ _ x e) in Hs; [done|done|set_solver]. }
  assert (Hq1 : exists suf1, mEfiTimerList st1 = pre ++ e :: suf1).
  { destruct (Z.eq_dec (per st h) 0) as [Hp0|Hp0].
    - destruct (Hz Hp0) as (-> & _). by exists suf.
    - destruct (Hnz Hp0) as (Hq1 & Ht1 & _). rewrite Hq1.
      exists (insert_scan (Memory st1) (trig st1 h) h suf).
      rewrite (cons_middle e pre suf), app_assoc.
      rewrite (insert_scan_prefix _ _ _ (pre ++ [e]) suf), <- app_assoc; [done|].
      pose proof (rearm_deadline_ge now (trig st h) (per st h)).
      apply Forall_forall. intros x Hx. fold (trig st1 x).
      unfold trig at 1. rewrite Hsame by set_solver. fold (trig st x).
      apply elem_of_app in Hx as [Hx|Hx];
        [|apply list_elem_of_singleton in Hx; subst x; lia].
      eapply Forall_forall in Hpre; [|done]. lia. }
  destruct Hq1 as (suf1 & Hq1).
  assert (Hme : Memory st1 e = Memory st e) by (apply Hsame; set_solver).
  destruct (IH st1 suf1 Hinv1 Hq1) as (? & ? & Hm & Hf1).
  { unfold trig. by rewrite Hme. }
  split; [done|]. split; [done|]. split; [congruence|].
  rewrite Hf1. unfold fires_of. rewrite Hf, fires_of_cons. by rewrite decide_False.
Qed.

Lemma insert_scan_length mem T e q :
  length (insert_scan mem T e q) = S (length q).
Proof.
  induction q as [|h t IH]; simpl; [done|].
  destruct (TriggerTime (mem h) >? T); simpl; by rewrite ?IH.
Qed.

(** The loop never makes the list longer. *)
Lemma body_length now st st' :
  CoreCheckTimers_body now st = Some st' ->
  (length (mEfiTimerList st') <= length (mEfiTimerList st))%nat.
Proof.
  intros (h & t & Hq & _ & _ & _ & _ & _ & Hz & Hnz)%body_step. rewrite Hq.
  destruct (Z.eq_dec (per st h) 0) as [Hp0|Hp0].
  - destruct (Hz Hp0) as (-> & _). simpl. lia.
  - destruct (Hnz Hp0) as (-> & _). rewrite insert_scan_length. simpl. lia.
Qed.

Lemma check_iter_length n now st :
  (length (mEfiTimerList (check_iter n now st)) <= length (mEfiTimerList st))%nat.
Proof.
  revert st. induction n as [|n IH]; intros st; simpl; [done|].
  destruct (CoreCheckTimers_body now st) as [st1|] eqn:Hb; [|done].
  etrans; [apply IH|by eapply body_length].
Qed.

(** The iteration that takes a due entry: it comes within as many iterations
    as the list has entries, signals the entry once, for its deadline, and
    links it again, with the re-armed deadline, exactly when it is
    periodic. *)
Lemma due_processed now st e :
  queue_inv st -> e ∈ mEfiTimerList st -> trig st e <= now ->
  exists k, (k < length (mEfiTimerList st))%nat /\
    let st1 := check_iter (S k) now st in
    queue_inv st1 /\
    (length (mEfiTimerList st1) <= length (mEfiTimerList st))%nat /\
    fires_of e (Signalled st1) = (e, trig st e) :: fires_of e (Signalled st) /\
    per st1 e = per st e /\
    (per st e = 0 -> e ∉ mEfiTimerList st1) /\
    (per st e <> 0 ->
     e ∈ mEfiTimerList st1 /\
     trig st1 e = rearm_deadline now (trig st e) (per st e)).
Proof.
  intros Hinv He Hdue. apply list_elem_of_split in He as (pre & suf & Hq).
  exists (length pre). split; [rewrite Hq, length_app; simpl; lia|]. cbn zeta.
  destruct (due_reached now e pre st suf Hinv Hq Hdue)
    as (Hinvk & (suf' & Hqk) & Hmk & Hfk).
  pose proof (check_iter_length (length pre) now st) as Hlen.
  replace (S (length pre)) with (length pre + 1)%nat by lia.
  rewrite check_iter_add.
  set (stk := check_iter (length pre) now st) in *.
  assert (Hduek : trig stk e <= now) by (unfold trig; by rewrite Hmk).
  destruct (body_expired now stk e suf' Hqk Hduek) as (st1 & Hb & _).
  simpl check_iter. rewrite Hb.
  pose proof (body_queue_inv _ _ _ Hinvk Hb) as Hinv1.
  destruct (body_step _ _ _ Hb)
    as (h' & t' & Hq' & _ & _ & _ & Hper & Hf & Hz & Hnz).
  assert (h' = e /\ t' = suf') as [-> ->] by (split; congruence).
  assert (Hpk : per stk e = per st e) by (unfold per; by rewrite Hmk).
  assert (Htk : trig stk e = trig st e) by (unfold trig; by rewrite Hmk).
  rewrite Hpk, Htk in *.
  split; [done|]. split.
  { pose proof (body_length _ _ _ Hb). fold stk in Hlen. lia. }
  split.
  { unfold fires_of in *. rewrite Hf, fires_of_cons, decide_True by done.
    by rewrite Hfk. }
  split; [done|]. split.
  - intros Hp0. destruct (Hz Hp0) as (-> & _).
    destruct Hinvk as (Hnd & _). rewrite Hqk in Hnd.
    by apply NoDup_cons in Hnd as [? _].
  - intros Hp0. destruct (Hnz Hp0) as (-> & -> & _).
    split; [apply insert_scan_elem_of; by left|done].
Qed.

(** A property that holds from some iteration on holds when the loop is
    left. *)
Lemma settled_at_return k now s (Q : state -> Prop) fuel :
  (forall n, (k <= n)%nat -> Q (check_iter n now s)) ->
  CoreCheckTimers_body now (check_iter fuel now s) = None ->
  Q (check_iter fuel now s).
Proof.
  intros Hall Hidle.
  destruct (Nat.le_gt_cases k fuel) as [Hle|Hgt]; [by apply Hall|].
  specialize (Hall (fuel + (k - fuel))%nat ltac:(lia)).
  by rewrite check_iter_add, (check_iter_idle _ _ _ Hidle) in Hall.
Qed.

(** X7.  A periodic entry that is due but less than one period late (and
    whose next deadline does not wrap around) is, in the run of
    CoreCheckTimers that finds it, from some iteration on and when the run
    returns, signalled exactly once, for its deadline, and linked again one
    period after that deadline, not one period after the snapshot. *)
Theorem X7_periodic_on_time (st : state) (e : EFI_EVENT) :
  queue_inv st -> e ∈ mEfiTimerList st ->
  0 <= trig st e -> 0 < per st e ->
  trig st e <= mEfiSystemTime st < trig st e + per st e ->
  trig st e + per st e < 2 ^ 64 ->
  let rearmed st' :=
    e ∈ mEfiTimerList st' /\
    trig st' e = trig st e + per st e /\ per st' e = per st e /\
    fires_of e (Signalled st') = (e, trig st e) :: fires_of e (Signalled st) in
  (exists k, (k <= length (mEfiTimerList st))%nat /\
     forall n, (k <= n)%nat -> rearmed (check_iter n (mEfiSystemTime st) (locked st))) /\
  (forall fuel st',
     CoreCheckTimers fuel st = Some st' ->
     rearmed st' /\ times_signalled e st' = S (times_signalled e st)).
Proof.
  intros Hinv He HT HP Hdue Hnw rearmed.
  set (now := mEfiSystemTime st) in *.
  destruct (due_processed now (locked st) e) as (k & Hk & Hst1);
    [by apply locked_queue_inv|done|apply Hdue|].
  cbn zeta in Hst1. destruct Hst1 as (Hinv1 & _ & Hf1 & Hp1 & _ & Hre).
  destruct Hre as [He1 Ht1]; [change (per (locked st) e) with (per st e); lia|].
  change (trig (locked st) e) with (trig st e) in *.
  change (per (locked st) e) with (per st e) in *.
  change (Signalled (locked st)) with (Signalled st) in *.
  change (mEfiTimerList (locked st)) with (mEfiTimerList st) in *.
  assert (Hrd : rearm_deadline now (trig st e) (per st e) = trig st e + per st e).
  { unfold rearm_deadline. rewrite wrap64_small by (unfold u64; lia).
    destruct (Z.leb_spec (trig st e + per st e) now); [lia|done]. }
  rewrite Hrd in Ht1.
  assert (Hall : forall n, (S k <= n)%nat -> rearmed (check_iter n now (locked st))).
  { intros n Hn. replace n with (S k + (n - S k))%nat by lia.
    rewrite check_iter_add.
    destruct (check_iter_pending (n - S k) now _ e He1) as (? & Hm & Hf); [lia|].
    unfold rearmed, trig, per in *. rewrite Hm, Hf. done. }
  split; [exists (S k); split; [lia|done]|].
  intros fuel st' [Hidle ->]%CoreCheckTimers_Some.
  pose proof (settled_at_return (S k) now (locked st) rearmed fuel Hall Hidle) as Hr.
  split; [exact Hr|]. destruct Hr as (_ & _ & _ & Hf).
  unfold times_signalled.
  change (Signalled (CoreReleaseLock mEfiTimerLock ?s)) with (Signalled s).
  fold now. by rewrite Hf.
Qed.

Lemma on_time_state_inv : queue_inv (CoreTimerTick 7 (snd (CoreSetTimer 1%N TimerPeriodic 5 boot))).
Proof.
  apply CoreTimerTick_queue_inv, CoreSetTimer_queue_inv, initial_WF.
  split; reflexivity.
Qed.

Lemma X7_witness :
  let st := CoreTimerTick 7 (snd (CoreSetTimer 1%N TimerPeriodic 5 boot)) in
  queue_inv st /\ 1%N ∈ mEfiTimerList st /\
  0 <= trig st 1%N /\ 0 < per st 1%N /\
  trig st 1%N <= mEfiSystemTime st < trig st 1%N + per st 1%N /\
  trig st 1%N + per st 1%N < 2 ^ 64 /\
  forall fuel st',
    CoreCheckTimers fuel st = Some st' ->
    times_signalled 1%N st' = S (times_signalled 1%N st).
Proof.
  cbn zeta.
  set (st := CoreTimerTick 7 (snd (CoreSetTimer 1%N TimerPeriodic 5 boot))).
  assert (H1 : 1%N ∈ mEfiTimerList st) by (vm_compute; by left).
  assert (H2 : 0 <= trig st 1%N) by (vm_compute; discriminate).
  assert (H3 : 0 < per st 1%N) by (vm_compute; reflexivity).
  assert (H4 : trig st 1%N <= mEfiSystemTime st < trig st 1%N + per st 1%N)
    by (vm_compute; split; [discriminate|reflexivity]).
  assert (H5 : trig st 1%N + per st 1%N < 2 ^ 64) by (vm_compute; reflexivity).
  do 6 (split; [first [exact on_time_state_inv|done]|]).
  intros fuel st' Hrun.
  exact (proj2 (proj2 (X7_periodic_on_time st 1%N on_time_state_inv H1 H2 H3 H4 H5)
                  fuel st' Hrun)).
Defined.

(** X8.  A periodic entry that is a full period or more late (with no
    wrap-around) is, in the run of CoreCheckTimers that finds it, from some
    iteration on and when the run returns, signalled exactly twice, first
    for its deadline and then for the snapshot, and linked again one period
    after the snapshot: the periods it missed in between are not made up. *)
Theorem X8_periodic_late (st : state) (e : EFI_EVENT) :
  queue_inv st -> e ∈ mEfiTimerList st ->
  0 <= trig st e -> 0 < per st e ->
  trig st e + per st e <= mEfiSystemTime st ->
  mEfiSystemTime st + per st e < 2 ^ 64 ->
  let rearmed st' :=
    e ∈ mEfiTimerList st' /\
    trig st' e = mEfiSystemTime st + per st e /\ per st' e = per st e /\
    fires_of e (Signalled st') =
      (e, mEfiSystemTime st) :: (e, trig st e) :: fires_of e (Signalled st) in
  (exists k, (k <= 2 * length (mEfiTimerList st))%nat /\
     forall n, (k <= n)%nat -> rearmed (check_iter n (mEfiSystemTime st) (locked st))) /\
  (forall fuel st',
     CoreCheckTimers fuel st = Some st' ->
     rearmed st' /\ times_signalled e st' = S (S (times_signalled e st))).
Proof.
  intros Hinv He HT HP Hlate Hnw rearmed.
  set (now := mEfiSystemTime st) in *.
  destruct (due_processed now (locked st) e) as (k1 & Hk1 & Hst1);
    [by apply locked_queue_inv|done|change (trig (locked st) e) with (trig st e); lia|].
  cbn zeta in Hst1. destruct Hst1 as (Hinv1 & Hlen1 & Hf1 & Hp1 & _ & Hre).
  destruct Hre as [He1 Ht1]; [change (per (locked st) e) with (per st e); lia|].
  change (trig (locked st) e) with (trig st e) in *.
  change (per (locked st) e) with (per st e) in *.
  change (Signalled (locked st)) with (Signalled st) in *.
  change (mEfiTimerList (locked st)) with (mEfiTimerList st) in *.
  assert (Hrd : rearm_deadline now (trig st e) (per st e) = now).
  { unfold rearm_deadline. rewrite wrap64_small by (unfold u64; lia).
    destruct (Z.leb_spec (trig st e + per st e) now); [done|lia]. }
  rewrite Hrd in Ht1.
  set (st1 := check_iter (S k1) now (locked st)) in *.
  destruct (due_processed now st1 e Hinv1 He1) as (k2 & Hk2 & Hst2); [lia|].
  cbn zeta in Hst2. destruct Hst2 as (Hinv2 & _ & Hf2 & Hp2 & _ & Hre2).
  destruct Hre2 as [He2 Ht2]; [lia|].
  assert (Hrd2 : rearm_deadline now (trig st1 e) (per st1 e) = now + per st e).
  { unfold rearm_deadline. rewrite Ht1, Hp1, wrap64_small by (unfold u64; lia).
    destruct (Z.leb_spec (now + per st e) now); [lia|done]. }
  rewrite Hrd2 in Ht2. rewrite Hf1, Ht1 in Hf2. rewrite Hp1 in Hp2.
  assert (Hall : forall n, (S k1 + S k2 <= n)%nat ->
    rearmed (check_iter n now (locked st))).
  { intros n Hn. replace n with (S k1 + (S k2 + (n - (S k1 + S k2))))%nat by lia.
    rewrite check_iter_add. fold st1. rewrite check_iter_add.
    destruct (check_iter_pending (n - (S k1 + S k2)) now _ e He2) as (? & Hm & Hf);
      [lia|].
    unfold rearmed, trig, per in *. rewrite Hm, Hf. done. }
  split; [exists (S k1 + S k2)%nat; split; [lia|done]|].
  intros fuel st' [Hidle ->]%CoreCheckTimers_Some.
  pose proof (settled_at_return _ now (locked st) rearmed fuel Hall Hidle) as Hr.
  split; [exact Hr|]. destruct Hr as (_ & _ & _ & Hf).
  unfold times_signalled.
  change (Signalled (CoreReleaseLock mEfiTimerLock ?s)) with (Signalled s).
  fold now. by rewrite Hf.
Qed.

Lemma late_state_inv : queue_inv late_state.
Proof. apply late_state_WF. Qed.

Lemma X8_witness :
  queue_inv late_state /\ 1%N ∈ mEfiTimerList late_state /\
  0 <= trig late_state 1%N /\ 0 < per late_state 1%N /\
  trig late_state 1%N + per late_state 1%N <= mEfiSystemTime late_state /\
  mEfiSystemTime late_state + per late_state 1%N < 2 ^ 64 /\
  forall fuel st',
    CoreCheckTimers fuel late_state = Some st' ->
    times_signalled 1%N st' = S (S (times_signalled 1%N late_state)).
Proof.
  assert (H1 : 1%N ∈ mEfiTimerList late_state) by (vm_compute; by left).
  assert (H2 : 0 <= trig late_state 1%N) by (vm_compute; discriminate).
  assert (H3 : 0 < per late_state 1%N) by (vm_compute; reflexivity).
  assert (H4 : trig late_state 1%N + per late_state 1%N <= mEfiSystemTime late_state)
    by (vm_compute; discriminate).
  assert (H5 : mEfiSystemTime late_state + per late_state 1%N < 2 ^ 64)
    by (vm_compute; reflexivity).
  do 6 (split; [first [exact late_state_inv|done]|]).
  intros fuel st' Hrun.
  exact (proj2 (proj2 (X8_periodic_late late_state 1%N late_state_inv H1 H2 H3 H4 H5)
                  fuel st' Hrun)).
Defined.

(** ** CoreSetTimer and the previous schedule *)

Lemma unlink_insert_scan mem T e q :
  e ∉ q -> unlink e (insert_scan mem T e q) = q.
Proof.
  induction q as [|h t IH]; intros He; simpl.
  - by rewrite N.eqb_refl.
  - destruct (TriggerTime (mem h) >? T); simpl.
    + by rewrite N.eqb_refl.
    + destruct (N.eqb_spec h e) as [->|Hne]; [set_solver|].
      rewrite IH; [done|set_solver].
Qed.

(** The whole effect of a CoreSetTimer that passes the guards. *)
Lemma CoreSetTimer_effect e ty t st :
  queue_inv st -> timer_event st e -> valid_kind ty ->
  exists st',
    CoreSetTimer e ty t st = (EFI_SUCCESS, st') /\
    queue_inv st' /\ timer_event st' e /\
    mEfiSystemTime st' = mEfiSystemTime st /\
    (forall x, x <> e -> Memory st' x = Memory st x) /\
    Memory st' e =
      mkIEVENT (Signature (Memory st e)) (Type_ (Memory st e))
               (if ty =? TimerCancel then 0 else wrap64 (mEfiSystemTime st + t))
               (if ty =? TimerPeriodic then t else 0)
               (negb (ty =? TimerCancel)) /\
    mEfiTimerList st' =
      (if ty =? TimerCancel then unlink e (mEfiTimerList st)
       else insert_scan (Memory st') (wrap64 (mEfiSystemTime st + t)) e
              (unlink e (mEfiTimerList st))) /\
    fires (Signalled st') = fires (Signalled st).
Proof.
  intros Hinv Hev Hk.
  destruct (CoreSetTimer e ty t st) as [s st'] eqn:Heq.
  pose proof (CoreSetTimer_queue_inv e ty t st Hinv) as Hinv'. rewrite Heq in Hinv'.
  destruct (CoreSetTimer_cases _ _ _ _ _ _ Heq)
    as [(_ & _ & Hbad)|(-> & _ & _ & Hti & Hmem & Hsg & Hty & Hcase)].
  { exfalso. unfold timer_event in Hev. naive_solver. }
  destruct (CoreSetTimer_queue _ _ _ _ _ Hinv Heq) as [_ Hq].
  exists st'. split; [done|]. split; [done|].
  split; [by apply (timer_event_kind st)|]. split; [done|]. split; [done|].
  cbn zeta in Hcase. unfold trig, per in *.
  destruct (Z.eqb_spec ty TimerCancel) as [->|Hc].
  - destruct Hcase as (Ht & Hp & Hl & _ & Hs & _). split; [|split; [done|by rewrite Hs]].
    change (TimerCancel =? TimerPeriodic) with false. simpl negb.
    destruct (Memory st' e); simpl in *. congruence.
  - destruct Hcase as (Ht & Hp & Hl & _ & Hs & _). split; [|split].
    + simpl negb. destruct (Memory st' e); simpl in *. congruence.
    + by rewrite Hq, Ht.
    + rewrite Hs. by destruct (t =? 0).
Qed.

(** X9.  A CoreSetTimer on an event, whatever it returns, leaves the clock,
    every other event and the signature and type of the event itself as they
    were, signals no timer event, and leaves the other entries of a sorted
    timer list in the order they had. *)
Theorem X9_set_timer_frame (e : EFI_EVENT) (ty t : Z) (st : state) :
  queue_inv st ->
  mEfiSystemTime (snd (CoreSetTimer e ty t st)) = mEfiSystemTime st /\
  (forall x, x <> e -> Memory (snd (CoreSetTimer e ty t st)) x = Memory st x) /\
  Signature (Memory (snd (CoreSetTimer e ty t st)) e) = Signature (Memory st e) /\
  Type_ (Memory (snd (CoreSetTimer e ty t st)) e) = Type_ (Memory st e) /\
  fires (Signalled (snd (CoreSetTimer e ty t st))) = fires (Signalled st) /\
  unlink e (mEfiTimerList (snd (CoreSetTimer e ty t st))) = unlink e (mEfiTimerList st).
Proof.
  intros Hinv. destruct (CoreSetTimer e ty t st) as [s st'] eqn:Heq. simpl.
  destruct (CoreSetTimer_cases _ _ _ _ _ _ Heq)
    as [(_ & -> & _)|(-> & _ & _ & Hti & Hmem & Hsg & Hty & Hcase)]; [done|].
  destruct (CoreSetTimer_queue _ _ _ _ _ Hinv Heq) as [He Hq].
  do 4 (split; [done|]). cbn zeta in Hcase. split.
  - destruct (ty =? TimerCancel).
    + by destruct Hcase as (_ & _ & _ & _ & -> & _).
    + destruct Hcase as (_ & _ & _ & _ & -> & _). by destruct (t =? 0).
  - rewrite Hq. destruct (ty =? TimerCancel).
    + by apply unlink_absent.
    + by apply unlink_insert_scan.
Qed.

Lemma X9_witness :
  queue_inv demo_state /\
  unlink 1%N (mEfiTimerList (snd (CoreSetTimer 1%N TimerPeriodic 7 demo_state)))
    = unlink 1%N (mEfiTimerList demo_state).
Proof.
  split; [exact demo_state_inv|].
  apply (X9_set_timer_frame 1%N TimerPeriodic 7 demo_state demo_state_inv).
Defined.

(** X10.  On a handle CoreSetTimer accepts, the effect of a CoreSetTimer does
    not depend on the schedule an earlier CoreSetTimer gave the event: a
    call made after another call on the same event, with no tick in
    between, leaves the same timer list, the same events and the same clock
    as that call made alone.  In particular arming twice with the same
    arguments is arming once, and arming and then cancelling is
    cancelling. *)
Theorem X10_last_set_timer_wins (st : state) (e : EFI_EVENT) (ty1 t1 ty2 t2 : Z) :
  queue_inv st -> timer_event st e -> valid_kind ty1 -> valid_kind ty2 ->
  exists st1 st12 st2,
    CoreSetTimer e ty1 t1 st = (EFI_SUCCESS, st1) /\
    CoreSetTimer e ty2 t2 st1 = (EFI_SUCCESS, st12) /\
    CoreSetTimer e ty2 t2 st = (EFI_SUCCESS, st2) /\
    mEfiTimerList st12 = mEfiTimerList st2 /\
    (forall x, Memory st12 x = Memory st2 x) /\
    mEfiSystemTime st12 = mEfiSystemTime st2 /\
    fires (Signalled st12) = fires (Signalled st2).
Proof.
  intros Hinv Hev Hk1 Hk2.
  destruct (CoreSetTimer_effect e ty1 t1 st Hinv Hev Hk1)
    as (st1 & H1 & Hinv1 & Hev1 & Hti1 & Hm1 & Hme1 & Hq1 & Hf1).
  destruct (CoreSetTimer_effect e ty2 t2 st1 Hinv1 Hev1 Hk2)
    as (st12 & H12 & _ & _ & Hti12 & Hm12 & Hme12 & Hq12 & Hf12).
  destruct (CoreSetTimer_effect e ty2 t2 st Hinv Hev Hk2)
    as (st2 & H2 & _ & _ & Hti2 & Hm2 & Hme2 & Hq2 & Hf2).
  exists st1, st12, st2. do 3 (split; [done|]).
  assert (Hmem : forall x, Memory st12 x = Memory st2 x).
  { intros x. destruct (decide (x = e)) as [->|Hne].
    - rewrite Hme12, Hme2, Hme1, Hti1. done.
    - by rewrite Hm12, Hm1, Hm2. }
  assert (Hgone : e ∉ unlink e (mEfiTimerList st)) by apply unlink_gone, Hinv.
  assert (Hun : unlink e (mEfiTimerList st1) = unlink e (mEfiTimerList st)).
  { rewrite Hq1. destruct (ty1 =? TimerCancel).
    - by apply unlink_absent.
    - by apply unlink_insert_scan. }
  split; [|split; [done|split; congruence]].
  rewrite Hq12, Hq2, Hun, Hti1. destruct (ty2 =? TimerCancel); [done|].
  apply insert_scan_ext. intros x _. by rewrite Hmem.
Qed.

Lemma X10_witness :
  queue_inv demo_state /\ timer_event demo_state 1%N /\
  valid_kind TimerPeriodic /\ valid_kind TimerCancel /\
  exists st1 st12 st2,
    CoreSetTimer 1%N TimerPeriodic 7 demo_state = (EFI_SUCCESS, st1) /\
    CoreSetTimer 1%N TimerCancel 0 st1 = (EFI_SUCCESS, st12) /\
    CoreSetTimer 1%N TimerCancel 0 demo_state = (EFI_SUCCESS, st2) /\
    mEfiTimerList st12 = mEfiTimerList st2.
Proof.
  assert (Hev : timer_event demo_state 1%N) by (repeat split; done).
  assert (Hk1 : valid_kind TimerPeriodic) by (right; by left).
  assert (Hk2 : valid_kind TimerCancel) by by left.
  do 4 (split; [first [exact demo_state_inv|done]|]).
  destruct (X10_last_set_timer_wins demo_state 1%N TimerPeriodic 7 TimerCancel 0
              demo_state_inv Hev Hk1 Hk2)
    as (st1 & st12 & st2 & H1 & H12 & H2 & Hq & _).
  by exists st1, st12, st2.
Defined.

(** X11.  After a Cancel on an event, whatever calls follow that are not a
    CoreSetTimer on the event itself (ticks, runs of CoreCheckTimers,
    CoreSetTimer on other events) and return, the event stays off the timer
    list with deadline and period zero and is never signalled. *)
Theorem X11_cancelled_is_never_signalled
    (st : state) (e : EFI_EVENT) (t : Z) (cs : list call) (st2 : state) :
  queue_inv st -> timer_event st e -> Forall (spares e) cs ->
  run cs (snd (CoreSetTimer e TimerCancel t st)) = Some st2 ->
  (e ∉ mEfiTimerList st2) /\
  trig st2 e = 0 /\ per st2 e = 0 /\
  Link_ForwardLink (Memory st2 e) = false /\
  times_signalled e st2 = times_signalled e st.
Proof.
  intros Hinv Hev Hcs Hrun.
  destruct (CoreSetTimer_effect e TimerCancel t st Hinv Hev)
    as (st1 & H1 & Hinv1 & _ & _ & _ & Hme1 & Hq1 & Hf1); [by left|].
  rewrite H1 in Hrun. simpl in Hrun, Hme1, Hq1.
  assert (Hout : e ∉ mEfiTimerList st1) by (rewrite Hq1; apply unlink_gone, Hinv).
  destruct (run_absent cs st1 st2 e Hcs Hrun Hout) as (? & Hm & Hf).
  split; [done|]. unfold trig, per, times_signalled, fires_of in *.
  rewrite Hm, Hme1, Hf. simpl. by rewrite Hf1.
Qed.

Lemma X11_witness :
  queue_inv demo_state /\ timer_event demo_state 1%N /\
  Forall (spares 1%N) [TimerTick 200; CheckTimers 5] /\
  exists st2,
    run [TimerTick 200; CheckTimers 5]
        (snd (CoreSetTimer 1%N TimerCancel 0 demo_state)) = Some st2 /\
    times_signalled 1%N st2 = times_signalled 1%N demo_state.
Proof.
  assert (Hev : timer_event demo_state 1%N) by (repeat split; done).
  assert (Hcs : Forall (spares 1%N) [TimerTick 200; CheckTimers 5])
    by (repeat constructor; done).
  do 3 (split; [first [exact demo_state_inv|done]|]).
  destruct (run [TimerTick 200; CheckTimers 5]
              (snd (CoreSetTimer 1%N TimerCancel 0 demo_state))) as [st2|] eqn:Hrun;
    [|by vm_compute in Hrun].
  exists st2. split; [done|].
  exact (proj2 (proj2 (proj2 (proj2
    (X11_cancelled_is_never_signalled demo_state 1%N 0 _ st2
       demo_state_inv Hev Hcs Hrun))))).
Defined.

(** ** When the loop of CoreCheckTimers is never left *)

(** X12.  On a sorted list with a due periodic entry whose period is so
    large that both its next deadline and snapshot + period wrap around to
    values not after the snapshot, CoreCheckTimers does not return: whatever
    the number of iterations allowed, its loop is not left. *)
Theorem X12_wrapping_period_never_returns (st : state) (e : EFI_EVENT) (fuel : nat) :
  queue_inv st -> e ∈ mEfiTimerList st -> per st e <> 0 ->
  trig st e <= mEfiSystemTime st ->
  wrap64 (trig st e + per st e) <= mEfiSystemTime st ->
  wrap64 (mEfiSystemTime st + per st e) <= mEfiSystemTime st ->
  CoreCheckTimers fuel st = None.
Proof.
  intros Hinv He Hp Hdue Hw1 Hw2.
  set (now := mEfiSystemTime st) in *. set (P := per st e) in *.
  assert (Hloop : forall n s,
    queue_inv s -> e ∈ mEfiTimerList s -> per s e = P ->
    trig s e <= now -> wrap64 (trig s e + P) <= now ->
    CoreCheckTimers_loop n now s = None).
  { clear -Hp Hw2. induction n as [|n IH]; intros s Hinv He Hper Hdue Hw; [done|].
    simpl. destruct (CoreCheckTimers_body now s) as [s1|] eqn:Hb;
      [|by destruct (due_head_taken now s e)].
    pose proof (body_queue_inv _ _ _ Hinv Hb) as Hinv1.
    destruct (body_step _ _ _ Hb)
      as (h & t & Hq & _ & _ & Hmem & Hper1 & _ & Hz & Hnz).
    destruct (decide (h = e)) as [->|Hne].
    - rewrite Hper in *. destruct (Hnz Hp) as (Hq1 & Ht1 & _).
      assert (Htn : trig s1 e = now).
      { rewrite Ht1. unfold rearm_deadline.
        destruct (Z.leb_spec (wrap64 (trig s e + P)) now); [done|lia]. }
      apply IH; try done.
      + rewrite Hq1. apply insert_scan_elem_of. by left.
      + lia.
      + by rewrite Htn.
    - assert (Hme : Memory s1 e = Memory s e) by by apply Hmem.
      apply IH; try done.
      + rewrite Hq in He. assert (e ∈ t) by set_solver.
        destruct (Z.eq_dec (per s h) 0) as [Hp0|Hp0].
        * by destruct (Hz Hp0) as (-> & _).
        * destruct (Hnz Hp0) as (-> & _). apply insert_scan_elem_of. by right.
      + unfold per. by rewrite Hme.
      + unfold trig. by rewrite Hme.
      + unfold trig. by rewrite Hme. }
  unfold CoreCheckTimers.
  change (CoreCurrentSystemTime _) with (now, locked st). cbn iota beta.
  rewrite Hloop; first [done | by apply locked_queue_inv].
Qed.

Lemma X12_witness :
  queue_inv overdue_state /\ 1%N ∈ mEfiTimerList overdue_state /\
  per overdue_state 1%N <> 0 /\
  trig overdue_state 1%N <= mEfiSystemTime overdue_state /\
  wrap64 (trig overdue_state 1%N + per overdue_state 1%N)
    <= mEfiSystemTime overdue_state /\
  wrap64 (mEfiSystemTime overdue_state + per overdue_state 1%N)
    <= mEfiSystemTime overdue_state /\
  CoreCheckTimers 100 overdue_state = None.
Proof.
  assert (H0 : queue_inv overdue_state) by apply overdue_state_WF.
  assert (H1 : 1%N ∈ mEfiTimerList overdue_state) by (vm_compute; by left).
  assert (H2 : per overdue_state 1%N <> 0) by (vm_compute; discriminate).
  assert (H3 : trig overdue_state 1%N <= mEfiSystemTime overdue_state)
    by (vm_compute; discriminate).
  assert (H4 : wrap64 (trig overdue_state 1%N + per overdue_state 1%N)
               <= mEfiSystemTime overdue_state) by (vm_compute; discriminate).
  assert (H5 : wrap64 (mEfiSystemTime overdue_state + per overdue_state 1%N)
               <= mEfiSystemTime overdue_state) by (vm_compute; discriminate).
  do 6 (split; [done|]).
  exact (X12_wrapping_period_never_returns overdue_state 1%N 100 H0 H1 H2 H3 H4 H5).
Defined.

(** ** List order is signal order *)

(** While the loop works on the entries in front of a due entry, that entry
    and the entries behind it are untouched and not signalled. *)
Lemma behind_untouched now e pre :
  forall st suf,
    queue_inv st -> mEfiTimerList st = pre ++ e :: suf -> trig st e <= now ->
    let st' := check_iter (length pre) now st in
    exists suf',
      mEfiTimerList st' = e :: suf' /\
      forall x, x ∈ e :: suf ->
        x ∈ e :: suf' /\ Memory st' x = Memory st x /\
        fires_of x (Signalled st') = fires_of x (Signalled st).
Proof.
  induction pre as [|h pre IH]; intros st suf Hinv Hq Hdue; cbn zeta.
  { simpl. exists suf. split; [done|]. by intros x Hx. }
  simpl in Hq. simpl length.
  assert (Hhe : trig st h <= trig st e).
  { destruct Hinv as (_ & _ & Hs). rewrite Hq in Hs.
    apply (sorted_head_least _ _ _ _ Hs). set_solver. }
  assert (Hhdue : trig st h <= now) by lia.
  destruct (body_expired now st h _ Hq Hhdue) as (st1 & Hb & _).
  simpl check_iter. rewrite Hb.
  pose proof (body_queue_inv _ _ _ Hinv Hb) as Hinv1.
  destruct (body_step _ _ _ Hb)
    as (h' & t' & Hq' & _ & _ & Hmem & _ & Hf & Hz & Hnz).
  assert (h' = h /\ t' = pre ++ e :: suf) as [-> ->] by (split; congruence).
  pose proof Hinv as (Hnd & _ & Hs). rewrite Hq in Hnd, Hs.
  apply NoDup_cons in Hnd as [Hh' Hnd].
  assert (Hsame : forall x, x ∈ pre ++ e :: suf -> Memory st1 x = Memory st x).
  { intros x Hx. apply Hmem. set_solver. }
  assert (Hpre : Forall (fun x => trig st x <= trig st e) pre).
  { apply StronglySorted_inv in Hs as [Hs _]. apply Forall_forall. intros x Hx.
    eapply (StronglySorted_app_1_elem_of _ _ _ x e) in Hs; [done|done|set_solver]. }
  assert (Hq1 : exists suf1,
    mEfiTimerList st1 = pre ++ e :: suf1 /\ forall x, x ∈ suf -> x ∈ suf1).
  { destruct (Z.eq_dec (per st h) 0) as [Hp0|Hp0].
    - destruct (Hz Hp0) as (-> & _). by exists suf.
    - destruct (Hnz Hp0) as (Hq1 & Ht1 & _). rewrite Hq1.
      exists (insert_scan (Memory st1) (trig st1 h) h suf).
      split; [|intros x Hx; apply insert_scan_elem_of; by right].
      rewrite (cons_middle e pre suf), app_assoc.
      rewrite (insert_scan_prefix _ _ _ (pre ++ [e]) suf), <- app_assoc; [done|].
      pose proof (rearm_deadline_ge now (trig st h) (per st h)).
      apply Forall_forall. intros x Hx. fold (trig st1 x).
      unfold trig at 1. rewrite Hsame by set_solver. fold (trig st x).
      apply elem_of_app in Hx as [Hx|Hx];
        [|apply list_elem_of_singleton in Hx; subst x; lia].
      eapply Forall_forall in Hpre; [|done]. lia. }
  destruct Hq1 as (suf1 & Hq1 & Hsub).
  destruct (IH st1 suf1 Hinv1 Hq1) as (suf' & Hqk & Hall).
  { unfold trig. rewrite Hsame; [done|set_solver]. }
  exists suf'. split; [done|]. intros x Hx.
  assert (Hx1 : x ∈ e :: suf1) by set_solver.
  assert (Hxh : h <> x) by (intros ->; set_solver).
  destruct (Hall x Hx1) as (? & Hm & Hfx). split; [done|].
  split; [rewrite Hm; apply Hsame; set_solver|].
  rewrite Hfx. unfold fires_of. rewrite Hf, fires_of_cons. by rewrite decide_False.
Qed.

(** X13.  On a sorted list, of two due entries the one nearer the head is
    signalled first: there is an iteration of the loop of CoreCheckTimers
    after which the nearer one has been signalled, for its deadline, and the
    other one has not been signalled yet.  Since an entry is linked behind
    the entries with the same deadline, timers with equal deadlines are
    signalled in the order in which they were armed. *)
Theorem X13_list_order_is_signal_order
    (st : state) (e1 e2 : EFI_EVENT) (pre mid suf : list EFI_EVENT) :
  queue_inv st -> mEfiTimerList st = pre ++ e1 :: mid ++ e2 :: suf ->
  trig st e1 <= mEfiSystemTime st ->
  let st' := check_iter (S (length pre)) (mEfiSystemTime st) (locked st) in
  fires_of e1 (Signalled st') = (e1, trig st e1) :: fires_of e1 (Signalled st) /\
  fires_of e2 (Signalled st') = fires_of e2 (Signalled st) /\
  e2 ∈ mEfiTimerList st' /\ Memory st' e2 = Memory st e2.
Proof.
  intros Hinv Hq Hdue. cbn zeta. set (now := mEfiSystemTime st) in *.
  destruct (behind_untouched now e1 pre (locked st) (mid ++ e2 :: suf))
    as (suf' & Hqk & Hall); [by apply locked_queue_inv|done|done|].
  cbn zeta in Hall.
  assert (Hne : e1 <> e2).
  { destruct Hinv as (Hnd & _). rewrite Hq in Hnd.
    apply NoDup_app in Hnd as (_ & _ & Hnd). apply NoDup_cons in Hnd as [Hn _].
    intros ->. apply Hn. set_solver. }
  destruct (Hall e1) as (_ & Hm1 & Hf1); [by left|].
  destruct (Hall e2) as (Hin2 & Hm2 & Hf2); [set_solver|].
  replace (S (length pre)) with (length pre + 1)%nat by lia.
  rewrite check_iter_add.
  set (stk := check_iter (length pre) now (locked st)) in *.
  assert (Hduek : trig stk e1 <= now) by (unfold trig; by rewrite Hm1).
  destruct (body_expired now stk e1 suf' Hqk Hduek) as (st1 & Hb & _).
  simpl check_iter. rewrite Hb.
  destruct (body_step _ _ _ Hb)
    as (h' & t' & Hq' & _ & _ & Hmem1 & _ & Hf & Hz & Hnz).
  assert (h' = e1 /\ t' = suf') as [-> ->] by (split; congruence).
  unfold fires_of in *. rewrite Hf, !fires_of_cons.
  rewrite decide_True by done. rewrite decide_False by done.
  split; [unfold trig; by rewrite Hm1, Hf1|]. split; [done|].
  assert (e2 ∈ suf') by set_solver. split.
  - destruct (Z.eq_dec (per stk e1) 0) as [Hp0|Hp0].
    + by destruct (Hz Hp0) as (-> & _).
    + destruct (Hnz Hp0) as (-> & _). apply insert_scan_elem_of. by right.
  - etrans; [apply Hmem1; congruence|exact Hm2].
Qed.

Lemma X13_witness :
  queue_inv (CoreTimerTick 200 demo_state) /\
  mEfiTimerList (CoreTimerTick 200 demo_state) = [] ++ 2%N :: [] ++ 1%N :: [] /\
  trig (CoreTimerTick 200 demo_state) 2%N <= mEfiSystemTime (CoreTimerTick 200 demo_state) /\
  fires_of 1%N (Signalled (check_iter 1 (mEfiSystemTime (CoreTimerTick 200 demo_state))
                             (locked (CoreTimerTick 200 demo_state))))
    = fires_of 1%N (Signalled (CoreTimerTick 200 demo_state)).
Proof.
  assert (H0 : queue_inv (CoreTimerTick 200 demo_state))
    by apply CoreTimerTick_queue_inv, demo_state_inv.
  assert (H1 : mEfiTimerList (CoreTimerTick 200 demo_state) = [] ++ 2%N :: [] ++ 1%N :: [])
    by (vm_compute; reflexivity).
  assert (H2 : trig (CoreTimerTick 200 demo_state) 2%N
               <= mEfiSystemTime (CoreTimerTick 200 demo_state))
    by (vm_compute; discriminate).
  do 3 (split; [done|]).
  exact (proj1 (proj2 (X13_list_order_is_signal_order _ 2%N 1%N [] [] [] H0 H1 H2))).
Defined.
